(** * moize: cache keys, key resolution, eviction and expiration

    A shallow embedding of the cache engine of the repository:
    - [src/src/ReactCacheKey.js]: the component cache key;
    - [src/src/utils.js]: argument pipeline, key resolution, storing of
      new values, promise handlers;
    - [src/unnamed/part_000]: serialization, decycling, usage order and
      timer based expiration over a [Map] and a usage array;
    - [src/src/constants.ts]: the default options.

    Part I holds the definitions, Part II the theorems. *)

From Stdlib Require Import ZArith Lia Bool.
From stdpp Require Import base option list gmap strings pretty.

Set Default Proof Using "Type".

(* ===================================================================== *)
(** * Part I: definitions *)
(* ===================================================================== *)

(** ** JavaScript values

    Numbers are restricted to the integers and [NaN]; objects are
    references, so that [===] on objects is identity of references. *)
Module Js.

Inductive value :=
  | VUndefined
  | VNull
  | VBool (b : bool)
  | VNum (n : Z)
  | VNaN
  | VStr (s : string)
  | VObj (r : nat).

#[global] Instance value_eq_dec : EqDecision value.
Proof. solve_decision. Defined.

(** [a === b]: [NaN] differs from itself, everything else is compared
    as is (references by identity). *)
Definition strict_eq (a b : value) : bool :=
  match a, b with
  | VNaN, _ | _, VNaN => false
  | _, _ => bool_decide (a = b)
  end.

(** [Number.isSafeInteger]: the integers between [-(2^53 - 1)] and
    [2^53 - 1], every one of which is a number. *)
Definition isSafeInteger (n : Z) : bool := (Z.abs n <=? 9007199254740991)%Z.

(** The string a template literal writes for a value.  A number is
    written with its decimal digits, which is what the code does below
    [10^21], so for every safe integer; from there on the code writes
    an exponent, and the text given here is not the code's.  An object
    is never interpolated directly by the code embedded here; the text
    of a plain object is given for completeness. *)
Definition ToString (v : value) : string :=
  match v with
  | VUndefined => "undefined"
  | VNull => "null"
  | VBool true => "true"
  | VBool false => "false"
  | VNum n => pretty n
  | VNaN => "NaN"
  | VStr s => s
  | VObj _ => "[object Object]"
  end.

#[global] Instance value_countable : Countable value.
Proof.
  refine (inj_countable'
    (fun v => match v with
              | VUndefined => inl (inl (inl (inl ())))
              | VNull => inl (inl (inl (inr ())))
              | VBool b => inl (inl (inr b))
              | VNum n => inl (inr n)
              | VNaN => inr (inl ())
              | VStr s => inr (inr (inl s))
              | VObj r => inr (inr (inr r))
              end)
    (fun e => match e with
              | inl (inl (inl (inl ()))) => VUndefined
              | inl (inl (inl (inr ()))) => VNull
              | inl (inl (inr b)) => VBool b
              | inl (inr n) => VNum n
              | inr (inl ()) => VNaN
              | inr (inr (inl s)) => VStr s
              | inr (inr (inr r)) => VObj r
              end) _).
  by intros [].
Defined.

(** What a computation returns: a plain value or a pending promise. *)
Inductive computed :=
  | Value (v : value)
  | Promise (p : nat).

(** An object as its own enumerable properties, in insertion order.
    The objects are ordinary ones, as a literal or [Object.assign]
    creates them: their prototype is [Object.prototype]. *)
Definition jsobject := list (string * value).

(** [Object.keys(o)] of an object *)
Definition own_keys (o : jsobject) : list string := o.*1.

(** The own property [name] of [o], [undefined] when [o] has none of
    that name. *)
Fixpoint prop_get (o : jsobject) (name : string) : value :=
  match o with
  | [] => VUndefined
  | (k, v) :: o' => if String.eqb name k then v else prop_get o' name
  end.

(** The names of the members of [Object.prototype]. *)
Definition Object_prototype : list string :=
  ["constructor"; "hasOwnProperty"; "isPrototypeOf"; "propertyIsEnumerable";
   "toLocaleString"; "toString"; "valueOf"; "__proto__"; "__defineGetter__";
   "__defineSetter__"; "__lookupGetter__"; "__lookupSetter__"].

(** What reading a property finds: a value, or the member of
    [Object.prototype] of that name.  These members are built-in
    objects (functions, [Object] under [constructor] and
    [Object.prototype] itself under [__proto__]), one per name; they are
    not among the values an object of the model holds. *)
Inductive member :=
  | Data (v : value)
  | Builtin (name : string).

(** [o[name]]: the own property when there is one, else the member of
    [Object.prototype] of that name, else [undefined]. *)
Definition get (o : jsobject) (name : string) : member :=
  if bool_decide (name ∈ own_keys o) then Data (prop_get o name)
  else if bool_decide (name ∈ Object_prototype) then Builtin name
  else Data VUndefined.

(** [a === b] on what two reads found: the members of
    [Object.prototype] are objects, each identical to itself only. *)
Definition same (a b : member) : bool :=
  match a, b with
  | Data x, Data y => strict_eq x y
  | Builtin m, Builtin n => bool_decide (m = n)
  | _, _ => false
  end.

(** Outcome of an operation that may throw a [TypeError]. *)
Inductive completion (A : Type) :=
  | Normal (a : A)
  | TypeError.
Arguments Normal {A} a.
Arguments TypeError {A}.

#[global] Instance completion_bind : MBind completion := fun A B f c =>
  match c with
  | Normal a => f a
  | TypeError => TypeError
  end.

(** An option that is set, as opposed to [undefined]. *)
Definition defined {A} (o : option A) : bool :=
  match o with
  | Some _ => true
  | None => false
  end.

(** An array slot that holds an object or is absent / [undefined]. *)
Definition element := option jsobject.

(** [key[i]]: reading past the end of an array gives [undefined]. *)
Definition index (key : list element) (i : nat) : element :=
  match key !! i with
  | Some e => e
  | None => None
  end.

(** [Object.keys(object)]: throws on [undefined]. *)
Definition ObjectKeys (object : element) : completion (list string) :=
  match object with
  | Some o => Normal (own_keys o)
  | None => TypeError
  end.

(** [object[name]]: throws when [object] is [undefined]. *)
Definition read (object : element) (name : string) : completion member :=
  match object with
  | Some o => Normal (get o name)
  | None => TypeError
  end.

End Js.
Import Js.

(** ** src/src/ReactCacheKey.js *)
Module ReactCacheKey.

(** [this.key] of a [ReactCacheKey] *)
Record t := {
  context : element;
  contextSize : nat;
  props : element;
  propsSize : nat
}.

(** The two property names [_isPropShallowEqual] is called with. *)
Inductive prop := Props | Context.

(** [this.key[prop]] *)
Definition key_prop (k : t) (p : prop) : element :=
  match p with Props => props k | Context => context k end.

(** [this.key[`${prop}Size`]] *)
Definition key_propSize (k : t) (p : prop) : nat :=
  match p with Props => propsSize k | Context => contextSize k end.

(** [Object.keys(x).length] in the constructor, guarded by [x ? ... : 0] *)
Definition size_of (x : element) : nat :=
  match x with
  | Some o => length (own_keys o)
  | None => 0
  end.

(** [new ReactCacheKey(key)] *)
Definition constructor (key : list element) : t :=
  let context := index key 1 in
  let props := index key 0 in
  {| context := context;
     contextSize := size_of context;
     props := props;
     propsSize := size_of props |}.

(** The [while] loop of [_isPropShallowEqual] over [keys[index..]]; the
    recursion is on the keys still to visit. *)
Fixpoint shallow_loop (k : t) (p : prop) (object : element) (keys : list string)
  : completion bool :=
  match keys with
  | [] => Normal true
  | name :: rest =>
      a ← read object name;
      b ← read (key_prop k p) name;
      if negb (same a b) then Normal false
      else shallow_loop k p object rest
  end.

Definition _isPropShallowEqual (k : t) (p : prop) (object : element)
  : completion bool :=
  keys ← ObjectKeys object;
  if negb (length keys =? key_propSize k p) then Normal false
  else shallow_loop k p object keys.

(** [matches(key)]: [&&] evaluates its right operand only when the left
    one is [true]. *)
Definition matches (k : t) (key : list element) : completion bool :=
  l ← _isPropShallowEqual k Props (index key 0);
  if (l : bool) then _isPropShallowEqual k Context (index key 1)
  else Normal false.

(** The first-level comparison of one half, as a proposition: the
    candidate has the stored number of own properties, and for each of
    them either the stored object has a property of that name with a
    value [===] to the candidate's, or neither the stored object nor
    [Object.prototype] has one and the candidate's value is
    [undefined]. *)
Definition shallow_equal (k : t) (p : prop) (o : jsobject) : Prop :=
  length (own_keys o) = key_propSize k p /\
  forall name, name ∈ own_keys o ->
    exists stored, key_prop k p = Some stored /\
      if bool_decide (name ∈ own_keys stored)
      then strict_eq (prop_get o name) (prop_get stored name) = true
      else (name ∉ Object_prototype) /\ prop_get o name = VUndefined.

(** Concrete keys used in the examples. *)
Definition stored_ab : t :=
  constructor [Some [("a", VNum 1)]; Some [("b", VNum 2)]].

End ReactCacheKey.

(** ** src/src/constants.ts and the options of src/src/utils.js *)
Module Constants.

(** What [promiseLibrary.resolve] and [promiseLibrary.reject] build: a
    promise that is already settled. *)
Inductive settled :=
  | Fulfilled (v : value)
  | Rejected (reason : value).

Record PromiseLibrary := {
  resolve : value -> settled;
  reject : value -> settled
}.

(** The native [Promise]. *)
Definition nativePromise : PromiseLibrary :=
  {| resolve := Fulfilled; reject := Rejected |}.

(** The fields of [DEFAULT_OPTIONS], followed by the three further
    options [utils.js] reads ([equals], [serialize], [promiseLibrary]).
    [None] is [undefined]. *)
Record Options := {
  isDeepEqual : bool;
  isPromise : bool;
  isReact : bool;
  isSerialized : bool;
  isShallowEqual : bool;
  matchesArg : option (value -> value -> bool);
  matchesKey : option (list value -> list value -> bool);
  maxAge : option Z;
  maxArgs : option Z;
  maxSize : option Z;
  onExpire : option (list value -> bool);
  profileName : option string;
  serializer : option (list value -> list value);
  transformArgs : option (list value -> list value);
  updateExpire : bool;
  equals : option (value -> value -> bool);
  serialize : bool;
  promiseLibrary : option PromiseLibrary
}.

Definition DEFAULT_OPTIONS : Options := {|
  isDeepEqual := false;
  isPromise := false;
  isReact := false;
  isSerialized := false;
  isShallowEqual := false;
  matchesArg := None;
  matchesKey := None;
  maxAge := None;
  maxArgs := None;
  maxSize := Some 1%Z;
  onExpire := None;
  profileName := None;
  serializer := None;
  transformArgs := None;
  updateExpire := false;
  equals := None;
  serialize := false;
  promiseLibrary := None
|}.

End Constants.
Import Constants.

(** ** src/src/utils.js *)
Module Utils.

(** *** Cache keys and the cache

    [SingleParameterCacheKey.js], [MultipleParameterCacheKey.js],
    [SerializedCacheKey.js] and [Cache.js] are not under [src/]. *)

Inductive key_class :=
  | SingleParameterCacheKey
  | MultipleParameterCacheKey
  | SerializedCacheKey.

(** A cache key object [new class(args)].  [ref] is the identity of the
    object: [===] on two keys compares their references. *)
Record CacheKey := {
  ref : nat;
  class : key_class;
  args : list value
}.

Definition same_key (a b : CacheKey) : bool := bool_decide (ref a = ref b).

(** What a cache entry holds: a synchronous result, a pending promise
    [p] itself, the promise [value.then(resolver, rejecter)] derived
    from the pending promise [p], or a settled promise made by the
    promise library. *)
Inductive cached :=
  | Plain (v : value)
  | Pending (p : nat)
  | Then (p : nat)
  | Resolved (s : settled).

Record ListItem := {
  key : CacheKey;
  value : cached
}.

(** Modelled from the spec: the [Cache] class ([Cache.js] is missing).
    The spec gives it [entries], an ordered sequence with the most
    recently used entry at index 0, and [size = entries.length];
    [utils.js] reads them as [cache.list], [cache.size] and
    [cache.lastItem] (the entry at index 0). *)
Module Cache.
Record t := { list : list ListItem }.
End Cache.
Abbreviation Cache := Cache.t.

Definition size (cache : Cache) : nat := length (Cache.list cache).

Definition lastItem (cache : Cache) : option ListItem := head (Cache.list cache).

(** *** Helpers of utils.js *)

(** Modelled from the spec: the constant [FINITE_POSITIVE_INTEGER], the
    pattern the string of the number is tested with, is missing from
    [constants.ts].  By the description of the function (is the number
    an integer that is finite and positive) and the spec's
    [maxSize: integer ≥ 1] the test holds for the positive integers. *)
Definition isFiniteAndPositiveInteger (number : option Z) : bool :=
  match number with
  | Some n => (0 <? n)%Z
  | None => false
  end.

(** [array.slice(0, size)] *)
Definition slice0 {A} (array : list A) (size : Z) : list A :=
  if (size <? 0)%Z
  then firstn (Z.to_nat (Z.max (Z.of_nat (length array) + size) 0)) array
  else firstn (Z.to_nat size) array.

(** [array[i]] of an array of values *)
Definition at_ (array : list Js.value) (i : nat) : Js.value :=
  nth i array VUndefined.

Definition take (size : Z) (array : list Js.value) : list Js.value :=
  if (size >=? Z.of_nat (length array))%Z then array
  else match size with
       | 1%Z => [at_ array 0]
       | 2%Z => [at_ array 0; at_ array 1]
       | 3%Z => [at_ array 0; at_ array 1; at_ array 2]
       | 4%Z => [at_ array 0; at_ array 1; at_ array 2; at_ array 3]
       | 5%Z => [at_ array 0; at_ array 1; at_ array 2; at_ array 3; at_ array 4]
       | _ => slice0 array size
       end.

(** A function from an argument array to an argument array; calling
    it may throw. *)
Definition fn := list Js.value -> completion (list Js.value).

Definition lift (f : list Js.value -> list Js.value) : fn :=
  fun args => Normal (f args).

(** Calling an option that may be [undefined]. *)
Definition call (f : option (list Js.value -> list Js.value)) : fn :=
  match f with
  | Some f => lift f
  | None => fun _ => TypeError
  end.

(** [compose(f, ...rest)]: [reduce] without an initial value starts
    from the first function; the composed function runs the last one
    first. *)
Definition compose (f : fn) (rest : list fn) : fn :=
  fold_left (fun f g => fun args => x ← g args; f x) rest f.

(** The loop of [createFindIndex] over [list[index..]]; [-1] when no
    entry has the key. *)
Fixpoint findIndex_loop (items : list ListItem) (index : nat) (k : CacheKey) : Z :=
  match items with
  | [] => (-1)%Z
  | item :: rest =>
      if same_key k (key item) then Z.of_nat index
      else findIndex_loop rest (S index) k
  end.

Definition createFindIndex (startingIndex : nat)
  (list : list ListItem) (k : CacheKey) : Z :=
  findIndex_loop (drop startingIndex list) startingIndex k.

Definition findIndex := createFindIndex 0.
Definition findIndexAfterFirst := createFindIndex 1.

(** [splice(array, startingIndex)]: entries after [startingIndex] move
    one place down and the length drops by one; an index past the end
    drops the last entry; an empty array is returned as is. *)
Definition splice {A} (array : list A) (startingIndex : nat) : list A :=
  if length array =? 0 then array
  else if startingIndex <? length array
       then firstn startingIndex array ++ drop (S startingIndex) array
       else firstn (length array - 1) array.

(** [unshift(array, item)]: the array after the call. *)
Definition unshift {A} (array : list A) (item : A) : list A := item :: array.

(** *** The cache operations utils.js calls *)

(** Modelled from the spec: [add(key, value)] prepends a brand-new entry
    at the head. *)
Definition add (cache : Cache) (k : CacheKey) (v : cached) : Cache :=
  {| Cache.list := unshift (Cache.list cache) {| key := k; value := v |} |}.

(** Modelled from the spec: [remove(key)] deletes the entry; no-op if
    absent. *)
Definition remove (cache : Cache) (k : CacheKey) : Cache :=
  let index := findIndex (Cache.list cache) k in
  if (index =? -1)%Z then cache
  else {| Cache.list := splice (Cache.list cache) (Z.to_nat index) |}.

(** Modelled from the spec: [update(key, value)] replaces the value of
    an existing entry in place without moving its position. *)
Definition update (cache : Cache) (k : CacheKey) (v : cached) : Cache :=
  let index := findIndex (Cache.list cache) k in
  if (index =? -1)%Z then cache
  else {| Cache.list := alter (fun item => {| key := key item; value := v |})
                              (Z.to_nat index) (Cache.list cache) |}.

(** Modelled from the spec: [has(key)] is true iff an entry with an
    equal key exists; the head is looked at first.  The keys handed to
    the cache are the objects the resolver returns, so that an equal key
    is the same object, which is what [findIndex] tests. *)
Definition has (cache : Cache) (k : CacheKey) : bool :=
  negb (size cache =? 0) &&
  (match lastItem cache with
   | Some item => same_key k (key item)
   | None => false
   end
   || negb (findIndexAfterFirst (Cache.list cache) k =? -1)%Z).

(** A pending one-shot timer: its delay and the key its callback
    removes. *)
Record timer := { delay : Z; expires : CacheKey }.

(** A pending [then] on promise [promise], made for cache key
    [reacts_for]. *)
Record reaction := { promise : nat; reacts_for : CacheKey }.

(** The cache of one memoized function with the timers and promise
    reactions that are still pending. *)
Record world := {
  cache : Cache;
  timers : list timer;
  reactions : list reaction
}.

(** Modelled from the spec: [expireAfter(key, maxAge)] schedules a
    one-shot timer of [max(maxAge, 0)] that removes the entry for that
    key when it fires. *)
Definition expireAfter (w : world) (k : CacheKey) (maxAge : option Z) : world :=
  {| cache := cache w;
     timers := timers w ++ [ {| delay := Z.max (default 0%Z maxAge) 0;
                                expires := k |} ];
     reactions := reactions w |}.

Definition with_cache (w : world) (c : Cache) : world :=
  {| cache := c; timers := timers w; reactions := reactions w |}.

(** The pending timer at index [i] fires: it is one-shot, so it leaves
    the pending timers, and its callback removes the key. *)
Definition fire (i : nat) (w : world) : world :=
  match timers w !! i with
  | Some t => {| cache := remove (cache w) (expires t);
                 timers := delete i (timers w);
                 reactions := reactions w |}
  | None => w
  end.

(** *** Key resolution *)

Section resolver.
(** [key.matches(args, isMultiParamKey)] of the standard cache keys. *)
Variable matches : CacheKey -> list Js.value -> bool -> bool.

(** The [while] loop over [cache.list[index..]]; the recursion is on
    the entries still to visit. *)
Fixpoint scan (items : list ListItem) (k : list Js.value) (isMultiParamKey : bool)
  : option CacheKey :=
  match items with
  | [] => None
  | item :: rest =>
      if matches (key item) k isMultiParamKey then Some (key item)
      else scan rest k isMultiParamKey
  end.

(** [alloc] is the reference the next allocated object gets. *)
Definition getStandardCacheKey (cache : Cache) (k : list Js.value) (alloc : nat)
  : CacheKey :=
  let isMultiParamKey := 1 <? length k in
  if negb (size cache =? 0) &&
     match lastItem cache with
     | Some item => matches (key item) k isMultiParamKey
     | None => false
     end
  then match lastItem cache with
       | Some item => key item
       | None => {| ref := alloc; class := SingleParameterCacheKey; args := k |}
       end
  else match scan (drop 1 (Cache.list cache)) k isMultiParamKey with
       | Some found => found
       | None =>
           if isMultiParamKey
           then {| ref := alloc; class := MultipleParameterCacheKey; args := k |}
           else {| ref := alloc; class := SingleParameterCacheKey; args := k |}
       end.
End resolver.

(** The six methods [getGetCacheKeyMethod] chooses from. *)
Inductive method :=
| GetReactCacheKeyCustomEquals
| GetReactCacheKey
| GetSerializedCacheKeyCustomEquals
| GetSerializedCacheKey
| GetStandardCacheKeyCustomEquals
| GetStandardCacheKey.

Definition getGetCacheKeyMethod (options : Options) : method :=
if isReact options then
  if defined (equals options) then GetReactCacheKeyCustomEquals else GetReactCacheKey
else if serialize options then
  if defined (equals options) then GetSerializedCacheKeyCustomEquals
  else GetSerializedCacheKey
else
  if defined (equals options) then GetStandardCacheKeyCustomEquals
  else GetStandardCacheKey.

Section createGetCacheKey.
Context {R : Type}.
(** Running a chosen method on [(cache, key)] or
    [(cache, key, options)]. *)
Variable run : method -> Cache -> list Js.value -> option Options -> R.

Definition createGetCacheKey (cache : Cache) (options : Options)
  : list Js.value -> completion R :=
  let hasMaxArgs := isFiniteAndPositiveInteger (maxArgs options) in
  let getCacheKeyMethod := run (getGetCacheKeyMethod options) in
  let transform : option fn := lift <$> transformArgs options in
  let transform :=
    if hasMaxArgs then
      Some (match transform with
            | Some t => compose t [lift (take (default 0%Z (maxArgs options)))]
            | None => lift (take (default 0%Z (maxArgs options)))
            end)
    else transform in
  let transform :=
    if serialize options then
      match transform with
      | Some t => Some (compose (call (serializer options)) [t])
      | None => lift <$> serializer options
      end
    else transform in
  match equals options with
  | Some _ =>
      match transform with
      | Some t => fun k => k' ← t k; Normal (getCacheKeyMethod cache k' (Some options))
      | None => fun k => Normal (getCacheKeyMethod cache k (Some options))
      end
  | None =>
      match transform with
      | Some t => fun k => k' ← t k; Normal (getCacheKeyMethod cache k' None)
      | None => fun k => Normal (getCacheKeyMethod cache k None)
      end
  end.
End createGetCacheKey.

(** *** Promise handlers

    The handlers as they run on the settled value; [promiseLibrary] and
    [maxAge] are the fields the source takes out of the options. *)

Definition createPromiseRejecter (k : CacheKey) (promiseLibrary : PromiseLibrary)
  (exception : Js.value) (w : world) : world * settled :=
  let w := with_cache w (remove (cache w) k) in
  (w, reject promiseLibrary exception).

Definition createPromiseResolver (k : CacheKey) (hasMaxAge : bool)
  (maxAge : option Z) (promiseLibrary : PromiseLibrary)
  (resolvedValue : Js.value) (w : world) : world * Js.value :=
  let w := with_cache w
             (update (cache w) k (Resolved (resolve promiseLibrary resolvedValue))) in
  let w := if hasMaxAge then expireAfter w k maxAge else w in
  (w, resolvedValue).

(** *** Storing a new value *)

(** The eviction step shared by the two setters:
    [if (hasMaxSize && cache.size > maxSize)
       cache.remove(cache.list[cache.list.length - 1].key)]. *)
Definition evict (hasMaxSize : bool) (maxSize : option Z) (c : Cache) : Cache :=
  if hasMaxSize && (default 0%Z maxSize <? Z.of_nat (size c))%Z
  then match Cache.list c !! (length (Cache.list c) - 1) with
       | Some item => remove c (key item)
       | None => c
       end
  else c.

(** The setter [createSetNewCachedValue(cache, options)] returns; the
    creation throws when [isPromise] is set without a promise library,
    and the promise setter throws on a value without [then]. *)
Definition createSetNewCachedValue (options : Options)
  : completion (CacheKey -> computed -> world -> completion (world * cached)) :=
  let hasMaxAge := isFiniteAndPositiveInteger (maxAge options) in
  let hasMaxSize := isFiniteAndPositiveInteger (maxSize options) in
  if isPromise options then
    match promiseLibrary options with
    | None => TypeError
    | Some _ =>
        Normal (fun k value w =>
          match value with
          | Value _ => TypeError
          | Promise p =>
              let handler := Then p in
              let w := {| cache := cache w;
                          timers := timers w;
                          reactions := reactions w ++
                                       [ {| promise := p; reacts_for := k |} ] |} in
              let w := with_cache w (add (cache w) k handler) in
              let w := with_cache w (evict hasMaxSize (maxSize options) (cache w)) in
              Normal (w, handler)
          end)
    end
  else
    Normal (fun k value w =>
      let stored := match value with Value v => Plain v | Promise p => Pending p end in
      let w := with_cache w (add (cache w) k stored) in
      let w := if hasMaxAge then expireAfter w k (maxAge options) else w in
      let w := with_cache w (evict hasMaxSize (maxSize options) (cache w)) in
      Normal (w, stored)).

(** The same setter, created and called in one step. *)
Definition setNewCachedValue (options : Options) (k : CacheKey) (v : computed)
  (w : world) : completion (world * cached) :=
  setter ← createSetNewCachedValue options;
  setter k v w.

(** A run of calls that each store a new value. *)
Fixpoint setAll (options : Options) (calls : list (CacheKey * computed))
  (w : world) : completion world :=
  match calls with
  | [] => Normal w
  | (k, v) :: rest =>
      r ← setNewCachedValue options k v w;
      setAll options rest r.1
  end.

Definition empty_world : world :=
  {| cache := {| Cache.list := [] |}; timers := []; reactions := [] |}.

(** The promise of the pending reaction at index [i] settles; the
    reaction leaves the pending ones.  On success the resolver runs and
    the derived promise is fulfilled with what it returns; on failure
    the rejecter runs and the derived promise takes the state of the
    promise the rejecter returns.  The handlers use the promise library
    of the options.  [None] when there is no such reaction or no
    library. *)
Definition react (options : Options) (i : nat) (outcome : settled) (w : world)
  : option (world * settled) :=
  r ← reactions w !! i;
  promiseLibrary ← promiseLibrary options;
  let w := {| cache := cache w;
              timers := timers w;
              reactions := delete i (reactions w) |} in
  Some match outcome with
       | Fulfilled v =>
           let '(w, ret) :=
             createPromiseResolver (reacts_for r)
               (isFiniteAndPositiveInteger (maxAge options)) (maxAge options)
               promiseLibrary v w in
           (w, Fulfilled ret)
       | Rejected e => createPromiseRejecter (reacts_for r) promiseLibrary e w
       end.

(** The argument pipeline in the words of the spec: truncation to
    [maxArgs], then the user's transform, then serialization, each only
    when configured. *)
Definition spec_pipeline (options : Options) (k : list Js.value) : list Js.value :=
  let truncated :=
    if isFiniteAndPositiveInteger (maxArgs options)
    then firstn (Z.to_nat (default 0%Z (maxArgs options))) k
    else k in
  let transformed :=
    match transformArgs options with
    | Some transform => transform truncated
    | None => truncated
    end in
  if serialize options then
    match serializer options with
    | Some serializer => serializer transformed
    | None => transformed
    end
  else transformed.

(** Modelled from the spec: [matches] of the standard keys (their
    classes are not under [src/]).  A single parameter key matches by
    identity or [NaN]-aware equality on its one value, a multiple
    parameter key by pairwise equality over sequences of the same
    length. *)
Definition sameValue (a b : Js.value) : bool :=
  strict_eq a b || (negb (strict_eq a a) && negb (strict_eq b b)).

Fixpoint pairwise (a b : list Js.value) : bool :=
  match a, b with
  | [], [] => true
  | x :: a', y :: b' => sameValue x y && pairwise a' b'
  | _, _ => false
  end.

Definition spec_matches (k : CacheKey) (key : list Js.value)
  (isMultiParamKey : bool) : bool :=
  match class k with
  | SingleParameterCacheKey =>
      negb isMultiParamKey && sameValue (at_ (args k) 0) (at_ key 0)
  | MultipleParameterCacheKey => isMultiParamKey && pairwise (args k) key
  | SerializedCacheKey => false
  end.

(** Concrete data used in the examples. *)
Definition key_of (r : nat) (n : Z) : CacheKey :=
  {| ref := r; class := SingleParameterCacheKey; args := [VNum n] |}.

Definition item_of (r : nat) (n : Z) : ListItem :=
  {| key := key_of r n; value := Plain (VNum (n * n)) |}.

Definition cache_321 : Cache :=
  {| Cache.list := [item_of 3 30; item_of 2 20; item_of 1 10] |}.

Definition options_sized (n : Z) : Options :=
  {| isDeepEqual := false; isPromise := false; isReact := false;
     isSerialized := false; isShallowEqual := false; matchesArg := None;
     matchesKey := None; maxAge := None; maxArgs := None; maxSize := Some n;
     onExpire := None; profileName := None; serializer := None;
     transformArgs := None; updateExpire := false; equals := None;
     serialize := false; promiseLibrary := None |}.

Definition world_321 : world :=
  {| cache := cache_321;
     timers := [];
     reactions := [ {| promise := 0; reacts_for := key_of 2 20 |} ] |}.

Definition calls_123 : list (CacheKey * computed) :=
  [(key_of 1 1, Value (VNum 1)); (key_of 2 2, Value (VNum 2));
   (key_of 3 3, Value (VNum 3))].

Definition options_promise : Options :=
  {| isDeepEqual := false; isPromise := true; isReact := false;
     isSerialized := false; isShallowEqual := false; matchesArg := None;
     matchesKey := None; maxAge := Some 100%Z; maxArgs := None;
     maxSize := Some 3%Z; onExpire := None; profileName := None;
     serializer := None; transformArgs := None; updateExpire := false;
     equals := None; serialize := false; promiseLibrary := Some nativePromise |}.

Definition options_pipeline : Options :=
  {| isDeepEqual := false; isPromise := false; isReact := false;
     isSerialized := false; isShallowEqual := false; matchesArg := None;
     matchesKey := None; maxAge := None; maxArgs := Some 2%Z; maxSize := Some 1%Z;
     onExpire := None; profileName := None;
     serializer := Some (fun k => [VStr (String.concat "|" (ToString <$> k))]);
     transformArgs := Some (@rev Js.value); updateExpire := false; equals := None;
     serialize := true; promiseLibrary := None |}.

End Utils.

(** ** src/unnamed/part_000 *)
Module Part000.

(** *** Array helpers *)

(** [splice(array, index)]: entries after [index] move one place down
    and the length drops by one; an index past the end drops the last
    entry; an empty array is returned as is. *)
Definition splice {A} (array : list A) (index : nat) : list A :=
  if length array =? 0 then array
  else if index <? length array
       then firstn index array ++ drop (S index) array
       else firstn (length array - 1) array.

Definition unshift {A} (array : list A) (item : A) : list A := item :: array.

Definition isComplexObject (object : Js.value) : bool :=
  match object with
  | VObj _ => true
  | _ => false
  end.

(** [value1 === value2 || (value1 !== value1 && value2 !== value2)] *)
Definition isEqual (value1 value2 : Js.value) : bool :=
  strict_eq value1 value2 ||
  (negb (strict_eq value1 value1) && negb (strict_eq value2 value2)).

(** [array.indexOf(key)] from [index] on: strict equality, [-1] when
    absent. *)
Fixpoint indexOf_from (array : list Js.value) (index : nat) (k : Js.value) : Z :=
  match array with
  | [] => (-1)%Z
  | x :: rest =>
      if strict_eq x k then Z.of_nat index else indexOf_from rest (S index) k
  end.

Definition indexOf (array : list Js.value) (k : Js.value) : Z :=
  indexOf_from array 0 k.

(** *** The cache of a memoized function and its usage order *)

(** [fn.cache] is a [Map] (its keys are compared with SameValueZero,
    which on the values here is equality) and [fn.usage] the array of
    keys, most recently used first. *)
Record Fn := {
  cache : gmap Js.value computed;
  usage : list Js.value
}.

Definition deleteItemFromCache (fn : Fn) (k : Js.value) : Fn :=
  let index := indexOf (usage fn) k in
  if negb (index =? -1)%Z
  then {| cache := delete k (cache fn);
          usage := splice (usage fn) (Z.to_nat index) |}
  else fn.

(** A pending one-shot timer: its delay and the key its callback
    passes to [deleteItemFromCache]. *)
Record timer := { delay : Z; expires : Js.value }.

(** A pending [then] on promise [promise], whose callback sets the
    value of [reacts_for]. *)
Record reaction := { promise : nat; reacts_for : Js.value }.

(** The memoized function with the timers and promise reactions that
    are still pending.  The timer callbacks hold [fn.cache] and
    [fn.usage] themselves; none of the functions here replaces them
    ([fn.clear], which gives [fn.usage] a new array, is in [Moized]
    below, where a timer keeps the array it was set with). *)
Record world := {
  fn : Fn;
  timers : list timer;
  reactions : list reaction
}.

Definition with_fn (w : world) (f : Fn) : world :=
  {| fn := f; timers := timers w; reactions := reactions w |}.

Definition setExpirationOfCache (w : world) (k : Js.value) (maxAge : Z) : world :=
  let expirationTime := Z.max maxAge 0 in
  {| fn := fn w;
     timers := timers w ++ [ {| delay := expirationTime; expires := k |} ];
     reactions := reactions w |}.

(** The pending timer at index [i] fires: it is one-shot, so it leaves
    the pending timers, and its callback runs. *)
Definition fire (i : nat) (w : world) : world :=
  match timers w !! i with
  | Some t => {| fn := deleteItemFromCache (fn w) (expires t);
                 timers := delete i (timers w);
                 reactions := reactions w |}
  | None => w
  end.

(** [value.then] does not exist on a plain value. *)
Definition setNewCachedValue (w : world) (k : Js.value) (value : computed)
  (isPromise isMaxAgeFinite : bool) (maxAge : Z) : completion (world * computed) :=
  w ← (if isPromise then
         match value with
         | Promise p =>
             Normal {| fn := fn w;
                       timers := timers w;
                       reactions := reactions w ++
                                    [ {| promise := p; reacts_for := k |} ] |}
         | Value _ => TypeError
         end
       else
         Normal (with_fn w {| cache := <[k := value]> (cache (fn w));
                              usage := usage (fn w) |}));
  let w := if isMaxAgeFinite then setExpirationOfCache w k maxAge else w in
  Normal (w, value).

(** The promise of the pending reaction at index [i] is fulfilled: the
    reaction leaves the pending ones and its callback
    [(resolvedValue) => fn.cache.set(key, resolvedValue)] runs. *)
Definition fulfil (i : nat) (resolvedValue : Js.value) (w : world) : world :=
  match reactions w !! i with
  | Some r =>
      {| fn := {| cache := <[reacts_for r := Value resolvedValue]> (cache (fn w));
                  usage := usage (fn w) |};
         timers := timers w;
         reactions := delete i (reactions w) |}
  | None => w
  end.

Definition setUsageOrder (f : Fn) (k : Js.value) (maxSize : Z) : Fn :=
  let index := indexOf (usage f) k in
  if negb (index =? 0)%Z then
    let usage1 :=
      if negb (index =? -1)%Z then splice (usage f) (Z.to_nat index)
      else usage f in
    let usage2 := unshift usage1 k in
    let f := {| cache := cache f; usage := usage2 |} in
    if (maxSize <? Z.of_nat (length usage2))%Z
    then match usage2 !! (length usage2 - 1) with
         | Some tail => deleteItemFromCache f tail
         | None => f
         end
    else f
  else f.

(** [fn.delete(key)] *)
Definition fn_delete (k : Js.value) (w : world) : world :=
  with_fn w (deleteItemFromCache (fn w) k).

Definition empty_world : world :=
  {| fn := {| cache := ∅; usage := [] |}; timers := []; reactions := [] |}.

(** *** Serialization *)

(** A heap object: an array, a plain object, or an instance of one of
    the classes [decycle] leaves alone, with the own enumerable
    properties it was given. *)
Inductive boxed := BooleanObject | DateObject | NumberObject | RegExpObject | StringObject.

Inductive obj :=
  | OArray (elems : list Js.value)
  | OPlain (props : jsobject)
  | OBoxed (c : boxed) (props : jsobject).

Definition heap := list obj.

(** The object a reference points to; a reference outside the heap
    reads as an empty plain object. *)
Definition heap_get (h : heap) (r : nat) : obj := default (OPlain []) (h !! r).

#[local] Set Warnings "-register-all".

(** Data without sharing, as [decycle] builds it and as [JSON.stringify]
    walks it: values kept as they are, new arrays and new objects. *)
Inductive json :=
  | JValue (v : Js.value)
  | JArray (elems : list json)
  | JObject (props : list (string * json)).

(** [value instanceof Boolean || ... || value instanceof String] *)
Definition isBoxed (h : heap) (value : Js.value) : bool :=
  match value with
  | VObj r => match heap_get h r with OBoxed _ _ => true | _ => false end
  | _ => false
  end.

(** What [JSON.stringify] goes through in an object: the elements of an
    array, the own properties of an object, and an instance of [RegExp]
    is an object like any other to it.  An instance of [Boolean],
    [Number] or [String] is written as the primitive it holds and a
    [Date] as the string of its [toJSON], whatever properties they
    have. *)
Inductive content :=
  | Elements (elems : list Js.value)
  | Properties (props : jsobject)
  | Written.

Definition content_of (o : obj) : content :=
  match o with
  | OArray elems => Elements elems
  | OPlain props => Properties props
  | OBoxed RegExpObject props => Properties props
  | OBoxed _ _ => Written
  end.

(** The state [derez] closes over. *)
Record seen := { objects : list Js.value; paths : list string }.

(** The loop [while (++index < objects.length)] of [derez]: the first
    index at which [objects] holds [value]. *)
Fixpoint seen_index (objects : list Js.value) (index : nat) (value : Js.value)
  : option nat :=
  match objects with
  | [] => None
  | o :: rest =>
      if strict_eq o value then Some index else seen_index rest (S index) value
  end.

(** [objects.push(value); paths.push(path)] *)
Definition push (st : seen) (value : Js.value) (path : string) : seen :=
  {| objects := objects st ++ [value]; paths := paths st ++ [path] |}.

(** A walk over the items of a list that stops at the first item that
    throws. *)
Section walk_each.
Context {A B : Type} (rec : A -> option (completion B)).

Fixpoint walk_each (items : list A) : option (completion (list B)) :=
  match items with
  | [] => Some (Normal [])
  | item :: rest =>
      x ← rec item;
      match x with
      | TypeError => Some TypeError
      | Normal x =>
          xs ← walk_each rest;
          Some (xs ← xs; Normal (x :: xs))
      end
  end.

End walk_each.

Section stringify.
(** [JSON.stringify] on data without sharing: the string it returns, or
    [None] when it returns [undefined]. *)
Variable text : heap -> json -> option string.

Definition written (h : heap) (t : json) : Js.value :=
  match text h t with
  | Some s => VStr s
  | None => VUndefined
  end.

(** The path of the element at [index] and of the property [name]:
    [`${path}[${index}]`] and [`${path}[${JSON.stringify(name)}]`]. *)
Definition element_path (path : string) (index : nat) : string :=
  path +:+ "[" +:+ pretty index +:+ "]".

Definition property_path (h : heap) (path name : string) : string :=
  path +:+ "[" +:+ ToString (written h (JValue (VStr name))) +:+ "]".

(** The array loop of [derez], with [rec] the recursive call. *)
Fixpoint derez_array (rec : Js.value -> string -> seen -> option (json * seen))
  (elems : list Js.value) (path : string) (index : nat) (st : seen)
  : option (list json * seen) :=
  match elems with
  | [] => Some ([], st)
  | e :: rest =>
      '(x, st) ← rec e (element_path path index) st;
      '(xs, st) ← derez_array rec rest path (S index) st;
      Some (x :: xs, st)
  end.

(** The [forEach] over the keys of an object in [derez]. *)
Fixpoint derez_props (h : heap)
  (rec : Js.value -> string -> seen -> option (json * seen))
  (props : jsobject) (path : string) (st : seen)
  : option (list (string * json) * seen) :=
  match props with
  | [] => Some ([], st)
  | (name, v) :: rest =>
      '(x, st) ← rec v (property_path h path name) st;
      '(xs, st) ← derez_props h rec rest path st;
      Some ((name, x) :: xs, st)
  end.

(** [derez(value, path)]; [fuel] bounds the depth of nested calls and
    [None] means that it ran out. *)
Fixpoint derez (fuel : nat) (h : heap) (value : Js.value) (path : string)
  (st : seen) : option (json * seen) :=
  if isComplexObject value && negb (isBoxed h value) then
    match seen_index (objects st) 0 value with
    | Some index =>
        Some (JObject [("$ref", JValue (VStr (default "" (paths st !! index))))], st)
    | None =>
        match fuel with
        | 0 => None
        | S fuel =>
            let st := push st value path in
            match value with
            | VObj r =>
                match heap_get h r with
                | OArray elems =>
                    '(array, st) ← derez_array (derez fuel h) elems path 0 st;
                    Some (JArray array, st)
                | OPlain props =>
                    '(object, st) ← derez_props h (derez fuel h) props path st;
                    Some (JObject object, st)
                | OBoxed _ _ => Some (JValue value, st)
                end
            | _ => Some (JValue value, st)
            end
        end
    end
  else Some (JValue value, st).

Definition decycle (fuel : nat) (h : heap) (object : Js.value) : option json :=
  fst <$> derez fuel h object "$" {| objects := []; paths := [] |}.



(** The walk of [JSON.stringify] over a value: [TypeError] when an
    object is reached again below itself. *)
Fixpoint walk_array (rec : Js.value -> option (completion json))
  (elems : list Js.value) : option (completion (list json)) :=
  match elems with
  | [] => Some (Normal [])
  | e :: rest =>
      x ← rec e;
      match x with
      | TypeError => Some TypeError
      | Normal x =>
          xs ← walk_array rec rest;
          Some (xs ← xs; Normal (x :: xs))
      end
  end.

Fixpoint walk_props (rec : Js.value -> option (completion json))
  (props : jsobject) : option (completion (list (string * json))) :=
  match props with
  | [] => Some (Normal [])
  | (name, v) :: rest =>
      x ← rec v;
      match x with
      | TypeError => Some TypeError
      | Normal x =>
          xs ← walk_props rec rest;
          Some (xs ← xs; Normal ((name, x) :: xs))
      end
  end.

Fixpoint walk (fuel : nat) (h : heap) (stack : list nat) (value : Js.value)
  : option (completion json) :=
  match value with
  | VObj r =>
      match content_of (heap_get h r) with
      | Written => Some (Normal (JValue value))
      | inside =>
          if bool_decide (r ∈ stack) then Some TypeError
          else match fuel with
               | 0 => None
               | S fuel =>
                   match inside with
                   | Elements elems =>
                       xs ← walk_array (walk fuel h (r :: stack)) elems;
                       Some (xs ← xs; Normal (JArray xs))
                   | Properties props =>
                       xs ← walk_props (walk fuel h (r :: stack)) props;
                       Some (xs ← xs; Normal (JObject xs))
                   | Written => Some (Normal (JValue value))
                   end
               end
      end
  | _ => Some (Normal (JValue value))
  end.

(** The walk of [JSON.stringify] over what [decycle] returns: the
    arrays and objects [decycle] has built are new, so that none of them
    is reached below itself; the values it has kept are walked as
    above. *)
Fixpoint walk_data (fuel : nat) (h : heap) (t : json) : option (completion json) :=
  match t with
  | JValue v => walk fuel h [] v
  | JArray elems =>
      xs ← walk_each (walk_data fuel h) elems;
      Some (xs ← xs; Normal (JArray xs))
  | JObject props =>
      xs ← walk_each (fun p : string * json =>
                        x ← walk_data fuel h p.2;
                        Some (x ← x; Normal (p.1, x))) props;
      Some (xs ← xs; Normal (JObject xs))
  end.

(** [JSON.stringify(value)] on a value of the heap. *)
Definition jsonStringify (fuel : nat) (h : heap) (value : Js.value)
  : option (completion Js.value) :=
  t ← walk fuel h [] value;
  Some (t ← t; Normal (written h t)).

(** [JSON.stringify(decycle(value))], on what [decycle] has returned. *)
Definition jsonStringify_data (fuel : nat) (h : heap) (t : json)
  : option (completion Js.value) :=
  t ← walk_data fuel h t;
  Some (t ← t; Normal (written h t)).

(** [stringify(value)]: the [catch] branch stringifies the decycled
    value, and what that throws is not caught. *)
Definition stringify (fuel : nat) (h : heap) (value : Js.value)
  : option (completion Js.value) :=
  r ← jsonStringify fuel h value;
  match r with
  | Normal s => Some (Normal s)
  | TypeError => t ← decycle fuel h value; jsonStringify_data fuel h t
  end.

Definition getStringifiedArgument (fuel : nat) (h : heap) (arg : Js.value)
  : option (completion Js.value) :=
  if isComplexObject arg then stringify fuel h arg else Some (Normal arg).

(** The loop of [serializeArguments] over [args[index..]]. *)
Fixpoint serializeArguments_loop (fuel : nat) (h : heap) (args : list Js.value)
  (k : string) : option (completion string) :=
  match args with
  | [] => Some (Normal k)
  | arg :: rest =>
      s ← getStringifiedArgument fuel h arg;
      match s with
      | Normal s => serializeArguments_loop fuel h rest (k +:+ ToString s +:+ "|")
      | TypeError => Some TypeError
      end
  end.

Definition serializeArguments (fuel : nat) (h : heap) (args : list Js.value)
  : option (completion string) :=
  serializeArguments_loop fuel h args "|".

End stringify.

(** [getCacheKey(args, serializer)] *)
Definition getCacheKey (args : list Js.value)
  (serializer : list Js.value -> option (completion Js.value))
  : option (completion Js.value) :=
  if length args =? 1 then Some (Normal (nth 0 args VUndefined))
  else serializer args.







(** Concrete data used in the examples. *)

(** A stand-in for the text of [JSON.stringify], used in examples only:
    it writes a string between quotes, without escapes, and a number,
    a boolean and [null] as they are, and for the rest it tells apart
    the shapes of data and nothing more. *)
Definition quote : string := String (Ascii.ascii_of_nat 34) "".

Definition sample_text (h : heap) (t : json) : option string :=
  match t with
  | JValue VUndefined => None
  | JValue VNaN => Some "null"
  | JValue (VStr s) => Some (quote +:+ s +:+ quote)
  | JValue (VObj _) => Some "{...}"
  | JValue v => Some (ToString v)
  | JArray _ => Some "[...]"
  | JObject _ => Some "{...}"
  end.




(** A key and the timer that expires it after 100 ms. *)
Definition key_a : Js.value := VStr "a".
Definition timer_a : timer := {| delay := 100; expires := key_a |}.

(** The scenario of a promise stored with a finite [maxAge] whose timer
    runs before the promise settles. *)
Definition world_pending : world :=
  let w := with_fn empty_world (setUsageOrder (fn empty_world) key_a 10) in
  match setNewCachedValue w key_a (Promise 0) true true 100 with
  | Normal (w, _) => w
  | TypeError => w
  end.
Definition world_expired_early : world := fire 0 world_pending.
Definition world_settled_late : world := fulfil 0 (VNum 7) world_expired_early.

End Part000.

(** ** src/unnamed/part_001: call statistics *)
Module Stats.

Record StatsProfile := { calls : nat; hits : nat }.

(** [statsCache]; [profiles] is an object used as a map from profile
    names to profiles: the map holds its own properties. *)
Record StatsCache := {
  anonymousProfileNameCounter : nat;
  isCollectingStats : bool;
  profiles : gmap string StatsProfile
}.

(** [profiles] is created by [{}], so that [profiles[name]] also finds
    the members of [Object.prototype]: functions, and [Object.prototype]
    itself under [__proto__], all of them truthy. *)
Definition prototype_names : list string :=
  ["constructor"; "hasOwnProperty"; "isPrototypeOf"; "propertyIsEnumerable";
   "toLocaleString"; "toString"; "valueOf"; "__proto__"; "__defineGetter__";
   "__defineSetter__"; "__lookupGetter__"; "__lookupSetter__"].

Definition inherited (name : string) : bool :=
  bool_decide (name ∈ prototype_names).

(** What the handlers have written to such a member: [calls], or
    [calls] and [hits].  The member had neither, so that [++] stores
    [NaN]. *)
Inductive written := Calls | CallsAndHits.

(** The state of the module: [statsCache], [hasWarningDisplayed], what
    [console.warn] has printed, and the members of [Object.prototype]
    the handlers have written to. *)
Record state := {
  statsCache : StatsCache;
  hasWarningDisplayed : bool;
  console : list string;
  prototype : gmap string written
}.

Definition initial : state :=
  {| statsCache := {| anonymousProfileNameCounter := 1;
                      isCollectingStats := false;
                      profiles := ∅ |};
     hasWarningDisplayed := false;
     console := [];
     prototype := ∅ |}.

(** [!!profileName]: a name that is not [undefined] and not empty. *)
Definition truthy (profileName : option string) : bool :=
  match profileName with
  | Some s => negb (String.eqb s "")
  | None => false
  end.

(** The property [profiles[profileName]] reads: [undefined] names the
    property ["undefined"]. *)
Definition property (profileName : option string) : string :=
  default "undefined" profileName.

Definition with_profiles (st : state) (ps : gmap string StatsProfile) : state :=
  {| statsCache :=
       {| anonymousProfileNameCounter := anonymousProfileNameCounter (statsCache st);
          isCollectingStats := isCollectingStats (statsCache st);
          profiles := ps |};
     hasWarningDisplayed := hasWarningDisplayed st;
     console := console st;
     prototype := prototype st |}.

Definition with_prototype (st : state) (ws : gmap string written) : state :=
  {| statsCache := statsCache st;
     hasWarningDisplayed := hasWarningDisplayed st;
     console := console st;
     prototype := ws |}.

(** What [profiles[name]] evaluates to: an own profile, a member of
    [Object.prototype], or [undefined]. *)
Inductive slot :=
  | Own (profile : StatsProfile)
  | Inherited (w : option written)
  | Absent.

Definition get (st : state) (name : string) : slot :=
  match profiles (statsCache st) !! name with
  | Some profile => Own profile
  | None => if inherited name then Inherited (prototype st !! name) else Absent
  end.

(** [!profiles[name]] *)
Definition missing (s : slot) : bool :=
  match s with Absent => true | _ => false end.

Definition clearStats (profileName : option string) (st : state) : state :=
  if truthy profileName
  then with_profiles st (delete (property profileName) (profiles (statsCache st)))
  else with_profiles st ∅.

(** [collectStats(isCollectingStats = true)] *)
Definition collectStats (isCollectingStats : option bool) (st : state) : state :=
  {| statsCache :=
       {| anonymousProfileNameCounter := anonymousProfileNameCounter (statsCache st);
          isCollectingStats := default true isCollectingStats;
          profiles := profiles (statsCache st) |};
     hasWarningDisplayed := hasWarningDisplayed st;
     console := console st;
     prototype := prototype st |}.

Definition zero : StatsProfile := {| calls := 0; hits := 0 |}.

(** The function [createOnCacheAddIncrementCalls(options)] returns.
    Reading [calls] of [undefined] throws, before anything is written;
    on a member of [Object.prototype] [calls++] stores [NaN] in that
    member. *)
Definition createOnCacheAddIncrementCalls (options : Options) (st : state)
  : completion state :=
  let profileName := profileName options in
  let st :=
    if truthy profileName && missing (get st (property profileName))
    then with_profiles st (<[property profileName := zero]> (profiles (statsCache st)))
    else st in
  match get st (property profileName) with
  | Own profile =>
      Normal (with_profiles st
                (<[property profileName :=
                     {| calls := S (calls profile); hits := hits profile |}]>
                   (profiles (statsCache st))))
  | Inherited w =>
      Normal (with_prototype st
                (<[property profileName := default Calls w]> (prototype st)))
  | Absent => TypeError
  end.

(** The function [createOnCacheHitIncrementCallsAndHits(options)]
    returns. *)
Definition createOnCacheHitIncrementCallsAndHits (options : Options) (st : state)
  : state :=
  let profileName := profileName options in
  let st :=
    if missing (get st (property profileName))
    then with_profiles st (<[property profileName := zero]> (profiles (statsCache st)))
    else st in
  match get st (property profileName) with
  | Own profile =>
      with_profiles st
        (<[property profileName :=
             {| calls := S (calls profile); hits := S (hits profile) |}]>
           (profiles (statsCache st)))
  | Inherited _ =>
      with_prototype st (<[property profileName := CallsAndHits]> (prototype st))
  | Absent => st
  end.

#[local] Set Warnings "-register-all".

(** What [getStats] returns: [calls], [hits], [usage] and, for the
    complete statistics, the object [profiles].  [Spread_ w usage] is
    [{...member, usage}] for a member of [Object.prototype]: [calls]
    and [hits] are there, and [NaN], when they were written. *)
Inductive GlobalStatsObject :=
  | Stats_ (calls hits : nat) (usage : string)
           (profiles : option (gmap string GlobalStatsObject))
  | Spread_ (w : option written) (usage : string).

Definition stats_calls (s : GlobalStatsObject) : option nat :=
  match s with Stats_ c _ _ _ => Some c | Spread_ _ _ => None end.
Definition stats_hits (s : GlobalStatsObject) : option nat :=
  match s with Stats_ _ h _ _ => Some h | Spread_ _ _ => None end.
Definition stats_usage (s : GlobalStatsObject) : string :=
  match s with Stats_ _ _ u _ => u | Spread_ _ u => u end.
Definition stats_profiles (s : GlobalStatsObject)
  : option (gmap string GlobalStatsObject) :=
  match s with Stats_ _ _ _ ps => ps | Spread_ _ _ => None end.

(** The warning [getStats] prints. *)
Definition warning : string :=
  "Stats are not currently being collected, please run " +:+
  String (Ascii.ascii_of_nat 34) "collectStats" +:+
  String (Ascii.ascii_of_nat 34) " to enable them.".

(** The first statement of [getStats]: the warning is printed when
    statistics are not being collected and it has not been printed
    before. *)
Definition warn (st : state) : state :=
  if negb (isCollectingStats (statsCache st)) && negb (hasWarningDisplayed st)
  then {| statsCache := statsCache st;
          hasWarningDisplayed := true;
          console := console st ++ [warning];
          prototype := prototype st |}
  else st.

(** The first reduction of [getStats]: the sums of [calls] and [hits]
    over the profiles. *)
Definition completeStats (ps : list (string * StatsProfile)) : StatsProfile :=
  foldl (fun completeProfiles np =>
           {| calls := calls completeProfiles + calls np.2;
              hits := hits completeProfiles + hits np.2 |})
        zero ps.

Section getStats.
(** The text of [((hits / calls) * 100).toFixed(4)], a floating point
    computation, for [calls] other than 0. *)
Variable toFixed4 : nat -> nat -> string.

Definition getUsagePercentage (calls hits : nat) : string :=
  if negb (calls =? 0) then toFixed4 calls hits +:+ "%" else "0.0000%".

(** The second reduction of [getStats] over the names still to visit,
    with [rec] the recursive call [getStats(profileName)] and
    [computed] the accumulator. *)
Fixpoint computedProfiles (rec : option string -> state -> option (GlobalStatsObject * state))
  (names : list string) (computed : gmap string GlobalStatsObject) (st : state)
  : option (gmap string GlobalStatsObject * state) :=
  match names with
  | [] => Some (computed, st)
  | name :: rest =>
      '(s, st) ← rec (Some name) st;
      computedProfiles rec rest (<[name := s]> computed) st
  end.

(** [getStats(profileName)]; [fuel] bounds the depth of nested calls
    and [None] means that it ran out. *)
Fixpoint getStats (fuel : nat) (profileName : option string) (st : state)
  : option (GlobalStatsObject * state) :=
  match fuel with
  | 0 => None
  | S fuel =>
      let st := warn st in
      let ps := profiles (statsCache st) in
      if truthy profileName then
        match get st (property profileName) with
        | Absent => Some (Stats_ 0 0 "0.0000%" None, st)
        | Own profile =>
            Some (Stats_ (calls profile) (hits profile)
                         (getUsagePercentage (calls profile) (hits profile)) None,
                  st)
        | Inherited w => Some (Spread_ w "0.0000%", st)
        end
      else
        let total := completeStats (map_to_list ps) in
        '(computed, st) ← computedProfiles (getStats fuel) (map_to_list ps).*1 ∅ st;
        Some (Stats_ (calls total) (hits total)
                     (getUsagePercentage (calls total) (hits total))
                     (Some computed),
              st)
  end.

End getStats.

(** [getStatsOptions(options)]: the two handlers when statistics are
    being collected, nothing otherwise. *)
Definition getStatsOptions (options : Options) (st : state)
  : option ((state -> completion state) * (state -> state)) :=
  if isCollectingStats (statsCache st)
  then Some (createOnCacheAddIncrementCalls options,
             createOnCacheHitIncrementCallsAndHits options)
  else None.

(** What can happen to the statistics, one after the other; a handler
    that throws leaves them as they were. *)
Inductive event :=
  | CacheAdd (options : Options)
  | CacheHit (options : Options)
  | ClearStats (profileName : option string)
  | CollectStats (isCollectingStats : option bool).

Definition step (st : state) (e : event) : state :=
  match e with
  | CacheAdd options =>
      match createOnCacheAddIncrementCalls options st with
      | Normal st' => st'
      | TypeError => st
      end
  | CacheHit options => createOnCacheHitIncrementCallsAndHits options st
  | ClearStats profileName => clearStats profileName st
  | CollectStats b => collectStats b st
  end.

Definition run (events : list event) (st : state) : state := foldl step st events.

(** One memoized function with options [options]: [true] is a call that
    hits the cache, [false] one that adds to it. *)
Definition run_calls (options : Options) (calls : list bool) (st : state) : state :=
  run ((fun hit : bool => if hit then CacheHit options else CacheAdd options) <$> calls) st.

(** A profile after one more call, a hit or not. *)
Definition bump (hit : bool) (p : StatsProfile) : StatsProfile :=
  {| calls := S (calls p); hits := if hit then S (hits p) else hits p |}.

(** The invariant of the counters. *)
Definition counted (st : state) : Prop :=
  forall name profile,
    profiles (statsCache st) !! name = Some profile -> hits profile <= calls profile.

(** Options that differ from the defaults in the profile name only. *)
Definition options_named (name : option string) : Options :=
  {| isDeepEqual := false; isPromise := false; isReact := false;
     isSerialized := false; isShallowEqual := false; matchesArg := None;
     matchesKey := None; maxAge := None; maxArgs := None; maxSize := Some 1%Z;
     onExpire := None; profileName := name; serializer := None;
     transformArgs := None; updateExpire := false; equals := None;
     serialize := false; promiseLibrary := None |}.

(** A state in which [getStats] prints nothing. *)
Definition quiet (st : state) : Prop :=
  isCollectingStats (statsCache st) || hasWarningDisplayed st = true.

(** The entry [getStats(name)] returns for a profile. *)
Definition entry (toFixed4 : nat -> nat -> string) (profile : option StatsProfile)
  : GlobalStatsObject :=
  match profile with
  | Some profile =>
      Stats_ (calls profile) (hits profile)
             (getUsagePercentage toFixed4 (calls profile) (hits profile)) None
  | None => Stats_ 0 0 "0.0000%" None
  end.

(** A stand-in for the text of [toFixed(4)], used in examples only. *)
Definition sample_toFixed4 (calls hits : nat) : string :=
  pretty hits +:+ "/" +:+ pretty calls.

End Stats.

(** ** The array loops of src/unnamed/part_000 and src/src/utils.js,
    statement by statement *)
Module Loops.

(** [array[i]]: [undefined] past the end. *)
Definition get (array : list Js.value) (i : nat) : Js.value :=
  default VUndefined (array !! i).

(** [array[i] = v]: a write past the end extends the array; the holes
    it leaves read as [undefined]. *)
Definition set (array : list Js.value) (i : nat) (v : Js.value) : list Js.value :=
  if i <? length array then <[i := v]> array
  else array ++ replicate (i - length array) VUndefined ++ [v].

(** [array.length = n] *)
Definition set_length (array : list Js.value) (n : nat) : list Js.value :=
  if n <=? length array then firstn n array
  else array ++ replicate (n - length array) VUndefined.

(** part_000, [while (index < length) { array[index] = array[index + 1];
    index++; }]; [None] when [fuel] iterations were not enough. *)
Fixpoint splice_while (fuel : nat) (array : list Js.value) (index length : nat)
  : option (list Js.value) :=
  if index <? length then
    match fuel with
    | 0 => None
    | S fuel => splice_while fuel (set array index (get array (index + 1)))
                             (index + 1) length
    end
  else Some array.

(** [splice(array, index)] of part_000 *)
Definition splice (fuel : nat) (array : list Js.value) (index : nat)
  : option (list Js.value) :=
  let length := length array in
  if length =? 0 then Some array
  else array ← splice_while fuel array index length;
       Some (set_length array (length - 1)).

(** part_000, [while (length) { array[length] = array[length - 1];
    length--; }]: the recursion is on [length]. *)
Fixpoint unshift_while (array : list Js.value) (length : nat) : list Js.value :=
  match length with
  | 0 => array
  | S length' => unshift_while (set array length (get array (length - 1))) length'
  end.

(** [unshift(array, item)] of part_000 *)
Definition unshift (array : list Js.value) (item : Js.value) : list Js.value :=
  let array := unshift_while array (length array) in
  set array 0 item.

(** utils.js, [while (++index < array.length) { array[index] =
    array[index + 1]; }], entered with [index] already incremented. *)
Fixpoint utils_splice_while (fuel : nat) (array : list Js.value) (index : nat)
  : option (list Js.value) :=
  if index <? length array then
    match fuel with
    | 0 => None
    | S fuel => utils_splice_while fuel (set array index (get array (index + 1)))
                                   (index + 1)
    end
  else Some array.

(** [splice(array, startingIndex)] of utils.js: [index] starts at
    [startingIndex - 1] and is incremented before the first test. *)
Definition utils_splice (fuel : nat) (array : list Js.value) (startingIndex : nat)
  : option (list Js.value) :=
  if length array =? 0 then Some array
  else array ← utils_splice_while fuel array startingIndex;
       Some (set_length array (length array - 1)).

(** utils.js, [while (index--) { array[index + 1] = array[index]; }]:
    the body runs with [index] already decremented. *)
Fixpoint utils_unshift_while (array : list Js.value) (index : nat) : list Js.value :=
  match index with
  | 0 => array
  | S index' => utils_unshift_while (set array (index' + 1) (get array index')) index'
  end.

(** [unshift(array, item)] of utils.js: the array after the call and
    the value returned, [array[0] = item]. *)
Definition utils_unshift (array : list Js.value) (item : Js.value)
  : list Js.value * Js.value :=
  let array := utils_unshift_while array (length array) in
  (set array 0 item, item).

End Loops.

(** ** The usage order of src/unnamed/part_000 *)
Module Usage.
Import Part000.

(** The usage order holds no key twice and no [NaN], and every key of
    the cache is in it. *)
Definition tracked (f : Fn) : Prop :=
  NoDup (usage f) /\ (VNaN ∉ usage f) /\
  forall k, is_Some (cache f !! k) -> k ∈ usage f.

(** The same, with at most [maxSize] keys in the usage order. *)
Definition bounded (maxSize : Z) (f : Fn) : Prop :=
  tracked f /\ (Z.of_nat (length (usage f)) <= maxSize)%Z.

(** How many entries of the usage order are [NaN]. *)
Definition count_NaN (array : list Js.value) : nat :=
  length (filter (fun x => x = VNaN) array).

(** [n] calls of [setUsageOrder(fn, key, maxSize)]. *)
Definition setUsageOrder_times (n : nat) (k : Js.value) (maxSize : Z) (f : Fn) : Fn :=
  Nat.iter n (fun f => setUsageOrder f k maxSize) f.

(** A usage order and cache of three keys. *)
Definition fn_abc : Fn :=
  {| cache := <[VStr "a" := Value (VNum 1)]>
                (<[VStr "b" := Value (VNum 2)]>
                   (<[VStr "c" := Value (VNum 3)]> ∅));
     usage := [VStr "a"; VStr "b"; VStr "c"] |}.

End Usage.

(** ** The text of serialized keys of src/unnamed/part_000 *)
Module Serialized.

(** Each argument followed by the delimiter. *)
Fixpoint delimited (args : list Js.value) : string :=
  match args with
  | [] => ""
  | arg :: rest => ToString arg +:+ "|" +:+ delimited rest
  end.

(** An argument that [serializeArguments] interpolates as it is, and
    whose text is the one of [ToString]: not an object, and a number
    only when it is a safe integer. *)
Definition interpolated (arg : Js.value) : bool :=
  match arg with
  | VObj _ => false
  | VNum n => isSafeInteger n
  | _ => true
  end.

(** The serializer [getCacheKey] of part_000 is called with. *)
Definition serializer (text : Part000.heap -> Part000.json -> option string)
  (fuel : nat) (h : Part000.heap) (args : list Js.value)
  : option (completion Js.value) :=
  s ← Part000.serializeArguments text fuel h args;
  Some (s ← s; Normal (VStr s)).

End Serialized.

(** ** src/unnamed/part_000: the memoized function with [clear]

    [fn.clear] gives [fn.usage] a new array, while a timer callback
    keeps the array that [setExpirationOfCache] read from [fn]; so the
    arrays are kept in a store, by the order of their creation. *)
Module Moized.

(** A pending timer: its delay, the key, and the array that was
    [fn.usage] when it was set.  [fn.cache] is one [Map] throughout. *)
Record pending := { delay : Z; expires : Js.value; usage_of : nat }.

(** A pending [then] whose callback sets the value of [reacts_for]. *)
Record reaction := { promise : nat; reacts_for : Js.value }.

Record store := {
  map : gmap Js.value computed;
  arrays : list (list Js.value);
  current : nat;
  timers : list pending;
  reactions : list reaction
}.

(** [fn.usage] *)
Definition usage_now (s : store) : list Js.value :=
  default [] (arrays s !! current s).

(** [fn.cache] with the array [a], as the functions of part_000 take
    them. *)
Definition as_fn (s : store) (a : nat) : Part000.Fn :=
  {| Part000.cache := map s; Part000.usage := default [] (arrays s !! a) |}.

(** What such a function did to the [Map] and to the array [a]. *)
Definition put (s : store) (a : nat) (f : Part000.Fn) : store :=
  {| map := Part000.cache f;
     arrays := <[a := Part000.usage f]> (arrays s);
     current := current s;
     timers := timers s;
     reactions := reactions s |}.

(** [getFunctionWithCacheAdded(fn, cache)]: [fn.cache = cache;
    fn.usage = []]. *)
Definition getFunctionWithCacheAdded (cache : gmap Js.value computed) : store :=
  {| map := cache; arrays := [[]]; current := 0; timers := []; reactions := [] |}.

(** [fn.clear()]: [fn.cache.clear(); fn.usage = []]. *)
Definition clear (s : store) : store :=
  {| map := ∅;
     arrays := arrays s ++ [[]];
     current := length (arrays s);
     timers := timers s;
     reactions := reactions s |}.

(** [fn.delete(key)] *)
Definition delete_ (k : Js.value) (s : store) : store :=
  put s (current s) (Part000.deleteItemFromCache (as_fn s (current s)) k).

Definition setExpirationOfCache (s : store) (k : Js.value) (maxAge : Z) : store :=
  let expirationTime := Z.max maxAge 0 in
  {| map := map s;
     arrays := arrays s;
     current := current s;
     timers := timers s ++ [ {| delay := expirationTime; expires := k;
                                usage_of := current s |} ];
     reactions := reactions s |}.

(** The pending timer at index [i] fires. *)
Definition fire (i : nat) (s : store) : store :=
  match timers s !! i with
  | Some t =>
      let s' := put s (usage_of t)
                    (Part000.deleteItemFromCache (as_fn s (usage_of t)) (expires t)) in
      {| map := map s';
         arrays := arrays s';
         current := current s';
         timers := delete i (timers s);
         reactions := reactions s |}
  | None => s
  end.

Definition setUsageOrder (s : store) (k : Js.value) (maxSize : Z) : store :=
  put s (current s) (Part000.setUsageOrder (as_fn s (current s)) k maxSize).

Definition setNewCachedValue (s : store) (k : Js.value) (value : computed)
  (isPromise isMaxAgeFinite : bool) (maxAge : Z) : completion (store * computed) :=
  s ← (if isPromise then
         match value with
         | Promise p =>
             Normal {| map := map s;
                       arrays := arrays s;
                       current := current s;
                       timers := timers s;
                       reactions := reactions s ++
                                    [ {| promise := p; reacts_for := k |} ] |}
         | Value _ => TypeError
         end
       else
         Normal {| map := <[k := value]> (map s);
                   arrays := arrays s;
                   current := current s;
                   timers := timers s;
                   reactions := reactions s |});
  let s := if isMaxAgeFinite then setExpirationOfCache s k maxAge else s in
  Normal (s, value).

(** A miss on key [k]: the key goes to the front of the usage order and
    the value is stored with an expiration of [maxAge]. *)
Definition miss (k : Js.value) (v : Js.value) (maxAge : Z) (s : store) : store :=
  let s := setUsageOrder s k 10 in
  match setNewCachedValue s k (Value v) false true maxAge with
  | Normal (s, _) => s
  | TypeError => s
  end.

(** A key stored with an expiration of 100 ms. *)
Definition stored_a : store :=
  let s := setUsageOrder (getFunctionWithCacheAdded ∅) (VStr "a") 10 in
  match setNewCachedValue s (VStr "a") (Value (VNum 1)) false true 100 with
  | Normal (s, _) => s
  | TypeError => s
  end.

(** The same store after [fn.delete("a")], and after the key is stored
    again: the timer of the first store is still pending. *)
Definition removed_a : store := delete_ (VStr "a") stored_a.
Definition restored_a : store := miss (VStr "a") (VNum 2) 100 removed_a.
Definition timer_a : pending :=
  {| delay := 100; expires := VStr "a"; usage_of := 0 |}.

End Moized.

(** ** src/src/utils.js: the keys of React components *)
Module React.
Import ReactCacheKey.

(** Two objects with the same own properties. *)
Definition same_object (a b : jsobject) : Prop :=
  (forall name, name ∈ own_keys a <-> name ∈ own_keys b) /\
  forall name, prop_get a name = prop_get b name.

(** No own property of the object has the value [v]. *)
Definition no_value (v : Js.value) (o : jsobject) : Prop :=
  forall name, name ∈ own_keys o -> prop_get o name <> v.

(** No own property of the object is named like a member of
    [Object.prototype]; for the other names [object[name]] reads an own
    property or [undefined]. *)
Definition plain_names (o : jsobject) : Prop :=
  Forall (fun name => Stats.inherited name = false) (own_keys o).

#[global] Instance completion_eq_dec {A} `{EqDecision A} : EqDecision (completion A).
Proof. solve_decision. Defined.

(** A [ReactCacheKey] object: its identity and its [key] field. *)
Record Key := { ref : nat; key : ReactCacheKey.t }.

Record ListItem := { item_key : Key; item_value : Utils.cached }.

(** [cache.list]; as for the standard keys, [cache.size] is its length
    and [cache.lastItem] its first entry. *)
Definition Cache := list ListItem.

(** The [while] loop of [getReactCacheKey] over [cache.list[index..]]. *)
Fixpoint scan (items : list ListItem) (k : list element) : completion (option Key) :=
  match items with
  | [] => Normal None
  | item :: rest =>
      m ← matches (key (item_key item)) k;
      if (m : bool) then Normal (Some (item_key item)) else scan rest k
  end.

(** [getReactCacheKey(cache, key)]; [alloc] is the reference the next
    allocated object gets. *)
Definition getReactCacheKey (cache : Cache) (k : list element) (alloc : nat)
  : completion Key :=
  hit ← (if negb (length cache =? 0) then
           match head cache with
           | Some item => matches (key (item_key item)) k
           | None => TypeError
           end
         else Normal false);
  if (hit : bool) then
    match head cache with
    | Some item => Normal (item_key item)
    | None => TypeError
    end
  else
    found ← scan (drop 1 cache) k;
    Normal (default {| ref := alloc; key := constructor k |} found).

(** A cache of two components' keys. *)
Definition cache_two : Cache :=
  [ {| item_key := {| ref := 1; key := constructor [Some [("a", VNum 1)]; Some []] |};
       item_value := Utils.Plain (VNum 10) |};
    {| item_key := {| ref := 0; key := constructor [Some [("a", VNum 2)]; Some []] |};
       item_value := Utils.Plain (VNum 20) |} ].

End React.

(** ** src/unnamed/part_000: the list of a Map-like cache *)
Module MapLike.

Record entry := { key : Js.value; value : computed }.

(** The object [getIndexOf] searches: [map.list] and [map.size]. *)
Record t := { list : list entry; size : nat }.

(** The loop [while (++index < map.size)] of [getIndexOf], entered with
    [index] already incremented, over [map.list[index..]]: reading
    [key] of an entry that is not there throws. *)
Fixpoint getIndexOf_from (items : Datatypes.list entry) (index size : nat)
  (k : Js.value) : completion Z :=
  if index <? size then
    match items with
    | [] => TypeError
    | item :: rest =>
        if Part000.isEqual (key item) k then Normal (Z.of_nat index)
        else getIndexOf_from rest (S index) size k
    end
  else Normal (-1)%Z.

Definition getIndexOf (map : t) (k : Js.value) : completion Z :=
  getIndexOf_from (list map) 0 (size map) k.

(** [isKeyLastItem(lastItem, key)]: [!!lastItem && isEqual(lastItem.key,
    key)]. *)
Definition isKeyLastItem (lastItem : option entry) (k : Js.value) : bool :=
  match lastItem with
  | Some item => Part000.isEqual (key item) k
  | None => false
  end.

(** A list with a [NaN] key. *)
Definition sample : t :=
  {| list := [ {| key := VStr "a"; value := Value (VNum 1) |};
               {| key := VNaN; value := Value (VNum 2) |} ];
     size := 2 |}.

End MapLike.


(* ===================================================================== *)
(** * Part II: theorems *)
(* ===================================================================== *)

Module ReactCacheKeyFacts.
Import ReactCacheKey.

(** What the comparison of the loop amounts to for an own property of
    the candidate. *)
Lemma same_get_iff o stored name :
  name ∈ own_keys o ->
  same (get o name) (get stored name) = true <->
  if bool_decide (name ∈ own_keys stored)
  then strict_eq (prop_get o name) (prop_get stored name) = true
  else (name ∉ Object_prototype) /\ prop_get o name = VUndefined.
Proof.
  intros Hn. unfold get. rewrite (bool_decide_eq_true_2 _ Hn).
  case_bool_decide as Hs; [done|].
  case_bool_decide as Hp; simpl.
  - split; [done|]. by intros [? _].
  - split.
    + intros H. split; [done|]. by destruct (prop_get o name).
    + intros [_ ->]. done.
Qed.

Lemma shallow_loop_true k p o keys :
  (forall name, name ∈ keys -> name ∈ own_keys o) ->
  shallow_loop k p (Some o) keys = Normal true <->
  forall name, name ∈ keys ->
    exists stored, key_prop k p = Some stored /\
      if bool_decide (name ∈ own_keys stored)
      then strict_eq (prop_get o name) (prop_get stored name) = true
      else (name ∉ Object_prototype) /\ prop_get o name = VUndefined.
Proof.
  induction keys as [|name rest IH]; intros Hown; simpl.
  - split; [intros _ ? H; inversion H | done].
  - assert (name ∈ own_keys o) as Hn by (apply Hown; by left).
    assert (forall n, n ∈ rest -> n ∈ own_keys o) as Hrest
      by (intros n Hin; apply Hown; by right).
    destruct (key_prop k p) as [stored|] eqn:Hs; simpl.
    + pose proof (same_get_iff o stored name Hn) as Hsame.
      destruct (same (get o name) (get stored name)) eqn:He; simpl.
      * rewrite (IH Hrest). split.
        -- intros H n Hin. apply elem_of_cons in Hin as [->|Hin]; [|eauto].
           exists stored. split; [done|]. by apply Hsame.
        -- intros H n Hin. apply H. by right.
      * split; [done|]. intros H.
        destruct (H name) as (s & [= <-] & Heq); [by left|].
        apply Hsame in Heq. done.
    + split; [done|]. intros H.
      destruct (H name) as (s & Hs' & _); [by left|]. done.
Qed.

Lemma isPropShallowEqual_true k p object :
  _isPropShallowEqual k p object = Normal true <->
  exists o, object = Some o /\ shallow_equal k p o.
Proof.
  unfold _isPropShallowEqual, shallow_equal.
  destruct object as [o|]; simpl.
  - destruct (length (own_keys o) =? key_propSize k p) eqn:Hl; simpl.
    + apply Nat.eqb_eq in Hl. rewrite shallow_loop_true by done. split.
      * intros H. exists o. auto.
      * intros (o' & [= <-] & _ & H). done.
    + apply Nat.eqb_neq in Hl. split; [done|].
      intros (o' & [= <-] & H & _). done.
  - split; [done|]. intros (o & ? & _). done.
Qed.

(** The same comparison in terms of what the two reads find. *)
Lemma shallow_equal_same k p o :
  shallow_equal k p o <->
  length (own_keys o) = key_propSize k p /\
  forall name, name ∈ own_keys o ->
    exists stored, key_prop k p = Some stored /\
      same (get o name) (get stored name) = true.
Proof.
  unfold shallow_equal. split; intros [Hlen Hall]; (split; [done|]);
    intros name Hn; destruct (Hall name Hn) as (stored & Hs & He);
    exists stored; (split; [done|]); by apply (same_get_iff o stored name Hn).
Qed.

Lemma isPropShallowEqual_count_mismatch k p o :
  length (own_keys o) <> key_propSize k p ->
  _isPropShallowEqual k p (Some o) = Normal false.
Proof.
  intros H. unfold _isPropShallowEqual; simpl.
  apply Nat.eqb_neq in H. by rewrite H.
Qed.

Lemma shallow_loop_no_throw k p o stored keys :
  key_prop k p = Some stored ->
  shallow_loop k p (Some o) keys <> TypeError.
Proof.
  intros Hs. induction keys as [|name rest IH]; simpl; [done|].
  rewrite Hs; simpl.
  by destruct (same _ _).
Qed.

Lemma key_prop_constructor stored p :
  key_propSize (constructor stored) p = size_of (key_prop (constructor stored) p).
Proof. by destruct p. Qed.

(** A key built by the constructor never makes the comparison of a
    present candidate half throw. *)
Lemma isPropShallowEqual_constructor_no_throw stored p o :
  _isPropShallowEqual (constructor stored) p (Some o) <> TypeError.
Proof.
  unfold _isPropShallowEqual; simpl.
  rewrite key_prop_constructor.
  destruct (key_prop (constructor stored) p) as [so|] eqn:Hs; simpl.
  - destruct (length (own_keys o) =? length (own_keys so)); simpl; [|done].
    by eapply shallow_loop_no_throw.
  - destruct o as [|[name v] o]; simpl; done.
Qed.

(** C7: [matches(key)] returns [true] exactly when both halves of the
    candidate are present objects and, for each half on its own, the
    number of own enumerable properties equals the stored count and
    every first-level property value is [===] to what its name reads in
    the stored object (an own property, else a member of
    [Object.prototype], else [undefined]).  A count mismatch rejects a
    half before any property is read, and nested objects are compared
    as references only. *)
Theorem matches_iff_shallow_equal (k : t) (key : list element) :
  (matches k key = Normal true <->
   exists p c, index key 0 = Some p /\ index key 1 = Some c /\
     shallow_equal k Props p /\ shallow_equal k Context c) /\
  (forall p o, length (own_keys o) <> key_propSize k p ->
     _isPropShallowEqual k p (Some o) = Normal false) /\
  (forall r r', strict_eq (VObj r) (VObj r') = bool_decide (r = r')).
Proof.
  split; [|split].
  - unfold matches.
    destruct (_isPropShallowEqual k Props (index key 0)) as [[|]|] eqn:Hp; simpl.
    + apply isPropShallowEqual_true in Hp as (p & Hp & Hsp).
      rewrite isPropShallowEqual_true. split.
      * intros (c & Hc & Hsc). eauto 10.
      * intros (p' & c & Hp' & Hc & _ & Hsc). eauto.
    + split; [done|]. intros (p & c & Hp' & _ & Hsp & _).
      assert (_isPropShallowEqual k Props (index key 0) = Normal true)
        by (apply isPropShallowEqual_true; eauto).
      congruence.
    + split; [done|]. intros (p & c & Hp' & _ & Hsp & _).
      assert (_isPropShallowEqual k Props (index key 0) = Normal true)
        by (apply isPropShallowEqual_true; eauto).
      congruence.
  - intros p o. apply isPropShallowEqual_count_mismatch.
  - intros r r'. unfold strict_eq.
    destruct (decide (r = r')) as [->|Hne].
    + by rewrite !bool_decide_eq_true_2.
    + rewrite !bool_decide_eq_false_2; [done..|congruence].
Qed.

Lemma matches_iff_shallow_equal_witness :
  matches stored_ab [Some [("a", VNum 1)]; Some [("b", VNum 2)]] = Normal true /\
  _isPropShallowEqual stored_ab Props (Some []) = Normal false.
Proof.
  pose proof (matches_iff_shallow_equal stored_ab
                [Some [("a", VNum 1)]; Some [("b", VNum 2)]]) as (Hiff & Hcount & _).
  split.
  - apply Hiff. exists [("a", VNum 1)], [("b", VNum 2)].
    repeat split; try reflexivity.
    + intros name Hn. exists [("a", VNum 1)]. split; [reflexivity|].
      apply list_elem_of_singleton in Hn as ->. reflexivity.
    + intros name Hn. exists [("b", VNum 2)]. split; [reflexivity|].
      apply list_elem_of_singleton in Hn as ->. reflexivity.
  - apply Hcount. simpl. lia.
Defined.

(** C10, as stated, fails: with [props] present and not shallow equal,
    an absent [context] is never looked at and [matches] returns
    [false]. *)
Lemma matches_absent_context_returns_false :
  ~ (forall (k : t) (key : list element),
       index key 0 = None \/ index key 1 = None -> matches k key = TypeError).
Proof.
  intros H.
  specialize (H stored_ab [Some [("a", VNum 2)]] (or_intror eq_refl)).
  vm_compute in H. discriminate H.
Qed.

(** C10 (amended): for a key built by the constructor, [matches] throws
    exactly when the candidate's [props] is absent, or its [props] is
    shallow equal to the stored one and its [context] is absent; when
    [props] is present and not shallow equal, [matches] returns [false]
    whatever [context] is.  The constructor itself accepts absent
    halves and records size 0 for them. *)
Theorem matches_throws_iff (stored key : list element) :
  (matches (constructor stored) key = TypeError <->
   index key 0 = None \/
   ((exists p, index key 0 = Some p /\ shallow_equal (constructor stored) Props p) /\
    index key 1 = None)) /\
  (forall p, index key 0 = Some p ->
     ~ shallow_equal (constructor stored) Props p ->
     matches (constructor stored) key = Normal false) /\
  constructor [] =
    {| context := None; contextSize := 0; props := None; propsSize := 0 |}.
Proof.
  split; [|split; [|reflexivity]].
  - unfold matches.
    destruct (index key 0) as [p|] eqn:Hp.
    + pose proof (isPropShallowEqual_constructor_no_throw stored Props p) as Hnt.
      destruct (_isPropShallowEqual (constructor stored) Props (Some p))
        as [[|]|] eqn:Hl; simpl; [| |done].
      * apply isPropShallowEqual_true in Hl as (p' & [= <-] & Hsp).
        destruct (index key 1) as [c|] eqn:Hc.
        -- pose proof (isPropShallowEqual_constructor_no_throw stored Context c).
           split; [done|]. intros [?|[_ ?]]; done.
        -- split; [eauto 10|done].
      * split; [done|]. intros [?|[(p' & [= <-] & Hsp) _]]; [done|].
        assert (_isPropShallowEqual (constructor stored) Props (Some p) = Normal true)
          by (apply isPropShallowEqual_true; eauto).
        congruence.
    + simpl. split; auto.
  - intros p Hp Hne. unfold matches. rewrite Hp.
    pose proof (isPropShallowEqual_constructor_no_throw stored Props p) as Hnt.
    destruct (_isPropShallowEqual (constructor stored) Props (Some p))
      as [[|]|] eqn:Hl; simpl; [|done..].
    apply isPropShallowEqual_true in Hl as (p' & [= <-] & Hsp). done.
Qed.

(** A candidate whose only property is named [toString] and is
    [undefined], with no context: the stored props object finds the
    member of [Object.prototype] under that name, and [matches] returns
    [false]. *)
Lemma matches_throws_iff_witness :
  matches stored_ab [Some [("toString", VUndefined)]] = Normal false.
Proof.
  refine (proj1 (proj2 (matches_throws_iff
            [Some [("a", VNum 1)]; Some [("b", VNum 2)]]
            [Some [("toString", VUndefined)]])) _ eq_refl _).
  intros [_ H].
  destruct (H "toString") as (s & [= <-] & He); [by left|].
  rewrite bool_decide_eq_false_2 in He.
  - destruct He as [He _]. apply He.
    unfold Object_prototype. rewrite !elem_of_cons. tauto.
  - intros Hin. apply list_elem_of_singleton in Hin. discriminate Hin.
Defined.

End ReactCacheKeyFacts.

Module UtilsFacts.
Import Utils.

(** *** [take] *)

Lemma take_short (size : Z) (array : list Js.value) :
  (Z.of_nat (length array) <= size)%Z -> take size array = array.
Proof.
  intros H. unfold take.
  destruct (size >=? Z.of_nat (length array))%Z eqn:E; [done|]. lia.
Qed.

Lemma take_firstn (size : Z) (array : list Js.value) :
  (0 < size)%Z -> take size array = firstn (Z.to_nat size) array.
Proof.
  intros Hpos. unfold take.
  destruct (size >=? Z.of_nat (length array))%Z eqn:E.
  - rewrite firstn_all2; [done|]. lia.
  - assert (Hlt : (size < Z.of_nat (length array))%Z) by lia.
    destruct size as [|p|p]; try lia.
    destruct p as [[p|p|]|[p|p|]|]; try reflexivity;
      try (destruct p; try reflexivity).
    all: do 6 (destruct array as [|? array];
               [first [simpl in Hlt; lia | reflexivity]|]).
    all: reflexivity.
Qed.

Example take_fixed_index :
  take 2 [VNum 1; VNum 2; VNum 3] = [VNum 1; VNum 2].
Proof. reflexivity. Qed.

Example take_generic_slice :
  take 6 (VNum <$> [1; 2; 3; 4; 5; 6; 7; 8]%Z) = VNum <$> [1; 2; 3; 4; 5; 6]%Z.
Proof. reflexivity. Qed.

Example take_unchanged : take 3 [VNum 1; VNum 2] = [VNum 1; VNum 2].
Proof. reflexivity. Qed.

(** *** Finding, removing and updating entries *)

Example splice_middle : splice [1; 2; 3] 1 = [1; 3].
Proof. reflexivity. Qed.

Example splice_past_the_end : splice [1; 2; 3] 5 = [1; 2].
Proof. reflexivity. Qed.

(** The predicate [findIndex] tests an entry with. *)
Abbreviation is_key k := (fun item : ListItem => ref k = ref (key item)).

Lemma findIndex_loop_list_find items base k :
  findIndex_loop items base k =
  match list_find (is_key k) items with
  | Some (i, _) => Z.of_nat (base + i)
  | None => (-1)%Z
  end.
Proof.
  revert base. induction items as [|item rest IH]; intros base; simpl; [done|].
  unfold same_key. case_decide as Hk.
  - rewrite bool_decide_eq_true_2 by done. f_equal. lia.
  - rewrite bool_decide_eq_false_2 by done. rewrite IH.
    destruct (list_find _ rest) as [[i x]|]; simpl; [|done]. f_equal. lia.
Qed.

Lemma findIndex_list_find items k :
  findIndex items k =
  match list_find (is_key k) items with
  | Some (i, _) => Z.of_nat i
  | None => (-1)%Z
  end.
Proof.
  unfold findIndex, createFindIndex. rewrite drop_0.
  apply findIndex_loop_list_find.
Qed.

Lemma has_true_iff (c : Cache) k :
  has c k = true <-> exists item, item ∈ Cache.list c /\ ref k = ref (key item).
Proof.
  unfold has, size, lastItem, findIndexAfterFirst, createFindIndex.
  destruct (Cache.list c) as [|h t]; simpl.
  - split; [done|]. intros (item & Hin & _). inversion Hin.
  - rewrite drop_0, findIndex_loop_list_find. unfold same_key.
    rewrite orb_true_iff, bool_decide_eq_true. split.
    + intros [Hh|Ht]; [exists h; split; [by left|done]|].
      destruct (list_find _ t) as [[i x]|] eqn:Hf; [|done].
      apply list_find_Some in Hf as (Hl & Hx & _).
      exists x. split; [|done]. right. by eapply list_elem_of_lookup_2.
    + intros (item & Hin & Hk). apply elem_of_cons in Hin as [->|Hin]; [by left|].
      right. destruct (list_find_elem_of (is_key k) t item Hin Hk) as [[i x] Hf].
      rewrite Hf. apply negb_true_iff, Z.eqb_neq. lia.
Qed.

Lemma has_false_iff (c : Cache) k :
  has c k = false <-> forall item, item ∈ Cache.list c -> ref k <> ref (key item).
Proof.
  rewrite <- not_true_iff_false, has_true_iff. split.
  - intros H item Hin Hk. apply H. eauto.
  - intros H (item & Hin & Hk). by eapply H.
Qed.

Lemma splice_delete {A} (l : list A) i : i < length l -> splice l i = delete i l.
Proof.
  intros Hi. unfold splice.
  destruct (length l =? 0) eqn:E; [apply Nat.eqb_eq in E; lia|].
  apply Nat.ltb_lt in Hi. rewrite Hi. by rewrite delete_take_drop.
Qed.

(** [remove] deletes the first entry that has the key. *)
Lemma remove_list (c : Cache) k :
  Cache.list (remove c k) =
  match list_find (is_key k) (Cache.list c) with
  | Some (i, _) => delete i (Cache.list c)
  | None => Cache.list c
  end.
Proof.
  unfold remove. rewrite findIndex_list_find.
  destruct (list_find _ _) as [[i x]|] eqn:Hf; simpl; [|done].
  destruct (Z.of_nat i =? -1)%Z eqn:E; [apply Z.eqb_eq in E; lia|]. simpl.
  rewrite Nat2Z.id. apply splice_delete.
  apply list_find_Some in Hf as (Hl & _). by eapply lookup_lt_Some.
Qed.

(** [update] replaces the value of the first entry that has the key and
    leaves every key where it is. *)
Lemma update_list (c : Cache) k v :
  Cache.list (update c k v) =
  match list_find (is_key k) (Cache.list c) with
  | Some (i, item) => <[i := {| key := key item; value := v |}]> (Cache.list c)
  | None => Cache.list c
  end.
Proof.
  unfold update. rewrite findIndex_list_find.
  destruct (list_find _ _) as [[i x]|] eqn:Hf; simpl; [|done].
  destruct (Z.of_nat i =? -1)%Z eqn:E; [apply Z.eqb_eq in E; lia|]. simpl.
  rewrite Nat2Z.id. apply list_find_Some in Hf as (Hl & _).
  apply list_eq. intros j. destruct (decide (i = j)) as [<-|Hne].
  - rewrite list_lookup_alter_eq, Hl. simpl.
    by rewrite list_lookup_insert_eq by (by eapply lookup_lt_Some).
  - by rewrite list_lookup_alter_ne, list_lookup_insert_ne.
Qed.

Lemma update_keys (c : Cache) k v :
  key <$> Cache.list (update c k v) = key <$> Cache.list c.
Proof.
  rewrite update_list.
  destruct (list_find _ _) as [[i x]|] eqn:Hf; [|done].
  apply list_find_Some in Hf as (Hl & _).
  rewrite list_fmap_insert. simpl. apply list_insert_id.
  by rewrite list_lookup_fmap, Hl.
Qed.

(** The references of the keys in a list of entries. *)
Abbreviation refs l := ((fun item : ListItem => ref (key item)) <$> l).

(** With no key stored twice, the key at index [i] is found at [i]. *)
Lemma list_find_NoDup (l : list ListItem) i item :
  NoDup (refs l) -> l !! i = Some item ->
  list_find (is_key (key item)) l = Some (i, item).
Proof.
  intros Hnd Hl. apply list_find_Some. split; [done|]. split; [done|].
  intros j y Hj Hlt Heq.
  assert (i = j); [|lia].
  eapply NoDup_lookup; [exact Hnd| |].
  - by rewrite list_lookup_fmap, Hl.
  - rewrite list_lookup_fmap, Hj. simpl. by rewrite Heq.
Qed.

(** Closes [NoDup] of a list of numerals. *)
Ltac nodup_numerals :=
  repeat (apply NoDup_cons; split;
          [ let Hin := fresh "Hin" in
            intros Hin;
            repeat (apply elem_of_cons in Hin as [Hin|Hin]; [discriminate Hin|]);
            inversion Hin
          | ]);
  apply NoDup_nil_2.

(** *** Eviction by size *)

Lemma setNewCachedValue_cache options k v w w' r :
  setNewCachedValue options k v w = Normal (w', r) ->
  cache w' = evict (isFiniteAndPositiveInteger (maxSize options)) (maxSize options)
               (add (cache w) k r).
Proof.
  unfold setNewCachedValue, createSetNewCachedValue.
  destruct (isPromise options); simpl.
  - destruct (promiseLibrary options); simpl; [|done].
    destruct v; simpl; [done|]. by intros [= <- <-].
  - intros [= <- <-].
    by destruct (isFiniteAndPositiveInteger (maxAge options)).
Qed.

Lemma setNewCachedValue_sync options k v w :
  isPromise options = false ->
  exists w' r, setNewCachedValue options k v w = Normal (w', r).
Proof.
  intros Hp. unfold setNewCachedValue, createSetNewCachedValue.
  rewrite Hp. simpl. eauto.
Qed.

(** With no key stored twice, removing the key of the tail entry drops
    the tail entry. *)
Lemma evict_list (N : Z) (c : Cache) :
  (0 < N)%Z -> NoDup (refs (Cache.list c)) ->
  Cache.list (evict (isFiniteAndPositiveInteger (Some N)) (Some N) c) =
  if (N <? Z.of_nat (length (Cache.list c)))%Z
  then firstn (length (Cache.list c) - 1) (Cache.list c)
  else Cache.list c.
Proof.
  intros HN Hnd. unfold evict, size. simpl.
  assert ((0 <? N)%Z = true) as -> by lia. simpl.
  destruct (N <? Z.of_nat (length (Cache.list c)))%Z eqn:E; [|done].
  apply Z.ltb_lt in E.
  destruct (Cache.list c !! (length (Cache.list c) - 1)) as [item|] eqn:Hl.
  - rewrite remove_list, (list_find_NoDup _ _ _ Hnd Hl).
    rewrite delete_take_drop, drop_ge, app_nil_r; [done|lia].
  - apply lookup_ge_None in Hl. lia.
Qed.

Lemma take_app_take {A} n (a b : list A) :
  firstn n (a ++ firstn n b) = firstn n (a ++ b).
Proof.
  rewrite !take_app, take_take. do 2 f_equal. lia.
Qed.

Lemma setNewCachedValue_keys options N k v w w' r :
  maxSize options = Some N -> (0 < N)%Z ->
  NoDup (ref k :: refs (Cache.list (cache w))) ->
  length (Cache.list (cache w)) <= Z.to_nat N ->
  setNewCachedValue options k v w = Normal (w', r) ->
  key <$> Cache.list (cache w') =
  firstn (Z.to_nat N) (k :: (key <$> Cache.list (cache w))).
Proof.
  intros Hmax HN Hnd Hlen Hset.
  apply setNewCachedValue_cache in Hset. rewrite Hset, Hmax.
  rewrite evict_list by done. simpl.
  destruct (N <? _)%Z eqn:E.
  - apply Z.ltb_lt in E. rewrite Nat.sub_0_r.
    assert (length (Cache.list (cache w)) = Z.to_nat N) as <- by lia.
    by rewrite fmap_take.
  - apply Z.ltb_ge in E. rewrite take_ge; [done|].
    simpl. rewrite length_fmap. lia.
Qed.

(** After any run of stores of distinct keys the cache holds the
    [maxSize] most recently stored keys, most recent first. *)
Lemma setAll_keys options N calls w w' :
  maxSize options = Some N -> (0 < N)%Z ->
  NoDup (((fun c => ref c.1) <$> calls) ++ refs (Cache.list (cache w))) ->
  length (Cache.list (cache w)) <= Z.to_nat N ->
  setAll options calls w = Normal w' ->
  key <$> Cache.list (cache w') =
  firstn (Z.to_nat N) (reverse (fst <$> calls) ++ (key <$> Cache.list (cache w))).
Proof.
  intros Hmax HN. revert w.
  induction calls as [|[k v] rest IH]; intros w Hnd Hlen Hall; simpl in *.
  - injection Hall as <-. rewrite take_ge; [done|]. rewrite length_fmap. lia.
  - destruct (setNewCachedValue options k v w) as [[w1 r]|] eqn:Hset; [|done].
    simpl in Hall.
    apply NoDup_cons in Hnd as [Hk Hnd].
    apply NoDup_app in Hnd as (Hrest & Hdisj & Hw).
    assert (ref k ∉ refs (Cache.list (cache w))) as Hkw.
    { intros Hin. apply Hk, elem_of_app. by right. }
    assert (key <$> Cache.list (cache w1) =
            firstn (Z.to_nat N) (k :: (key <$> Cache.list (cache w)))) as Hkeys.
    { eapply setNewCachedValue_keys; [done..| |done|done].
      by apply NoDup_cons. }
    assert (refs (Cache.list (cache w1)) =
            firstn (Z.to_nat N) (ref k :: refs (Cache.list (cache w)))) as Hrefs.
    { rewrite (list_fmap_compose key ref), Hkeys, fmap_take. simpl.
      by rewrite <- list_fmap_compose. }
    rewrite (IH w1); [| | |exact Hall].
    + rewrite Hkeys, take_app_take, reverse_cons, <- app_assoc. done.
    + rewrite Hrefs. apply NoDup_app. split; [done|]. split.
      * intros x Hx Hin. apply elem_of_take in Hin as (i & Hin & _).
        apply list_elem_of_lookup_2 in Hin.
        apply elem_of_cons in Hin as [->|Hin]; [|by eapply Hdisj].
        apply Hk, elem_of_app. by left.
      * apply (sublist_NoDup _ (ref k :: refs (Cache.list (cache w)))).
        -- by apply NoDup_cons.
        -- apply sublist_take.
    + apply (f_equal length) in Hkeys.
      rewrite length_fmap, length_take in Hkeys. lia.
Qed.

Lemma has_of_keys (c : Cache) k :
  has c k = true <-> ref k ∈ ref <$> (key <$> Cache.list c).
Proof.
  rewrite has_true_iff, <- list_fmap_compose, list_elem_of_fmap.
  split; intros (item & H1 & H2); exists item; done.
Qed.

(** C3: the default [maxSize] is 1; after a store, when the size exceeds
    [maxSize], the entry at index [size - 1] is removed; and after
    [maxSize + 1] distinct keys are stored into an empty cache, the first
    key is gone and all the later ones are present. *)
Theorem lru_size_bound :
  maxSize DEFAULT_OPTIONS = Some 1%Z /\
  (forall options N k v w w' r,
     maxSize options = Some N -> (0 < N)%Z ->
     NoDup (ref k :: refs (Cache.list (cache w))) ->
     setNewCachedValue options k v w = Normal (w', r) ->
     Cache.list (cache w') =
       let entries := {| key := k; value := r |} :: Cache.list (cache w) in
       if (N <? Z.of_nat (length entries))%Z
       then firstn (length entries - 1) entries
       else entries) /\
  (forall options N first rest w',
     maxSize options = Some N -> (0 < N)%Z ->
     length rest = Z.to_nat N ->
     NoDup ((fun c => ref c.1) <$> first :: rest) ->
     setAll options (first :: rest) empty_world = Normal w' ->
     has (cache w') first.1 = false /\
     forall c, c ∈ rest -> has (cache w') c.1 = true) /\
  (forall options calls w,
     isPromise options = false -> exists w', setAll options calls w = Normal w').
Proof.
  split; [reflexivity|]. split; [|split].
  - intros options N k v w w' r Hmax HN Hnd Hset.
    apply setNewCachedValue_cache in Hset. rewrite Hset, Hmax.
    by rewrite evict_list.
  - intros options N first rest w' Hmax HN Hlen Hnd Hall.
    pose proof (setAll_keys options N (first :: rest) empty_world w' Hmax HN
                  ltac:(by rewrite app_nil_r) ltac:(simpl; lia) Hall) as Hkeys.
    change (key <$> Cache.list (cache empty_world)) with (@nil CacheKey) in Hkeys.
    rewrite app_nil_r, fmap_cons, reverse_cons in Hkeys.
    rewrite take_app_le in Hkeys by (rewrite length_reverse, length_fmap; lia).
    rewrite take_ge in Hkeys by (rewrite length_reverse, length_fmap; lia).
    simpl in Hnd. apply NoDup_cons in Hnd as [Hfirst Hnd].
    split.
    + apply not_true_iff_false. rewrite has_of_keys, Hkeys.
      rewrite fmap_reverse, elem_of_reverse, <- list_fmap_compose. done.
    + intros c Hc. rewrite has_of_keys, Hkeys.
      rewrite fmap_reverse, elem_of_reverse, <- list_fmap_compose.
      apply list_elem_of_fmap. by exists c.
  - intros options calls w Hp. revert w.
    induction calls as [|[k v] rest IH]; intros w; simpl; [eauto|].
    destruct (setNewCachedValue_sync options k v w Hp) as (w1 & r & ->).
    simpl. apply IH.
Qed.

(** [maxSize = 2] and the calls [f(1)], [f(2)], [f(3)]: the keys are
    those of 3 and 2. *)
Example keys_after_three_calls :
  setAll (options_sized 2) calls_123 empty_world =
  Normal {| cache := {| Cache.list :=
                          [ {| key := key_of 3 3; value := Plain (VNum 3) |};
                            {| key := key_of 2 2; value := Plain (VNum 2) |} ] |};
            timers := [];
            reactions := [] |}.
Proof. reflexivity. Qed.

Lemma lru_size_bound_witness :
  exists w', setAll (options_sized 2) calls_123 empty_world = Normal w' /\
    has (cache w') (key_of 1 1) = false /\
    has (cache w') (key_of 2 2) = true /\
    has (cache w') (key_of 3 3) = true.
Proof.
  destruct lru_size_bound as (_ & _ & Hlru & Hsync).
  destruct (Hsync (options_sized 2) calls_123 empty_world eq_refl) as (w' & Hw').
  exists w'. split; [done|].
  destruct (Hlru (options_sized 2) 2%Z (key_of 1 1, Value (VNum 1))
              [(key_of 2 2, Value (VNum 2)); (key_of 3 3, Value (VNum 3))] w')
    as (Hfirst & Hrest); [reflexivity|lia|reflexivity| |exact Hw'|].
  - simpl. nodup_numerals.
  - split; [exact Hfirst|]. split.
    + apply (Hrest (key_of 2 2, Value (VNum 2))). by left.
    + apply (Hrest (key_of 3 3, Value (VNum 3))). right. by left.
Defined.

(** *** Key resolution *)

Section resolution.
Variable matches : CacheKey -> list Js.value -> bool -> bool.

Lemma scan_first items k m i item :
  items !! i = Some item ->
  matches (key item) k m = true ->
  (forall j y, items !! j = Some y -> j < i -> matches (key y) k m = false) ->
  scan matches items k m = Some (key item).
Proof.
  revert i. induction items as [|x rest IH]; intros i Hi Hm Hbefore; [done|].
  destruct i as [|i]; simpl in *.
  - injection Hi as ->. by rewrite Hm.
  - rewrite (Hbefore 0 x) by (done || lia).
    apply (IH i); [done..|].
    intros j y Hj Hlt. apply (Hbefore (S j)); [done|lia].
Qed.

Lemma scan_none items k m :
  (forall y, y ∈ items -> matches (key y) k m = false) ->
  scan matches items k m = None.
Proof.
  induction items as [|x rest IH]; intros H; simpl; [done|].
  rewrite H by (by left). apply IH. intros y Hy. apply H. by right.
Qed.

Lemma getStandardCacheKey_first (cache : Cache) (k : list Js.value)
  (alloc : nat) i item :
  Cache.list cache !! i = Some item ->
  matches (key item) k (1 <? length k) = true ->
  (forall j y, Cache.list cache !! j = Some y -> j < i ->
     matches (key y) k (1 <? length k) = false) ->
  getStandardCacheKey matches cache k alloc = key item.
Proof.
  intros Hi Hm Hbefore.
  unfold getStandardCacheKey, size, lastItem.
  destruct (Cache.list cache) as [|h t] eqn:Hl; [done|]. simpl.
  destruct i as [|i]; simpl in Hi.
  - injection Hi as ->. by rewrite Hm.
  - rewrite (Hbefore 0 h) by (done || lia). rewrite drop_0.
    rewrite (scan_first t k (1 <? length k) i item); [done..|].
    intros j y Hj Hlt. apply (Hbefore (S j)); [done|lia].
Qed.

Lemma getStandardCacheKey_miss (cache : Cache) (k : list Js.value) (alloc : nat) :
  (forall y, y ∈ Cache.list cache -> matches (key y) k (1 <? length k) = false) ->
  getStandardCacheKey matches cache k alloc =
  {| ref := alloc;
     class := if 1 <? length k then MultipleParameterCacheKey
              else SingleParameterCacheKey;
     args := k |}.
Proof.
  intros Hnone.
  unfold getStandardCacheKey, size, lastItem.
  destruct (Cache.list cache) as [|h t] eqn:Hl; simpl.
  - by destruct (1 <? length k).
  - rewrite Hnone by (by left). rewrite drop_0.
    rewrite scan_none; [by destruct (1 <? length k)|].
    intros y Hy. apply Hnone. by right.
Qed.

Lemma has_beyond_refs (cache : Cache) (k : CacheKey) :
  (forall y, y ∈ Cache.list cache -> ref (key y) < ref k) ->
  has cache k = false.
Proof.
  intros Hbelow. apply has_false_iff. intros item Hin.
  specialize (Hbelow item Hin). lia.
Qed.

(** C4: the resolver returns the key of the first entry, in recency
    order from the head, whose key matches the arguments (the head is
    tested before the scan of the entries after it); when no entry
    matches it returns a newly built key, a multiple parameter key for
    more than one argument and a single parameter key otherwise, which
    is not yet in the cache. *)
Theorem getStandardCacheKey_resolution (cache : Cache) (k : list Js.value)
  (alloc : nat) :
  let isMultiParamKey := 1 <? length k in
  let fresh :=
    {| ref := alloc;
       class := if isMultiParamKey then MultipleParameterCacheKey
                else SingleParameterCacheKey;
       args := k |} in
  (forall i item,
     Cache.list cache !! i = Some item ->
     matches (key item) k isMultiParamKey = true ->
     (forall j y, Cache.list cache !! j = Some y -> j < i ->
        matches (key y) k isMultiParamKey = false) ->
     getStandardCacheKey matches cache k alloc = key item) /\
  ((forall y, y ∈ Cache.list cache -> matches (key y) k isMultiParamKey = false) ->
   getStandardCacheKey matches cache k alloc = fresh) /\
  ((forall y, y ∈ Cache.list cache -> ref (key y) < alloc) ->
   forall y, y ∈ Cache.list cache -> same_key fresh (key y) = false).
Proof.
  intros isMultiParamKey fresh. split; [|split].
  - intros i item. apply getStandardCacheKey_first.
  - apply getStandardCacheKey_miss.
  - intros Hbelow y Hy. apply bool_decide_eq_false. simpl.
    specialize (Hbelow y Hy). lia.
Qed.

End resolution.

Lemma getStandardCacheKey_resolution_witness :
  getStandardCacheKey spec_matches cache_321 [VNum 20] 4 = key_of 2 20 /\
  getStandardCacheKey spec_matches cache_321 [VNum 99] 4 = key_of 4 99 /\
  same_key (key_of 4 99) (key_of 3 30) = false.
Proof.
  pose proof (getStandardCacheKey_resolution spec_matches cache_321 [VNum 20] 4)
    as (Hfirst & _ & _).
  pose proof (getStandardCacheKey_resolution spec_matches cache_321 [VNum 99] 4)
    as (_ & Hmiss & Hfresh).
  split; [|split].
  - apply (Hfirst 1 (item_of 2 20)); [reflexivity..|].
    intros [|j] y Hy Hlt; [|lia]. by injection Hy as <-.
  - apply Hmiss. intros y Hy.
    repeat (apply elem_of_cons in Hy as [->|Hy]; [reflexivity|]).
    inversion Hy.
  - apply (Hfresh ltac:(intros y Hy;
                        repeat (apply elem_of_cons in Hy as [->|Hy]; [simpl; lia|]);
                        inversion Hy) (item_of 3 30)).
    by left.
Defined.

(** *** Removal and the promise handlers *)

Lemma elem_of_delete_NoDup (l : list ListItem) i x item :
  NoDup (refs l) -> l !! i = Some x ->
  item ∈ delete i l <-> item ∈ l /\ ref (key item) <> ref (key x).
Proof.
  intros Hnd Hi. split.
  - intros Hin. apply list_elem_of_lookup_1 in Hin as (j & Hj).
    rewrite list_lookup_delete in Hj.
    split; [by eapply list_elem_of_lookup_2|].
    intros Heq.
    assert (i = if decide (j < i) then j else S j) as Hij.
    { eapply NoDup_lookup; [exact Hnd| |].
      - by rewrite list_lookup_fmap, Hi.
      - rewrite list_lookup_fmap, Hj. simpl. by rewrite Heq. }
    case_decide; lia.
  - intros (Hin & Hne). apply list_elem_of_lookup_1 in Hin as (j & Hj).
    assert (j <> i) as Hji by (intros ->; rewrite Hi in Hj; by injection Hj as ->).
    destruct (decide (j < i)) as [Hlt|Hge].
    + apply (list_elem_of_lookup_2 _ j). by rewrite list_lookup_delete_lt.
    + apply (list_elem_of_lookup_2 _ (j - 1)).
      rewrite list_lookup_delete_ge by lia.
      by replace (S (j - 1)) with j by lia.
Qed.

(** After [remove] the key is gone and every other key is where it
    was. *)
Lemma has_remove (c : Cache) k k' :
  NoDup (refs (Cache.list c)) ->
  has (remove c k) k' = true <-> has c k' = true /\ ref k' <> ref k.
Proof.
  intros Hnd. rewrite !has_true_iff, remove_list.
  destruct (list_find _ _) as [[i x]|] eqn:Hf.
  - apply list_find_Some in Hf as (Hi & Hx & _). simpl in Hx. split.
    + intros (item & Hin & Hk).
      apply (elem_of_delete_NoDup _ _ _ _ Hnd Hi) in Hin as [Hin Hne].
      split; [eauto|]. congruence.
    + intros ((item & Hin & Hk) & Hne). exists item. split; [|done].
      apply (elem_of_delete_NoDup _ _ _ _ Hnd Hi). split; [done|]. congruence.
  - apply list_find_None in Hf. rewrite Forall_forall in Hf. split.
    + intros (item & Hin & Hk). split; [eauto|].
      intros Heq. apply (Hf item Hin). simpl. congruence.
    + intros (H & _). exact H.
Qed.

Lemma has_remove_same (c : Cache) k :
  NoDup (refs (Cache.list c)) -> has (remove c k) k = false.
Proof.
  intros Hnd. apply not_true_iff_false. rewrite has_remove by done.
  intros [_ H]. done.
Qed.

Lemma has_remove_other (c : Cache) k k' :
  NoDup (refs (Cache.list c)) -> ref k' <> ref k ->
  has (remove c k) k' = has c k'.
Proof.
  intros Hnd Hne. apply eq_true_iff_eq. rewrite has_remove by done. tauto.
Qed.

Lemma remove_sublist (c : Cache) k :
  Cache.list (remove c k) `sublist_of` Cache.list c.
Proof.
  rewrite remove_list. destruct (list_find _ _) as [[i x]|]; [|done].
  apply sublist_delete.
Qed.

Lemma evict_sublist b m (c : Cache) :
  Cache.list (evict b m c) `sublist_of` Cache.list c.
Proof.
  unfold evict. destruct (b && _); [|done].
  destruct (_ !! _); [apply remove_sublist|done].
Qed.

Lemma sublist_map {A B} (f : A -> B) (l1 l2 : list A) :
  l1 `sublist_of` l2 -> (f <$> l1) `sublist_of` (f <$> l2).
Proof.
  induction 1; simpl; [constructor|by constructor|by constructor].
Qed.

(** A store keeps the keys distinct. *)
Lemma setNewCachedValue_NoDup options k v w w' r :
  NoDup (ref k :: refs (Cache.list (cache w))) ->
  setNewCachedValue options k v w = Normal (w', r) ->
  NoDup (refs (Cache.list (cache w'))).
Proof.
  intros Hnd Hset. apply setNewCachedValue_cache in Hset. rewrite Hset.
  eapply sublist_NoDup; [exact Hnd|].
  change (ref k :: refs (Cache.list (cache w)))
    with (refs (Cache.list (add (cache w) k r))).
  apply sublist_map, evict_sublist.
Qed.

(** What utils.js does for a promise: the store schedules no timer and
    registers the handlers; when the promise is fulfilled the value of
    the entry is replaced where it is by [promiseLibrary.resolve] of the
    settled value, and only then, with a [maxAge], the timer is
    scheduled. *)
Lemma promise_setter_defers_expiration :
  (forall options k p w w' r,
     isPromise options = true ->
     setNewCachedValue options k (Promise p) w = Normal (w', r) ->
     r = Then p /\ timers w' = timers w /\
     reactions w' = reactions w ++ [ {| promise := p; reacts_for := k |} ]) /\
  (forall options lib i r v w,
     promiseLibrary options = Some lib ->
     reactions w !! i = Some r ->
     exists w',
       react options i (Fulfilled v) w = Some (w', Fulfilled v) /\
       cache w' = update (cache w) (reacts_for r) (Resolved (resolve lib v)) /\
       key <$> Cache.list (cache w') = key <$> Cache.list (cache w) /\
       timers w' =
         if isFiniteAndPositiveInteger (maxAge options)
         then timers w ++ [ {| delay := Z.max (default 0%Z (maxAge options)) 0;
                               expires := reacts_for r |} ]
         else timers w).
Proof.
  split.
  - intros options k p w w' r Hp.
    unfold setNewCachedValue, createSetNewCachedValue. rewrite Hp. simpl.
    destruct (promiseLibrary options); simpl; [|done].
    by intros [= <- <-].
  - intros options lib i r v w Hlib Hi.
    unfold react. rewrite Hi, Hlib. simpl. unfold createPromiseResolver.
    destruct (isFiniteAndPositiveInteger (maxAge options)); simpl;
      (eexists; split; [done|]); simpl;
      (split; [done|]); (split; [apply update_keys|done]).
Qed.

(** With the keys of [utils.js], which are objects, a timer whose key
    is no longer in the cache changes nothing in it, also when an equal
    key has been built and stored since. *)
Lemma fire_stale_is_noop i t w :
  timers w !! i = Some t ->
  has (cache w) (expires t) = false ->
  cache (fire i w) = cache w.
Proof.
  intros Hi Hhas. unfold fire. rewrite Hi. simpl.
  unfold remove. rewrite findIndex_list_find.
  destruct (list_find _ _) as [[j x]|] eqn:Hf; [|done].
  apply list_find_Some in Hf as (Hj & Hx & _).
  rewrite has_false_iff in Hhas.
  destruct (Hhas x); [by eapply list_elem_of_lookup_2|done].
Qed.

(** C5: when the pending promise of a key is rejected, the key is
    removed from the cache, every other key stays, and the promise
    handed to the caller is rejected with the same reason; this holds
    for a key stored by the promise setter, and the next resolution of
    arguments that only that key matched builds a new key that the
    cache does not have. *)
Theorem rejection_removes_key_and_propagates :
  (forall options lib i r e w,
     promiseLibrary options = Some lib ->
     reactions w !! i = Some r ->
     NoDup (refs (Cache.list (cache w))) ->
     exists w',
       react options i (Rejected e) w = Some (w', reject lib e) /\
       has (cache w') (reacts_for r) = false /\
       (forall k', ref k' <> ref (reacts_for r) ->
          has (cache w') k' = has (cache w) k') /\
       (forall matches a alloc,
          (forall y, y ∈ Cache.list (cache w) ->
             matches (key y) a (1 <? length a) = true ->
             ref (key y) = ref (reacts_for r)) ->
          (forall y, y ∈ Cache.list (cache w) -> ref (key y) < alloc) ->
          has (cache w') (getStandardCacheKey matches (cache w') a alloc) = false)) /\
  (forall e, reject nativePromise e = Rejected e) /\
  (forall options lib k p e w w1 h,
     isPromise options = true ->
     promiseLibrary options = Some lib ->
     NoDup (ref k :: refs (Cache.list (cache w))) ->
     setNewCachedValue options k (Promise p) w = Normal (w1, h) ->
     exists w2,
       react options (length (reactions w)) (Rejected e) w1 =
         Some (w2, reject lib e) /\
       has (cache w2) k = false).
Proof.
  split; [|split].
  - intros options lib i r e w Hlib Hi Hnd.
    unfold react. rewrite Hi, Hlib. simpl.
    eexists. split; [reflexivity|]. simpl. split; [|split].
    + by apply has_remove_same.
    + intros k' Hne. by apply has_remove_other.
    + intros matches a alloc Honly Hbelow.
      assert (forall y, y ∈ Cache.list (remove (cache w) (reacts_for r)) ->
                y ∈ Cache.list (cache w) /\ ref (key y) <> ref (reacts_for r))
        as Hin.
      { intros y Hy. split.
        - eapply elem_of_sublist; [done|apply remove_sublist].
        - intros Heq.
          assert (has (remove (cache w) (reacts_for r)) (reacts_for r) = true)
            as Hhas by (apply has_true_iff; eauto).
          by rewrite has_remove_same in Hhas. }
      rewrite getStandardCacheKey_miss.
      * apply has_beyond_refs. simpl. intros y Hy. apply Hbelow. by apply Hin.
      * intros y Hy. destruct (Hin y Hy) as [Hy' Hne].
        apply not_true_iff_false. intros Hm. by apply Hne, Honly.
  - done.
  - intros options lib k p e w w1 h Hp Hlib Hnd Hset.
    destruct promise_setter_defers_expiration as [Hstore _].
    destruct (Hstore _ _ _ _ _ _ Hp Hset) as (_ & _ & Hreact).
    unfold react. rewrite Hreact, Hlib.
    rewrite lookup_app_r, Nat.sub_diag by done. simpl.
    eexists. split; [reflexivity|]. simpl.
    apply has_remove_same. by eapply setNewCachedValue_NoDup.
Qed.

Lemma rejection_removes_key_and_propagates_witness :
  exists w',
    react options_promise 0 (Rejected (VStr "failed")) world_321 =
      Some (w', Rejected (VStr "failed")) /\
    has (cache w') (key_of 2 20) = false /\
    has (cache w') (key_of 3 30) = true.
Proof.
  destruct rejection_removes_key_and_propagates as (Hreject & _).
  destruct (Hreject options_promise nativePromise 0
              {| promise := 0; reacts_for := key_of 2 20 |}
              (VStr "failed") world_321) as (w' & Hw' & Hgone & Hother & _).
  - reflexivity.
  - reflexivity.
  - simpl. nodup_numerals.
  - exists w'. split; [exact Hw'|]. split; [exact Hgone|].
    rewrite Hother; [reflexivity|]. simpl. lia.
Defined.

(** *** The argument pipeline *)

Section pipeline.
Context {R : Type}.
Variable run : method -> Cache -> list Js.value -> option Options -> R.

(** C8: the key handed to the lookup method is
    [serializer(transform(truncate(args)))]: [maxArgs] truncation first,
    the user's transform after it, serialization last, each stage only
    when configured.  [take] returns the first [size] arguments, and the
    array itself, unchanged, when it has at most [size] elements. *)
Theorem createGetCacheKey_pipeline (cache : Cache) (options : Options)
  (k : list Js.value) :
  ((serialize options = true -> is_Some (serializer options)) ->
   createGetCacheKey run cache options k =
     Normal (run (getGetCacheKeyMethod options) cache (spec_pipeline options k)
                 (if defined (equals options) then Some options else None))) /\
  (forall size array, (0 < size)%Z ->
     take size array = firstn (Z.to_nat size) array) /\
  (forall size array, (Z.of_nat (length array) <= size)%Z ->
     take size array = array).
Proof.
  split; [|split; [apply take_firstn | apply take_short]].
  intros Hser. unfold createGetCacheKey, spec_pipeline.
  destruct (serialize options) eqn:Hs.
  - destruct Hser as [ser Hser]; [done|]. rewrite Hser.
    destruct (maxArgs options) as [n|]; simpl;
      [destruct (0 <? n)%Z eqn:Hn; simpl|];
      destruct (transformArgs options) as [tr|]; simpl;
      destruct (equals options); simpl;
      unfold lift; simpl; rewrite ?take_firstn by lia; reflexivity.
  - destruct (maxArgs options) as [n|]; simpl;
      [destruct (0 <? n)%Z eqn:Hn; simpl|];
      destruct (transformArgs options) as [tr|]; simpl;
      destruct (equals options); simpl;
      unfold lift; simpl; rewrite ?take_firstn by lia; reflexivity.
Qed.

End pipeline.

Lemma createGetCacheKey_pipeline_witness :
  createGetCacheKey (fun _ _ k _ => k) cache_321 options_pipeline
    [VNum 1; VNum 2; VNum 3] = Normal [VStr "2|1"].
Proof.
  refine (proj1 (createGetCacheKey_pipeline (fun _ _ k _ => k) cache_321
                   options_pipeline [VNum 1; VNum 2; VNum 3]) _).
  intros _. simpl. eauto.
Defined.

End UtilsFacts.

Module Part000Facts.
Import Part000.

(** *** Expiration timers *)

Lemma strict_eq_true (x k : Js.value) :
  strict_eq x k = true <-> x = k /\ k <> VNaN.
Proof.
  unfold strict_eq.
  destruct x, k; try rewrite bool_decide_eq_true; split;
    try done; try (by intros [? ?]); intros ->; done.
Qed.

Lemma indexOf_from_list_find array base k :
  indexOf_from array base k =
  match list_find (fun x => strict_eq x k = true) array with
  | Some (i, _) => Z.of_nat (base + i)
  | None => (-1)%Z
  end.
Proof.
  revert base. induction array as [|x rest IH]; intros base; simpl; [done|].
  case_decide as Hx.
  - rewrite Hx. f_equal. lia.
  - apply not_true_is_false in Hx. rewrite Hx, IH.
    destruct (list_find _ rest) as [[i y]|]; simpl; [|done]. f_equal. lia.
Qed.

Lemma indexOf_absent array k :
  (forall x, x ∈ array -> strict_eq x k = false) -> indexOf array k = (-1)%Z.
Proof.
  intros H. unfold indexOf. rewrite indexOf_from_list_find.
  destruct (list_find _ array) as [[i y]|] eqn:Hf; [|done].
  apply list_find_Some in Hf as (Hl & Hy & _).
  apply list_elem_of_lookup_2 in Hl. rewrite H in Hy; done.
Qed.

Lemma indexOf_present array k x :
  x ∈ array -> strict_eq x k = true ->
  exists i, indexOf array k = Z.of_nat i /\ array !! i = Some k.
Proof.
  intros Hin Hx. unfold indexOf. rewrite indexOf_from_list_find.
  destruct (list_find_elem_of (fun x => strict_eq x k = true) array x Hin Hx)
    as [[i y] Hf].
  rewrite Hf. exists i. split; [done|].
  apply list_find_Some in Hf as (Hl & Hy & _).
  apply strict_eq_true in Hy as [-> _]. done.
Qed.

Lemma deleteItemFromCache_absent f k :
  (forall x, x ∈ usage f -> strict_eq x k = false) ->
  deleteItemFromCache f k = f.
Proof.
  intros H. unfold deleteItemFromCache. by rewrite indexOf_absent.
Qed.

Lemma deleteItemFromCache_present f k x :
  x ∈ usage f -> strict_eq x k = true ->
  exists i, usage f !! i = Some k /\
    deleteItemFromCache f k =
      {| cache := delete k (cache f); usage := delete i (usage f) |}.
Proof.
  intros Hin Hx. destruct (indexOf_present _ _ _ Hin Hx) as (i & Hi & Hl).
  exists i. split; [done|]. unfold deleteItemFromCache. rewrite Hi.
  destruct (Z.of_nat i =? -1)%Z eqn:E; [apply Z.eqb_eq in E; lia|]. simpl.
  rewrite Nat2Z.id. f_equal. unfold splice.
  pose proof (lookup_lt_Some _ _ _ Hl) as Hlt.
  destruct (length (usage f) =? 0) eqn:E0; [apply Nat.eqb_eq in E0; lia|].
  apply Nat.ltb_lt in Hlt. rewrite Hlt. by rewrite delete_take_drop.
Qed.

Lemma deleteItemFromCache_other f k k' :
  k' <> k -> cache (deleteItemFromCache f k) !! k' = cache f !! k'.
Proof.
  intros Hne. unfold deleteItemFromCache.
  destruct (negb _); simpl; [|done]. by rewrite lookup_delete_ne.
Qed.

(** C1 on [setNewCachedValue] of part_000: for a promise stored with a
    finite [maxAge] the expiration timer is scheduled by the call
    itself, while the reaction that will set the value is still
    pending and the cache holds no value for the key yet. *)
Theorem setNewCachedValue_promise_arms_timer_at_add (w : world) (k : Js.value)
  (p : nat) (maxAge : Z) :
  setNewCachedValue w k (Promise p) true true maxAge =
  Normal ({| fn := fn w;
             timers := timers w ++ [ {| delay := Z.max maxAge 0; expires := k |} ];
             reactions := reactions w ++ [ {| promise := p; reacts_for := k |} ] |},
          Promise p).
Proof. reflexivity. Qed.

(** When that timer runs before the promise settles, the settled value
    is stored under a key that is no longer in the usage order, so that
    no timer removes it any more. *)
Lemma early_timer_leaves_settled_value_untracked :
  timers world_pending = [timer_a] /\
  reactions world_pending = [ {| promise := 0; reacts_for := key_a |} ] /\
  cache (fn world_pending) !! key_a = None /\
  usage (fn world_expired_early) = [] /\
  cache (fn world_settled_late) !! key_a = Some (Value (VNum 7)) /\
  timers world_settled_late = [] /\
  deleteItemFromCache (fn world_settled_late) key_a = fn world_settled_late.
Proof. repeat split; reflexivity. Qed.

(** *** Decycling and stringification *)

















































Lemma strict_eq_self (v : Js.value) : strict_eq v v = false -> v = VNaN.
Proof.
  destruct v; simpl; try done; by rewrite bool_decide_eq_true_2.
Qed.

(** On the values here [isEqual], which is how a [Map] compares keys,
    is equality. *)
Lemma isEqual_eq (value1 value2 : Js.value) :
  isEqual value1 value2 = true <-> value1 = value2.
Proof.
  unfold isEqual. destruct (decide (value1 = value2)) as [->|Hne].
  - split; [done|intros _].
    destruct (strict_eq value2 value2) eqn:E; [done|].
    apply strict_eq_self in E. by subst.
  - split; [|done]. intros H. exfalso.
    apply orb_true_iff in H as [H|H].
    + apply strict_eq_true in H as [? _]. done.
    + apply andb_true_iff in H as [H1 H2].
      apply negb_true_iff, strict_eq_self in H1, H2. congruence.
Qed.





End Part000Facts.

Module StatsFacts.
Import Stats.

(** *** The handlers *)

Lemma falsy_not_inherited profileName :
  truthy profileName = false -> inherited (property profileName) = false.
Proof.
  destruct profileName as [name|]; simpl; [|done].
  intros H. apply negb_false_iff, String.eqb_eq in H. by subst.
Qed.

Lemma get_own st name profile :
  profiles (statsCache st) !! name = Some profile -> get st name = Own profile.
Proof. unfold get. by intros ->. Qed.

Lemma get_absent st name :
  profiles (statsCache st) !! name = None -> inherited name = false ->
  get st name = Absent.
Proof. unfold get. by intros -> ->. Qed.

Lemma get_inherited st name :
  profiles (statsCache st) !! name = None -> inherited name = true ->
  get st name = Inherited (prototype st !! name).
Proof. unfold get. by intros -> ->. Qed.

(** The add handler, by what [profiles[profileName]] finds. *)
Lemma add_cases options st :
  let k := property (profileName options) in
  createOnCacheAddIncrementCalls options st =
  match get st k with
  | Own profile =>
      Normal (with_profiles st (<[k := bump false profile]> (profiles (statsCache st))))
  | Inherited w =>
      Normal (with_prototype st (<[k := default Calls w]> (prototype st)))
  | Absent =>
      if truthy (profileName options)
      then Normal (with_profiles st (<[k := bump false zero]> (profiles (statsCache st))))
      else TypeError
  end.
Proof.
  intros k. unfold createOnCacheAddIncrementCalls. fold k.
  destruct (get st k) as [profile|w|] eqn:Hget; cbn [missing].
  - rewrite andb_false_r, Hget. done.
  - rewrite andb_false_r, Hget. done.
  - rewrite andb_true_r. destruct (truthy (profileName options)); [|by rewrite Hget].
    rewrite (get_own _ k zero) by (simpl; apply lookup_insert_eq).
    unfold with_profiles. simpl. by rewrite insert_insert_eq.
Qed.

(** The hit handler, by what [profiles[profileName]] finds. *)
Lemma hit_cases options st :
  let k := property (profileName options) in
  createOnCacheHitIncrementCallsAndHits options st =
  match get st k with
  | Own profile =>
      with_profiles st (<[k := bump true profile]> (profiles (statsCache st)))
  | Inherited w =>
      with_prototype st (<[k := CallsAndHits]> (prototype st))
  | Absent =>
      with_profiles st (<[k := bump true zero]> (profiles (statsCache st)))
  end.
Proof.
  intros k. unfold createOnCacheHitIncrementCallsAndHits. fold k.
  destruct (get st k) as [profile|w|] eqn:Hget; cbn [missing].
  - by rewrite Hget.
  - by rewrite Hget.
  - rewrite (get_own _ k zero) by (simpl; apply lookup_insert_eq).
    unfold with_profiles. simpl. by rewrite insert_insert_eq.
Qed.

Lemma get_default st k :
  inherited k = false ->
  get st k = match profiles (statsCache st) !! k with
             | Some profile => Own profile
             | None => Absent
             end.
Proof. unfold get. by intros ->. Qed.

Lemma add_truthy options st :
  truthy (profileName options) = true ->
  inherited (property (profileName options)) = false ->
  createOnCacheAddIncrementCalls options st =
  Normal (with_profiles st
            (<[property (profileName options) :=
                 bump false (default zero
                               (profiles (statsCache st) !! property (profileName options)))]>
               (profiles (statsCache st)))).
Proof.
  intros Ht Hi. rewrite add_cases. cbv zeta. rewrite (get_default _ _ Hi), Ht.
  by destruct (profiles (statsCache st) !! property (profileName options)).
Qed.

Lemma hit_profiles options st :
  inherited (property (profileName options)) = false ->
  createOnCacheHitIncrementCallsAndHits options st =
  with_profiles st
    (<[property (profileName options) :=
         bump true (default zero
                      (profiles (statsCache st) !! property (profileName options)))]>
       (profiles (statsCache st))).
Proof.
  intros Hi. rewrite hit_cases. cbv zeta. rewrite (get_default _ _ Hi).
  by destruct (profiles (statsCache st) !! property (profileName options)).
Qed.

Lemma add_falsy options st :
  truthy (profileName options) = false ->
  createOnCacheAddIncrementCalls options st =
  match profiles (statsCache st) !! property (profileName options) with
  | Some p =>
      Normal (with_profiles st
                (<[property (profileName options) := bump false p]>
                   (profiles (statsCache st))))
  | None => TypeError
  end.
Proof.
  intros Ht. rewrite add_cases. cbv zeta.
  rewrite (get_default _ _ (falsy_not_inherited _ Ht)), Ht.
  by destruct (profiles (statsCache st) !! property (profileName options)).
Qed.

(** Every handler keeps the profiles it does not name, and the profile
    with the empty name once it is there. *)
Lemma step_keeps_profile st e name :
  match e with ClearStats _ => False | _ => True end ->
  is_Some (profiles (statsCache st) !! name) ->
  is_Some (profiles (statsCache (step st e)) !! name).
Proof.
  intros He Hsome. destruct e as [o|o|n|b]; cbn [step]; [| |done|].
  - rewrite add_cases. cbv zeta.
    destruct (get st (property (profileName o))); [| |destruct (truthy _)];
      simpl; try done; rewrite lookup_insert; case_decide; eauto.
  - rewrite hit_cases. cbv zeta.
    destruct (get st (property (profileName o)));
      simpl; try done; rewrite lookup_insert; case_decide; eauto.
  - unfold collectStats. by destruct b as [[]|].
Qed.

Lemma counted_insert st k p :
  counted st -> hits p <= calls p ->
  counted (with_profiles st (<[k := p]> (profiles (statsCache st)))).
Proof.
  intros Hc Hp name q. simpl. rewrite lookup_insert.
  case_decide; [by intros [= <-]|]. apply Hc.
Qed.

Lemma counted_default st k :
  counted st ->
  hits (default zero (profiles (statsCache st) !! k)) <=
  calls (default zero (profiles (statsCache st) !! k)).
Proof.
  intros Hc. destruct (profiles (statsCache st) !! k) as [p|] eqn:Hp; simpl.
  - by eapply Hc.
  - lia.
Qed.

Lemma counted_step st e : counted st -> counted (step st e).
Proof.
  intros Hc. destruct e as [options|options|name|b]; cbn [step].
  - rewrite add_cases. cbv zeta.
    destruct (get st (property (profileName options))) as [p|w|] eqn:Hget.
    + apply counted_insert; [done|]. unfold get in Hget.
      destruct (profiles (statsCache st) !! property (profileName options))
        as [q|] eqn:Hq; [|by destruct (inherited _)].
      injection Hget as <-. specialize (Hc _ _ Hq). simpl. lia.
    + exact Hc.
    + destruct (truthy (profileName options)); [|done].
      apply counted_insert; [done|]. simpl. lia.
  - rewrite hit_cases. cbv zeta.
    destruct (get st (property (profileName options))) as [p|w|] eqn:Hget.
    + apply counted_insert; [done|]. unfold get in Hget.
      destruct (profiles (statsCache st) !! property (profileName options))
        as [q|] eqn:Hq; [|by destruct (inherited _)].
      injection Hget as <-. specialize (Hc _ _ Hq). simpl. lia.
    + exact Hc.
    + apply counted_insert; [done|]. simpl. lia.
  - unfold clearStats. destruct (truthy name); intros n q; simpl.
    + rewrite lookup_delete. case_decide; [done|]. apply Hc.
    + by rewrite lookup_empty.
  - exact Hc.
Qed.

Lemma completeStats_counted (ps : list (string * StatsProfile)) acc :
  hits acc <= calls acc ->
  Forall (fun np => hits np.2 <= calls np.2) ps ->
  let total := foldl (fun completeProfiles np =>
                        {| calls := calls completeProfiles + calls np.2;
                           hits := hits completeProfiles + hits np.2 |}) acc ps in
  hits total <= calls total.
Proof.
  revert acc. induction ps as [|np ps IH]; intros acc Hacc Hall; simpl; [done|].
  apply Forall_cons in Hall as [Hnp Hall].
  apply IH; [simpl; lia|done].
Qed.

(** X1: whatever handlers, [clearStats] and [collectStats] calls have
    run, no profile counts more hits than calls, and neither do the
    totals [getStats] sums up. *)
Theorem hits_never_exceed_calls :
  (forall st events, counted st -> counted (run events st)) /\
  (forall events, counted (run events initial)) /\
  (forall st, counted st ->
     hits (completeStats (map_to_list (profiles (statsCache st)))) <=
     calls (completeStats (map_to_list (profiles (statsCache st))))).
Proof.
  assert (forall st events, counted st -> counted (run events st)) as Hrun.
  { intros st events. revert st.
    induction events as [|e events IH]; intros st Hc; [done|].
    apply IH. by apply counted_step. }
  split; [exact Hrun|]. split.
  - intros events. apply Hrun. intros name p. simpl. by rewrite lookup_empty.
  - intros st Hc. apply completeStats_counted; [simpl; lia|].
    apply Forall_forall. intros [name p] Hin.
    apply elem_of_map_to_list in Hin. by eapply Hc.
Qed.

Lemma hits_never_exceed_calls_witness :
  counted (run [CacheHit (options_named (Some "f"));
                CacheAdd (options_named None);
                ClearStats (Some "g");
                CacheAdd (options_named (Some "f"))]
             (createOnCacheHitIncrementCallsAndHits (options_named None) initial)).
Proof.
  apply (proj1 hits_never_exceed_calls).
  rewrite hit_profiles by reflexivity.
  apply counted_insert; [|simpl; rewrite lookup_empty; simpl; lia].
  intros name p. simpl. by rewrite lookup_empty.
Defined.

(** The calls of one function with a usable profile name. *)
Lemma run_calls_profiles options cs st :
  truthy (profileName options) = true ->
  inherited (property (profileName options)) = false ->
  let k := property (profileName options) in
  let base := default zero (profiles (statsCache st) !! k) in
  run_calls options cs st =
  match cs with
  | [] => st
  | _ =>
      with_profiles st
        (<[k := {| calls := calls base + length cs;
                   hits := hits base + length (filter (eq true) cs) |}]>
           (profiles (statsCache st)))
  end.
Proof.
  intros Ht Hi k base. subst k base. revert st.
  induction cs as [|hit cs IH]; intros st; [done|].
  change (run_calls options (hit :: cs) st)
    with (run_calls options cs
            (step st (if hit then CacheHit options else CacheAdd options))).
  assert (step st (if hit then CacheHit options else CacheAdd options) =
          with_profiles st
            (<[property (profileName options) :=
                 bump hit (default zero (profiles (statsCache st)
                                           !! property (profileName options)))]>
               (profiles (statsCache st)))) as ->.
  { destruct hit; simpl; [by apply hit_profiles|by rewrite add_truthy]. }
  rewrite IH.
  destruct cs as [|hit' cs].
  - unfold with_profiles. simpl. do 3 f_equal.
    unfold bump. rewrite filter_cons, filter_nil.
    destruct hit; case_decide; try congruence; simpl; f_equal; lia.
  - unfold with_profiles. simpl. rewrite lookup_insert_eq, insert_insert_eq. simpl.
    do 3 f_equal. rewrite (filter_cons _ hit).
    destruct hit; case_decide; try congruence; simpl; f_equal; lia.
Qed.

(** X2: for a function with a non-empty profile name that is not the
    name of a member of [Object.prototype], after any sequence of cache
    adds and cache hits its profile has gained one call per call and
    one hit per hit, and every other profile, the collecting flag and
    the console are as before. *)
Theorem calls_and_hits_are_counted (options : Options) (cs : list bool)
  (st : state) :
  truthy (profileName options) = true ->
  inherited (property (profileName options)) = false ->
  let k := property (profileName options) in
  let base := default zero (profiles (statsCache st) !! k) in
  let st' := run_calls options cs st in
  (cs <> [] ->
   profiles (statsCache st') !! k =
   Some {| calls := calls base + length cs;
           hits := hits base + length (filter (eq true) cs) |}) /\
  (forall name, name <> k ->
     profiles (statsCache st') !! name = profiles (statsCache st) !! name) /\
  isCollectingStats (statsCache st') = isCollectingStats (statsCache st) /\
  console st' = console st.
Proof.
  intros Ht Hi k base st'. subst st'.
  rewrite (run_calls_profiles options cs st Ht Hi). fold k. fold base.
  destruct cs as [|hit cs].
  - split; [done|]. by repeat split.
  - split; [intros _; simpl; by rewrite lookup_insert_eq|].
    split; [|done]. intros name Hne. simpl. by rewrite lookup_insert_ne.
Qed.

Lemma calls_and_hits_are_counted_witness :
  profiles (statsCache (run_calls (options_named (Some "f"))
                          [false; true; true; false; true] initial)) !! "f" =
  Some {| calls := 5; hits := 3 |}.
Proof.
  refine (proj1 (calls_and_hits_are_counted (options_named (Some "f"))
                   [false; true; true; false; true] initial eq_refl eq_refl) _).
  discriminate.
Defined.

(** X3: the add handler throws exactly when the profile name is
    [undefined] or empty and no profile is stored under it; the hit
    handler creates that profile, so that after one hit the add handler
    of the same options no longer throws. *)
Theorem add_handler_throws_iff (options : Options) (st : state) :
  (createOnCacheAddIncrementCalls options st = TypeError <->
   truthy (profileName options) = false /\
   profiles (statsCache st) !! property (profileName options) = None) /\
  createOnCacheAddIncrementCalls options
    (createOnCacheHitIncrementCallsAndHits options st) <> TypeError.
Proof.
  split.
  - destruct (truthy (profileName options)) eqn:Ht.
    + rewrite add_cases. cbv zeta. rewrite Ht.
      destruct (get st (property (profileName options)));
        (split; [done|by intros [? _]]).
    + rewrite add_falsy by done.
      destruct (profiles (statsCache st) !! property (profileName options));
        split; try done. by intros [_ ?].
  - rewrite add_cases, hit_cases. cbv zeta.
    destruct (get st (property (profileName options))) as [p|w|] eqn:Hget.
    + rewrite (get_own _ _ (bump true p)) by (simpl; apply lookup_insert_eq). done.
    + unfold get in *. simpl.
      destruct (profiles (statsCache st) !! property (profileName options));
        [done|]. by destruct (inherited _).
    + rewrite (get_own _ _ (bump true zero)) by (simpl; apply lookup_insert_eq). done.
Qed.

(** *** [getStats] *)

Lemma warn_quiet st : quiet (warn st).
Proof.
  unfold quiet, warn.
  destruct (isCollectingStats (statsCache st)) eqn:Hc; simpl; [by rewrite Hc|].
  destruct (hasWarningDisplayed st) eqn:Hw; simpl.
  - by rewrite Hc, Hw.
  - by rewrite orb_true_r.
Qed.

Lemma warn_id st : quiet st -> warn st = st.
Proof.
  unfold quiet, warn. intros H.
  destruct (isCollectingStats (statsCache st)); simpl in *; [done|].
  by rewrite H.
Qed.

Lemma warn_statsCache st : statsCache (warn st) = statsCache st.
Proof.
  unfold warn.
  by destruct (negb (isCollectingStats (statsCache st)) && negb (hasWarningDisplayed st)).
Qed.

Lemma computedProfiles_same rec names acc st r st' :
  (forall name r st', rec name st = Some (r, st') -> st' = st) ->
  computedProfiles rec names acc st = Some (r, st') -> st' = st.
Proof.
  intros Hrec. revert acc r st'.
  induction names as [|name names IH]; intros acc r st'; simpl.
  - by intros [= _ <-].
  - destruct (rec (Some name) st) as [[x st1]|] eqn:Hx; [|done]. simpl.
    apply Hrec in Hx as ->. apply IH.
Qed.

Lemma getStats_quiet toFixed4 fuel name st r st' :
  quiet st -> getStats toFixed4 fuel name st = Some (r, st') -> st' = st.
Proof.
  revert name st r st'.
  induction fuel as [|fuel IH]; intros name st r st' Hq; [done|].
  simpl. rewrite (warn_id st Hq).
  destruct (truthy name).
  - destruct (get st (property name)); by intros [= _ <-].
  - destruct (computedProfiles _ _ _ st) as [[xs st1]|] eqn:Hxs; [|done].
    simpl. intros [= _ <-].
    eapply computedProfiles_same; [|exact Hxs].
    intros n r0 st0. by apply IH.
Qed.

Lemma getStats_warn toFixed4 fuel name st r st' :
  getStats toFixed4 fuel name st = Some (r, st') -> st' = warn st.
Proof.
  destruct fuel as [|fuel]; [done|]. simpl.
  destruct (truthy name).
  - destruct (get (warn st) (property name)); by intros [= _ <-].
  - destruct (computedProfiles _ _ _ (warn st)) as [[xs st1]|] eqn:Hxs; [|done].
    simpl. intros [= _ <-].
    eapply computedProfiles_same; [|exact Hxs].
    intros n r0 st0. apply getStats_quiet, warn_quiet.
Qed.

Lemma completeStats_sum (ps : list (string * StatsProfile)) :
  completeStats ps =
  {| calls := sum_list ((fun np => calls np.2) <$> ps);
     hits := sum_list ((fun np => hits np.2) <$> ps) |}.
Proof.
  unfold completeStats.
  assert (forall acc,
            foldl (fun completeProfiles np =>
                     {| calls := calls completeProfiles + calls np.2;
                        hits := hits completeProfiles + hits np.2 |}) acc ps =
            {| calls := calls acc + sum_list ((fun np => calls np.2) <$> ps);
               hits := hits acc + sum_list ((fun np => hits np.2) <$> ps) |}) as H.
  { induction ps as [|np ps IH]; intros acc; cbn [foldl].
    - destruct acc. simpl. f_equal; lia.
    - rewrite IH, !fmap_cons. simpl. f_equal; lia. }
  by rewrite H.
Qed.

Lemma getStats_S toFixed4 fuel st :
  getStats toFixed4 (S fuel) None st =
  '(computed, st') ← computedProfiles (getStats toFixed4 fuel)
                       (map_to_list (profiles (statsCache (warn st)))).*1 ∅ (warn st);
  let total := completeStats (map_to_list (profiles (statsCache (warn st)))) in
  Some (Stats_ (calls total) (hits total)
               (getUsagePercentage toFixed4 (calls total) (hits total))
               (Some computed),
        st').
Proof. reflexivity. Qed.

Lemma warn_prototype st : prototype (warn st) = prototype st.
Proof. unfold warn. by destruct (_ && _). Qed.

Lemma get_warn st name : get (warn st) name = get st name.
Proof. unfold get. by rewrite warn_statsCache, warn_prototype. Qed.

Lemma getStats_named toFixed4 fuel name st :
  truthy name = true ->
  getStats toFixed4 (S fuel) name st =
  Some (match get st (property name) with
        | Own profile => entry toFixed4 (Some profile)
        | Inherited w => Spread_ w "0.0000%"
        | Absent => entry toFixed4 None
        end, warn st).
Proof.
  intros Ht. simpl. rewrite Ht, get_warn.
  by destruct (get st (property name)).
Qed.

Lemma truthy_Some name : name <> "" -> truthy (Some name) = true.
Proof. intros Hne. simpl. by apply negb_true_iff, String.eqb_neq. Qed.

Lemma computedProfiles_named toFixed4 fuel names acc st :
  quiet st ->
  Forall (fun name => name <> "" /\ is_Some (profiles (statsCache st) !! name)) names ->
  computedProfiles (getStats toFixed4 (S fuel)) names acc st =
  Some (foldl (fun acc name =>
                 <[name := entry toFixed4 (profiles (statsCache st) !! name)]> acc)
              acc names, st).
Proof.
  intros Hq. revert acc.
  induction names as [|name names IH]; intros acc Hall; [done|].
  apply Forall_cons in Hall as [[Hname [profile Hp]] Hall].
  cbn [computedProfiles foldl]. rewrite getStats_named by by apply truthy_Some.
  cbn [mbind option_bind]. rewrite (warn_id st Hq), (IH _ Hall).
  change (property (Some name)) with name.
  by rewrite (get_own _ _ _ Hp), Hp.
Qed.

Lemma computed_lookup (f : string -> GlobalStatsObject) (names : list string)
  (acc : gmap string GlobalStatsObject) (k : string) :
  foldl (fun acc name => <[name := f name]> acc) acc names !! k =
  if decide (k ∈ names) then Some (f k) else acc !! k.
Proof.
  revert acc. induction names as [|name names IH]; intros acc; [done|].
  cbn [foldl]. rewrite IH.
  destruct (decide (k ∈ names)) as [Hin|Hnot].
  - rewrite decide_True; [done|by right].
  - destruct (decide (k = name)) as [->|Hne].
    + rewrite decide_True by by left. apply lookup_insert_eq.
    + rewrite decide_False, lookup_insert_ne; [done|done|].
      intros [?|?]%elem_of_cons; done.
Qed.

(** Every call with a profile name that is not empty returns, and so
    does every call without one when no profile has the empty name;
    the result does not depend on the fuel, and the state is the one
    the first statement leaves. *)
Lemma getStats_returns toFixed4 name st :
  truthy name = true \/ profiles (statsCache st) !! "" = None ->
  exists r, forall fuel,
    getStats toFixed4 (S (S fuel)) name st = Some (r, warn st).
Proof.
  destruct (truthy name) eqn:Ht.
  - intros _. eexists. intros fuel. by rewrite getStats_named.
  - intros [?|Hempty]; [done|].
    assert (forall fuel, getStats toFixed4 (S (S fuel)) name st =
                         getStats toFixed4 (S (S fuel)) None st) as Hnone.
    { intros fuel. simpl. by rewrite Ht. }
    eexists. intros fuel.
    rewrite Hnone, getStats_S, computedProfiles_named; [|apply warn_quiet|].
    + cbn [mbind option_bind]. cbv zeta. reflexivity.
    + apply Forall_fmap, Forall_forall. intros [n profile] Hin.
      apply elem_of_map_to_list in Hin.
      simpl. rewrite Hin. split; [|eauto].
      rewrite warn_statsCache in Hin. intros ->. congruence.
Qed.

(** X6: a call of [getStats] with a profile name that is not empty,
    or without one when no profile has the empty name, returns.  It
    leaves the statistics as they are and prints the warning exactly
    when statistics are not being collected and the warning has not
    been printed before; every later such call returns as well and
    changes nothing at all, so that the warning is printed once. *)
Theorem getStats_reads_and_warns_once (toFixed4 : nat -> nat -> string)
  (name : option string) (st : state) :
  truthy name = true \/ profiles (statsCache st) !! "" = None ->
  exists r st',
    (forall fuel, getStats toFixed4 (S (S fuel)) name st = Some (r, st')) /\
    statsCache st' = statsCache st /\
    prototype st' = prototype st /\
    hasWarningDisplayed st' =
      hasWarningDisplayed st || negb (isCollectingStats (statsCache st)) /\
    console st' =
      console st ++
      (if isCollectingStats (statsCache st) || hasWarningDisplayed st
       then [] else [warning]) /\
    (forall name2,
       truthy name2 = true \/ profiles (statsCache st) !! "" = None ->
       exists r2, forall fuel,
         getStats toFixed4 (S (S fuel)) name2 st' = Some (r2, st')).
Proof.
  intros Hname. destruct (getStats_returns toFixed4 name st Hname) as (r & Hr).
  exists r, (warn st). split; [done|].
  split; [apply warn_statsCache|]. split; [apply warn_prototype|].
  split; [|split].
  - unfold warn.
    destruct (isCollectingStats (statsCache st)); simpl; [by rewrite orb_false_r|].
    rewrite orb_true_r. by destruct (hasWarningDisplayed st) eqn:Hw.
  - unfold warn.
    destruct (isCollectingStats (statsCache st)); simpl; [by rewrite app_nil_r|].
    destruct (hasWarningDisplayed st); simpl; [by rewrite app_nil_r|done].
  - intros name2 Hname2.
    destruct (getStats_returns toFixed4 name2 (warn st)) as (r2 & Hr2).
    { by rewrite warn_statsCache. }
    exists r2. intros fuel.
    by rewrite Hr2, (warn_id (warn st)) by apply warn_quiet.
Qed.

Lemma getStats_reads_and_warns_once_witness :
  exists r st',
    getStats sample_toFixed4 2 None
      (run_calls (options_named (Some "f")) [false; true] initial) = Some (r, st') /\
    console st' = [warning] /\
    exists r2, getStats sample_toFixed4 2 None st' = Some (r2, st').
Proof.
  destruct (getStats_reads_and_warns_once sample_toFixed4 None
              (run_calls (options_named (Some "f")) [false; true] initial))
    as (r & st' & Hr & _ & _ & _ & Hc & Hagain).
  { right. reflexivity. }
  exists r, st'. split; [exact (Hr 0)|]. split; [exact Hc|].
  destruct (Hagain None) as (r2 & Hr2); [right; reflexivity|].
  exists r2. exact (Hr2 0).
Defined.

(** X4: when no profile has the empty name, [getStats()] returns with
    two levels of calls: the totals are the sums of the calls and of
    the hits of all profiles, and [profiles] holds for every profile
    exactly what [getStats(name)] returns for it. *)
Theorem getStats_complete (toFixed4 : nat -> nat -> string) (fuel : nat)
  (st : state) :
  profiles (statsCache st) !! "" = None ->
  let ps := map_to_list (profiles (statsCache st)) in
  let total_calls := sum_list ((fun np => calls np.2) <$> ps) in
  let total_hits := sum_list ((fun np => hits np.2) <$> ps) in
  getStats toFixed4 (S (S fuel)) None st =
    Some (Stats_ total_calls total_hits
                 (getUsagePercentage toFixed4 total_calls total_hits)
                 (Some ((fun profile => entry toFixed4 (Some profile))
                          <$> profiles (statsCache st))),
          warn st) /\
  (forall name profile,
     profiles (statsCache st) !! name = Some profile ->
     getStats toFixed4 (S fuel) (Some name) (warn st) =
     Some (entry toFixed4 (Some profile), warn st)).
Proof.
  intros Hempty ps total_calls total_hits.
  assert (forall name profile, profiles (statsCache st) !! name = Some profile ->
            name <> "") as Hps.
  { intros name profile Hin ->. congruence. }
  split.
  - rewrite getStats_S, warn_statsCache. fold ps.
    rewrite computedProfiles_named; [|apply warn_quiet|].
    + cbn [mbind option_bind]. cbv zeta. rewrite completeStats_sum.
      cbn [calls hits]. fold total_calls total_hits.
      do 4 f_equal. apply map_eq. intros k.
      rewrite (computed_lookup
                 (fun name => entry toFixed4 (profiles (statsCache (warn st)) !! name))).
      rewrite lookup_fmap, lookup_empty, warn_statsCache.
      destruct (profiles (statsCache st) !! k) as [profile|] eqn:Hk.
      * rewrite decide_True; [done|].
        apply list_elem_of_fmap. exists (k, profile).
        split; [done|]. by apply elem_of_map_to_list.
      * rewrite decide_False; [done|].
        intros ([k' profile] & -> & Hin)%list_elem_of_fmap.
        apply elem_of_map_to_list in Hin. simpl in Hk. congruence.
    + apply Forall_fmap, Forall_forall. intros [name profile] Hin.
      apply elem_of_map_to_list in Hin.
      simpl. rewrite warn_statsCache, Hin. split; [by eapply Hps|eauto].
  - intros name profile Hl.
    rewrite getStats_named by (apply truthy_Some; by eapply Hps).
    rewrite get_warn, (warn_id (warn st)) by apply warn_quiet.
    change (property (Some name)) with name. by rewrite (get_own _ _ _ Hl).
Qed.

Lemma getStats_complete_witness :
  exists r st',
    getStats sample_toFixed4 2 None
      (run_calls (options_named (Some "f")) [false; true; true] initial) =
      Some (r, st') /\
    stats_calls r = Some 3 /\ stats_hits r = Some 2 /\
    stats_profiles r = Some {["f" := Stats_ 3 2 "2/3%" None]}.
Proof.
  pose proof (getStats_complete sample_toFixed4 0
                (run_calls (options_named (Some "f")) [false; true; true] initial)
                eq_refl) as [H _].
  eexists _, _. split; [exact H|]. by vm_compute.
Defined.

Lemma computedProfiles_none rec names acc st (P : state -> Prop) name :
  (forall n st r st', P st -> rec n st = Some (r, st') -> P st') ->
  (forall st, P st -> rec (Some name) st = None) ->
  name ∈ names -> P st ->
  computedProfiles rec names acc st = None.
Proof.
  intros Hkeep Hnone. revert acc st.
  induction names as [|n names IH]; intros acc st Hin HP; [inversion Hin|].
  simpl. apply elem_of_cons in Hin as [<-|Hin].
  - by rewrite Hnone.
  - destruct (rec (Some n) st) as [[x st1]|] eqn:Hx; [|done]. simpl.
    apply IH; [done|]. by eapply Hkeep.
Qed.

Lemma getStats_never_returns toFixed4 fuel name st :
  is_Some (profiles (statsCache st) !! "") ->
  truthy name = false ->
  getStats toFixed4 fuel name st = None.
Proof.
  revert name st. induction fuel as [|fuel IH]; intros name st Hsome Hname; [done|].
  cbn [getStats]. rewrite Hname.
  rewrite (computedProfiles_none _ _ _ _
             (fun st0 => is_Some (profiles (statsCache st0) !! "")) ""); [done|..].
  - intros n st0 r st0' H0 Hget. apply getStats_warn in Hget as ->.
    by rewrite warn_statsCache.
  - intros st0 H0. by apply IH.
  - destruct Hsome as [p Hp]. rewrite warn_statsCache.
    apply list_elem_of_fmap. exists ("", p). split; [done|].
    by apply elem_of_map_to_list.
  - by rewrite warn_statsCache.
Qed.

(** X5: once a cache hit was recorded for options whose profile name is
    the empty string, a profile with the empty name exists, and from
    then on [getStats()] never returns: its call [getStats("")] for that
    profile asks for the complete statistics again.  Handlers for other
    profiles do not change this. *)
Theorem getStats_recurses_forever_on_empty_name (toFixed4 : nat -> nat -> string)
  (options : Options) (st : state) (events : list event) (fuel : nat) :
  profileName options = Some "" ->
  Forall (fun e => match e with ClearStats _ => False | _ => True end) events ->
  getStats toFixed4 fuel None
    (run events (createOnCacheHitIncrementCallsAndHits options st)) = None.
Proof.
  intros Hname Hevents. apply getStats_never_returns; [|done].
  assert (is_Some (profiles (statsCache
                      (createOnCacheHitIncrementCallsAndHits options st)) !! ""))
    as Hsome.
  { rewrite hit_profiles by by rewrite Hname.
    rewrite Hname. simpl. rewrite lookup_insert_eq. eauto. }
  revert Hsome. generalize (createOnCacheHitIncrementCallsAndHits options st).
  induction events as [|e events IH]; intros st0 Hsome; [done|].
  apply Forall_cons in Hevents as [He Hevents].
  apply (IH Hevents). by apply step_keeps_profile.
Qed.

Lemma getStats_recurses_forever_on_empty_name_witness :
  getStats sample_toFixed4 1000 None
    (run [CacheAdd (options_named (Some "f"))]
       (createOnCacheHitIncrementCallsAndHits (options_named (Some "")) initial)) =
  None.
Proof.
  apply getStats_recurses_forever_on_empty_name; [reflexivity|].
  by repeat constructor.
Defined.

(** X7: after [clearStats(name)] with a non-empty name that is not the
    name of a member of [Object.prototype], [getStats(name)] reports
    zero calls, zero hits and ["0.0000%"], and every other profile
    reports what it did before; [clearStats] with the empty string, as
    without a name, removes every profile. *)
Theorem clearStats_then_getStats (toFixed4 : nat -> nat -> string)
  (fuel : nat) (name : string) (st : state) :
  name <> "" -> inherited name = false ->
  fst <$> getStats toFixed4 (S fuel) (Some name) (clearStats (Some name) st) =
    Some (Stats_ 0 0 "0.0000%" None) /\
  (forall other, other <> "" -> other <> name ->
     fst <$> getStats toFixed4 (S fuel) (Some other) (clearStats (Some name) st) =
     fst <$> getStats toFixed4 (S fuel) (Some other) st) /\
  clearStats (Some "") st = clearStats None st /\
  (forall other, other <> "" -> inherited other = false ->
     fst <$> getStats toFixed4 (S fuel) (Some other) (clearStats None st) =
     Some (Stats_ 0 0 "0.0000%" None)).
Proof.
  intros Hname Hi.
  unfold clearStats. rewrite (truthy_Some name Hname).
  split; [|split; [|split]].
  - rewrite getStats_named by by apply truthy_Some.
    change (property (Some name)) with name.
    rewrite get_absent; [done| |done]. simpl. apply lookup_delete_eq.
  - intros other Ho Hne. rewrite !getStats_named by by apply truthy_Some.
    change (property (Some other)) with other. unfold get. simpl.
    by rewrite lookup_delete_ne.
  - done.
  - intros other Ho Hio. rewrite getStats_named by by apply truthy_Some.
    change (property (Some other)) with other.
    rewrite get_absent; [done| |done]. simpl. apply lookup_empty.
Qed.

Lemma clearStats_then_getStats_witness :
  fst <$> getStats sample_toFixed4 1 (Some "f")
            (clearStats (Some "f")
               (run_calls (options_named (Some "f")) [false; true] initial)) =
  Some (Stats_ 0 0 "0.0000%" None).
Proof.
  refine (proj1 (clearStats_then_getStats sample_toFixed4 0 "f" _ _ eq_refl)).
  discriminate.
Defined.

(** *** Profile names that [Object.prototype] defines *)

Lemma step_inherited options (hit : bool) st :
  let k := property (profileName options) in
  inherited k = true -> profiles (statsCache st) !! k = None ->
  step st (if hit then CacheHit options else CacheAdd options) =
  with_prototype st
    (<[k := if hit then CallsAndHits else default Calls (prototype st !! k)]>
       (prototype st)).
Proof.
  intros k Hi Hp. destruct hit; cbn [step].
  - rewrite hit_cases. cbv zeta. fold k. by rewrite get_inherited.
  - rewrite add_cases. cbv zeta. fold k. by rewrite get_inherited.
Qed.

Lemma run_calls_inherited options cs st :
  let k := property (profileName options) in
  inherited k = true -> profiles (statsCache st) !! k = None ->
  statsCache (run_calls options cs st) = statsCache st /\
  (cs <> [] ->
   prototype (run_calls options cs st) !! k =
   Some (if existsb id cs then CallsAndHits
         else default Calls (prototype st !! k))).
Proof.
  intros k Hi. revert st.
  induction cs as [|hit cs IH]; intros st Hp; [done|].
  change (run_calls options (hit :: cs) st)
    with (run_calls options cs
            (step st (if hit then CacheHit options else CacheAdd options))).
  rewrite (step_inherited options hit st Hi Hp). fold k.
  destruct (IH (with_prototype st
                  (<[k := if hit then CallsAndHits
                          else default Calls (prototype st !! k)]> (prototype st))) Hp)
    as [Hcache Hproto].
  split; [exact Hcache|]. intros _.
  destruct cs as [|hit' cs].
  - simpl. rewrite lookup_insert_eq. by destruct hit.
  - rewrite Hproto by done. simpl. rewrite lookup_insert_eq.
    destruct hit, hit'; simpl; try done; by destruct (existsb id cs).
Qed.

(** X8: a function whose profile name is the name of a member of
    [Object.prototype], such as [toString], is never counted: its
    handlers do not throw and leave [statsCache] as it is, and after
    its calls [getStats(name)] returns an object without numbers of
    calls and hits, with the usage ["0.0000%"]. *)
Theorem prototype_member_names_are_not_counted (toFixed4 : nat -> nat -> string)
  (fuel : nat) (options : Options) (cs : list bool) (st : state) :
  let k := property (profileName options) in
  let st' := run_calls options cs st in
  inherited k = true -> profiles (statsCache st) !! k = None ->
  statsCache st' = statsCache st /\
  createOnCacheAddIncrementCalls options st' <> TypeError /\
  (cs <> [] ->
   fst <$> getStats toFixed4 (S fuel) (profileName options) st' =
   Some (Spread_ (Some (if existsb id cs then CallsAndHits
                        else default Calls (prototype st !! k)))
                 "0.0000%")).
Proof.
  intros k st' Hi Hp.
  destruct (run_calls_inherited options cs st Hi Hp) as [Hcache Hproto].
  fold k st' in Hcache, Hproto.
  assert (get st' k = Inherited (prototype st' !! k)) as Hget.
  { apply get_inherited; [|done]. by rewrite Hcache. }
  split; [exact Hcache|]. split.
  - rewrite add_cases. cbv zeta. fold k. by rewrite Hget.
  - intros Hcs. rewrite getStats_named.
    + fold k. rewrite Hget, Hproto by done. done.
    + destruct (truthy (profileName options)) eqn:Ht; [done|].
      apply falsy_not_inherited in Ht. fold k in Ht. congruence.
Qed.

Lemma prototype_member_names_are_not_counted_witness :
  profiles (statsCache (run_calls (options_named (Some "toString"))
                          [false; true] initial)) = ∅ /\
  fst <$> getStats sample_toFixed4 1 (Some "toString")
            (run_calls (options_named (Some "toString")) [false; true] initial) =
  Some (Spread_ (Some CallsAndHits) "0.0000%").
Proof.
  destruct (prototype_member_names_are_not_counted sample_toFixed4 0
              (options_named (Some "toString")) [false; true] initial
              eq_refl eq_refl) as (Hcache & _ & Hget).
  split; [by rewrite Hcache|]. by apply Hget.
Defined.

End StatsFacts.

Module LoopsFacts.

Lemma get_lookup array i x : array !! i = Some x -> Loops.get array i = x.
Proof. unfold Loops.get. by intros ->. Qed.

Lemma get_past array i : length array <= i -> Loops.get array i = VUndefined.
Proof. intros H. unfold Loops.get. by rewrite lookup_ge_None_2. Qed.

Lemma set_inside array i v :
  i < length array -> Loops.set array i v = <[i := v]> array.
Proof. intros H. unfold Loops.set. apply Nat.ltb_lt in H. by rewrite H. Qed.

Lemma set_end array v : Loops.set array (length array) v = array ++ [v].
Proof.
  unfold Loops.set. rewrite Nat.ltb_irrefl, Nat.sub_diag. done.
Qed.

(** One iteration of the loops of [splice] moves the hole one place
    up. *)
Lemma shifted_step (front back : list Js.value) (x : Js.value) :
  let array := front ++ x :: back in
  Loops.set array (length front) (Loops.get array (length front + 1)) =
  front ++ Loops.get back 0 :: back.
Proof.
  intros array. subst array. rewrite set_inside.
  - rewrite insert_app_r_alt by lia. rewrite Nat.sub_diag. simpl. do 2 f_equal.
    unfold Loops.get. rewrite lookup_app_r by lia.
    by replace (length front + 1 - length front) with 1 by lia.
  - rewrite length_app. simpl. lia.
Qed.

Lemma splice_while_past fuel array index length :
  length <= index -> Loops.splice_while fuel array index length = Some array.
Proof.
  intros H. apply Nat.ltb_ge in H. destruct fuel; simpl; by rewrite H.
Qed.

Lemma utils_splice_while_past fuel array index :
  length array <= index -> Loops.utils_splice_while fuel array index = Some array.
Proof.
  intros H. apply Nat.ltb_ge in H. destruct fuel; simpl; by rewrite H.
Qed.

(** After the loop the array has lost the entry at [index], every later
    entry is one place down, and the last place holds [undefined]. *)
Lemma splice_while_spec fuel (front back : list Js.value) (x : Js.value) :
  length back < fuel ->
  Loops.splice_while fuel (front ++ x :: back) (length front)
                     (length (front ++ x :: back)) =
  Some (front ++ back ++ [VUndefined]).
Proof.
  revert front x fuel.
  induction back as [|y back IH]; intros front x fuel Hfuel;
    (destruct fuel as [|fuel]; [simpl in Hfuel; lia|]).
  - cbn [Loops.splice_while].
    assert ((length front <? length (front ++ [x])) = true) as ->.
    { apply Nat.ltb_lt. rewrite length_app. simpl. lia. }
    rewrite (shifted_step front [] x).
    change (Loops.get [] 0) with VUndefined.
    rewrite splice_while_past; [done|]. rewrite length_app. simpl. lia.
  - cbn [Loops.splice_while].
    assert ((length front <? length (front ++ x :: y :: back)) = true) as ->.
    { apply Nat.ltb_lt. rewrite length_app. simpl. lia. }
    rewrite (shifted_step front (y :: back) x). simpl Loops.get.
    change (Loops.get (y :: back) 0) with y.
    replace (length (front ++ x :: y :: back))
      with (length ((front ++ [y]) ++ y :: back))
      by (rewrite !length_app; simpl; lia).
    replace (length front + 1) with (length (front ++ [y]))
      by (rewrite length_app; simpl; lia).
    replace (front ++ y :: y :: back) with ((front ++ [y]) ++ y :: back)
      by by rewrite <- app_assoc.
    rewrite IH by (simpl in Hfuel; lia).
    by rewrite <- app_assoc.
Qed.

Lemma utils_splice_while_spec fuel (front back : list Js.value) (x : Js.value) :
  length back < fuel ->
  Loops.utils_splice_while fuel (front ++ x :: back) (length front) =
  Some (front ++ back ++ [VUndefined]).
Proof.
  revert front x fuel.
  induction back as [|y back IH]; intros front x fuel Hfuel;
    (destruct fuel as [|fuel]; [simpl in Hfuel; lia|]).
  - cbn [Loops.utils_splice_while].
    assert ((length front <? length (front ++ [x])) = true) as ->.
    { apply Nat.ltb_lt. rewrite length_app. simpl. lia. }
    rewrite (shifted_step front [] x).
    change (Loops.get [] 0) with VUndefined.
    rewrite utils_splice_while_past; [done|]. rewrite length_app. simpl. lia.
  - cbn [Loops.utils_splice_while].
    assert ((length front <? length (front ++ x :: y :: back)) = true) as ->.
    { apply Nat.ltb_lt. rewrite length_app. simpl. lia. }
    rewrite (shifted_step front (y :: back) x).
    change (Loops.get (y :: back) 0) with y.
    replace (length front + 1) with (length (front ++ [y]))
      by (rewrite length_app; simpl; lia).
    replace (front ++ y :: y :: back) with ((front ++ [y]) ++ y :: back)
      by by rewrite <- app_assoc.
    rewrite IH by (simpl in Hfuel; lia).
    by rewrite <- app_assoc.
Qed.

Lemma set_length_app (front : list Js.value) (x : Js.value) :
  Loops.set_length (front ++ [x]) (length front) = front.
Proof.
  unfold Loops.set_length.
  assert ((length front <=? length (front ++ [x])) = true) as ->.
  { apply Nat.leb_le. rewrite length_app. lia. }
  by rewrite take_app_length.
Qed.

Lemma set_length_removelast (array : list Js.value) :
  Loops.set_length array (length array - 1) = firstn (length array - 1) array.
Proof.
  unfold Loops.set_length.
  assert ((length array - 1 <=? length array) = true) as ->; [|done].
  apply Nat.leb_le. lia.
Qed.

(** The loops of [unshift] move every entry one place up, from the last
    one down. *)
Lemma unshift_while_spec (front back : list Js.value) :
  front <> [] ->
  Loops.unshift_while (front ++ back) (length front) =
  match front with
  | [] => back
  | x :: _ => x :: front ++ drop 1 back
  end.
Proof.
  revert back. induction front as [|y front IH] using rev_ind; [done|].
  intros back _. rewrite length_app. simpl. rewrite Nat.add_1_r.
  cbn [Loops.unshift_while].
  replace (S (length front) - 1) with (length front) by lia.
  rewrite (get_lookup _ _ y)
    by (rewrite <- app_assoc; apply list_lookup_middle; done).
  assert (Loops.set ((front ++ [y]) ++ back) (S (length front)) y =
          front ++ (y :: y :: drop 1 back)) as ->.
  { destruct back as [|z back].
    - rewrite app_nil_r.
      replace (S (length front)) with (length (front ++ [y]))
        by (rewrite length_app; simpl; lia).
      rewrite set_end. by rewrite <- app_assoc.
    - rewrite set_inside by (rewrite !length_app; simpl; lia).
      rewrite <- app_assoc. simpl.
      replace (S (length front)) with (length front + 1) by lia.
      rewrite insert_app_r. simpl. by rewrite drop_0. }
  destruct front as [|x front].
  - done.
  - rewrite (IH (y :: y :: drop 1 back)) by done. simpl.
    by rewrite <- app_assoc.
Qed.

Lemma utils_unshift_while_eq array index :
  Loops.utils_unshift_while array index = Loops.unshift_while array index.
Proof.
  revert array. induction index as [|index IH]; intros array; [done|].
  cbn [Loops.utils_unshift_while Loops.unshift_while].
  rewrite IH. by rewrite Nat.add_1_r, Nat.sub_succ, Nat.sub_0_r.
Qed.

Lemma unshift_loops array item : Loops.unshift array item = item :: array.
Proof.
  unfold Loops.unshift. destruct array as [|x array].
  - done.
  - pose proof (unshift_while_spec (x :: array) []) as H.
    rewrite app_nil_r in H. rewrite H by done.
    rewrite set_inside by (simpl; lia). simpl. by rewrite app_nil_r.
Qed.

Lemma closed_splice_middle (front back : list Js.value) (x : Js.value) :
  Part000.splice (front ++ x :: back) (length front) = front ++ back /\
  Utils.splice (front ++ x :: back) (length front) = front ++ back.
Proof.
  unfold Part000.splice, Utils.splice.
  assert ((length (front ++ x :: back) =? 0) = false) as ->.
  { apply Nat.eqb_neq. rewrite length_app. simpl. lia. }
  assert ((length front <? length (front ++ x :: back)) = true) as ->.
  { apply Nat.ltb_lt. rewrite length_app. simpl. lia. }
  rewrite take_app_length.
  replace (S (length front)) with (length (front ++ [x]))
    by (rewrite length_app; simpl; lia).
  replace (front ++ x :: back) with ((front ++ [x]) ++ back)
    by by rewrite <- app_assoc.
  by rewrite drop_app_length.
Qed.

(** X9: the loops of [splice] and [unshift], in part_000 and in
    utils.js, compute what their descriptions say: [splice] returns
    the array without the entry at the index, the others in their
    order, drops the last entry when the index is past the end and
    leaves an empty array as it is; [unshift] puts the item in front
    of the entries.  A number of iterations above the length is
    enough. *)
Theorem splice_and_unshift_loops (array : list Js.value) (index fuel : nat)
  (item : Js.value) :
  length array < fuel ->
  Loops.splice fuel array index = Some (Part000.splice array index) /\
  Loops.utils_splice fuel array index = Some (Utils.splice array index) /\
  Part000.splice array index =
    (if index <? length array then delete index array
     else firstn (length array - 1) array) /\
  Loops.unshift array item = Part000.unshift array item /\
  Loops.utils_unshift array item = (Utils.unshift array item, item) /\
  Part000.unshift array item = item :: array.
Proof.
  intros Hfuel.
  assert (Part000.splice array index =
          if index <? length array then delete index array
          else firstn (length array - 1) array) as Hclosed.
  { unfold Part000.splice. destruct (length array =? 0) eqn:E0.
    - apply Nat.eqb_eq in E0. destruct array; [|done].
      by destruct (index <? _).
    - destruct (index <? length array); [|done]. by rewrite delete_take_drop. }
  assert (Loops.unshift array item = item :: array) as Hunshift
    by apply unshift_loops.
  split; [|split; [|split; [exact Hclosed|split; [exact Hunshift|split; [|done]]]]].
  - destruct (decide (index < length array)) as [Ei|Ei].
    + destruct (lookup_lt_is_Some_2 array index Ei) as [x Hx].
      apply list_elem_of_split_length in Hx as (front & back & -> & ->).
      rewrite (proj1 (closed_splice_middle front back x)).
      unfold Loops.splice.
      assert ((length (front ++ x :: back) =? 0) = false) as ->.
      { apply Nat.eqb_neq. rewrite length_app. simpl. lia. }
      rewrite splice_while_spec
        by (rewrite length_app in Hfuel; simpl in Hfuel; lia).
      cbn [mbind option_bind]. f_equal.
      replace (length (front ++ x :: back) - 1) with (length (front ++ back))
        by (rewrite !length_app; simpl; lia).
      rewrite app_assoc. apply set_length_app.
    + unfold Loops.splice, Part000.splice.
      destruct (length array =? 0) eqn:E0; [done|].
      assert ((index <? length array) = false) as -> by (apply Nat.ltb_ge; lia).
      rewrite splice_while_past by lia.
      cbn [mbind option_bind]. by rewrite set_length_removelast.
  - destruct (decide (index < length array)) as [Ei|Ei].
    + destruct (lookup_lt_is_Some_2 array index Ei) as [x Hx].
      apply list_elem_of_split_length in Hx as (front & back & -> & ->).
      rewrite (proj2 (closed_splice_middle front back x)).
      unfold Loops.utils_splice.
      assert ((length (front ++ x :: back) =? 0) = false) as ->.
      { apply Nat.eqb_neq. rewrite length_app. simpl. lia. }
      rewrite utils_splice_while_spec
        by (rewrite length_app in Hfuel; simpl in Hfuel; lia).
      cbn [mbind option_bind]. f_equal.
      replace (length (front ++ back ++ [VUndefined]) - 1)
        with (length (front ++ back))
        by (rewrite !length_app; simpl; lia).
      rewrite app_assoc. apply set_length_app.
    + unfold Loops.utils_splice, Utils.splice.
      destruct (length array =? 0) eqn:E0; [done|].
      assert ((index <? length array) = false) as -> by (apply Nat.ltb_ge; lia).
      rewrite utils_splice_while_past by lia.
      cbn [mbind option_bind]. by rewrite set_length_removelast.
  - unfold Loops.utils_unshift. rewrite utils_unshift_while_eq.
    fold (Loops.unshift array item). by rewrite Hunshift.
Qed.

Lemma splice_and_unshift_loops_witness :
  Loops.splice 4 [VNum 1; VNum 2; VNum 3] 1 = Some [VNum 1; VNum 3] /\
  Loops.utils_unshift [VNum 1; VNum 2; VNum 3] (VNum 0) =
    ([VNum 0; VNum 1; VNum 2; VNum 3], VNum 0).
Proof.
  destruct (splice_and_unshift_loops [VNum 1; VNum 2; VNum 3] 1 4 (VNum 0))
    as (H1 & _ & _ & _ & H2 & _); [simpl; lia|].
  split; [exact H1|exact H2].
Defined.

End LoopsFacts.

Module UsageFacts.
Import Part000 Usage.

Lemma strict_eq_iff (x k : Js.value) :
  strict_eq x k = true <-> x = k /\ k <> VNaN.
Proof.
  unfold strict_eq.
  destruct x, k; try rewrite bool_decide_eq_true; split;
    try done; try (by intros [? ?]); intros ->; done.
Qed.

Lemma indexOf_find array k :
  indexOf array k =
  match list_find (fun x => strict_eq x k = true) array with
  | Some (i, _) => Z.of_nat i
  | None => (-1)%Z
  end.
Proof.
  unfold indexOf.
  assert (forall base,
            indexOf_from array base k =
            match list_find (fun x => strict_eq x k = true) array with
            | Some (i, _) => Z.of_nat (base + i)
            | None => (-1)%Z
            end) as H.
  { induction array as [|x rest IH]; intros base; simpl; [done|].
    case_decide as Hx.
    - rewrite Hx. f_equal. lia.
    - apply not_true_is_false in Hx. rewrite Hx, IH.
      destruct (list_find _ rest) as [[i y]|]; simpl; [|done]. f_equal. lia. }
  by rewrite H.
Qed.

Lemma indexOf_NaN array : indexOf array VNaN = (-1)%Z.
Proof.
  rewrite indexOf_find.
  destruct (list_find _ array) as [[i y]|] eqn:Hf; [|done].
  apply list_find_Some in Hf as (_ & Hy & _).
  apply strict_eq_iff in Hy as [_ Hy]. done.
Qed.

Lemma indexOf_notin array k : k ∉ array -> indexOf array k = (-1)%Z.
Proof.
  intros Hk. rewrite indexOf_find.
  destruct (list_find _ array) as [[i y]|] eqn:Hf; [|done].
  apply list_find_Some in Hf as (Hl & Hy & _).
  apply strict_eq_iff in Hy as [-> _].
  apply list_elem_of_lookup_2 in Hl. done.
Qed.

Lemma indexOf_NoDup array i k :
  NoDup array -> k <> VNaN -> array !! i = Some k ->
  indexOf array k = Z.of_nat i.
Proof.
  intros Hnd Hk Hi. rewrite indexOf_find.
  destruct (list_find _ array) as [[j y]|] eqn:Hf.
  - apply list_find_Some in Hf as (Hl & Hy & _).
    apply strict_eq_iff in Hy as [-> _].
    by rewrite (NoDup_lookup _ _ _ _ Hnd Hl Hi).
  - apply list_find_None in Hf.
    apply list_elem_of_lookup_2 in Hi.
    rewrite Forall_forall in Hf. specialize (Hf _ Hi).
    exfalso. apply Hf. by apply strict_eq_iff.
Qed.

Lemma splice_is_delete {A} (array : list A) i :
  i < length array -> splice array i = delete i array.
Proof.
  intros Hi. unfold splice.
  destruct (length array =? 0) eqn:E0; [apply Nat.eqb_eq in E0; lia|].
  apply Nat.ltb_lt in Hi. rewrite Hi. by rewrite delete_take_drop.
Qed.

Lemma filter_all (array : list Js.value) k :
  k ∉ array -> filter (fun x => x <> k) array = array.
Proof.
  induction array as [|x rest IH]; intros Hk; [done|].
  apply not_elem_of_cons in Hk as [Hne Hk].
  rewrite filter_cons_True by done. f_equal. by apply IH.
Qed.

Lemma delete_filter (array : list Js.value) i k :
  NoDup array -> array !! i = Some k ->
  delete i array = filter (fun x => x <> k) array.
Proof.
  revert i. induction array as [|x rest IH]; intros i Hnd Hi; [done|].
  apply NoDup_cons in Hnd as [Hx Hnd].
  destruct i as [|i]; simpl in *.
  - injection Hi as ->. rewrite filter_cons_False by (intros H; by apply H).
    symmetry. by apply filter_all.
  - rewrite filter_cons_True.
    + f_equal. by apply IH.
    + intros ->. apply Hx. by eapply list_elem_of_lookup_2.
Qed.

Lemma deleteItemFromCache_at f i k :
  NoDup (usage f) -> k <> VNaN -> usage f !! i = Some k ->
  deleteItemFromCache f k =
  {| cache := delete k (cache f); usage := delete i (usage f) |}.
Proof.
  intros Hnd Hk Hi. unfold deleteItemFromCache.
  rewrite (indexOf_NoDup _ i) by done.
  assert ((Z.of_nat i =? -1)%Z = false) as -> by (apply Z.eqb_neq; lia).
  simpl. rewrite Nat2Z.id, splice_is_delete; [done|].
  by eapply lookup_lt_Some.
Qed.

Lemma deleteItemFromCache_notin f k :
  k ∉ usage f -> deleteItemFromCache f k = f.
Proof.
  intros Hk. unfold deleteItemFromCache. by rewrite indexOf_notin.
Qed.

(** [setUsageOrder] on a usage order without repetitions, by where the
    key is. *)
Lemma setUsageOrder_present f i k maxSize :
  NoDup (usage f) -> k <> VNaN -> usage f !! i = Some k ->
  (Z.of_nat (length (usage f)) <= maxSize)%Z ->
  setUsageOrder f k maxSize =
  {| cache := cache f; usage := k :: delete i (usage f) |}.
Proof.
  intros Hnd Hk Hi Hlen. unfold setUsageOrder.
  rewrite (indexOf_NoDup _ i) by done.
  pose proof (lookup_lt_Some _ _ _ Hi) as Hlt.
  destruct i as [|i].
  - simpl. destruct f as [c u]. simpl in *.
    destruct u as [|x u]; [done|]. simpl in Hi. by injection Hi as ->.
  - assert ((Z.of_nat (S i) =? 0)%Z = false) as -> by (apply Z.eqb_neq; lia).
    assert ((Z.of_nat (S i) =? -1)%Z = false) as -> by (apply Z.eqb_neq; lia).
    cbn [negb]. rewrite Nat2Z.id, splice_is_delete by done.
    unfold unshift.
    assert ((maxSize <? Z.of_nat (length (k :: delete (S i) (usage f))))%Z = false)
      as ->; [|done].
    apply Z.ltb_ge. simpl. rewrite length_delete by eauto. lia.
Qed.

Lemma setUsageOrder_new f k maxSize :
  k ∉ usage f -> (Z.of_nat (length (usage f)) < maxSize)%Z ->
  setUsageOrder f k maxSize = {| cache := cache f; usage := k :: usage f |}.
Proof.
  intros Hk Hlen. unfold setUsageOrder. rewrite indexOf_notin by done.
  cbn [Z.eqb Pos.eqb negb]. unfold unshift.
  assert ((maxSize <? Z.of_nat (length (k :: usage f)))%Z = false) as ->; [|done].
  apply Z.ltb_ge. simpl. lia.
Qed.

Lemma setUsageOrder_full c k maxSize init tail :
  NoDup (init ++ [tail]) -> VNaN ∉ init ++ [tail] -> k <> VNaN ->
  k ∉ init ++ [tail] ->
  (maxSize <= Z.of_nat (length (init ++ [tail])))%Z ->
  setUsageOrder {| cache := c; usage := init ++ [tail] |} k maxSize =
  {| cache := delete tail c; usage := k :: init |}.
Proof.
  intros Hnd Hnan Hk Hnotin Hlen. unfold setUsageOrder.
  rewrite indexOf_notin by done. cbn [Z.eqb Pos.eqb negb]. unfold unshift.
  cbn [usage cache].
  assert ((maxSize <? Z.of_nat (length (k :: init ++ [tail])))%Z = true) as ->.
  { apply Z.ltb_lt. simpl. lia. }
  assert ((k :: init ++ [tail]) !! (length (k :: init ++ [tail]) - 1) = Some tail)
    as ->.
  { simpl. rewrite Nat.sub_0_r, length_app. simpl. rewrite Nat.add_1_r. simpl.
    by apply list_lookup_middle. }
  rewrite (deleteItemFromCache_at _ (length (k :: init))).
  - simpl. f_equal. f_equal. rewrite delete_middle. apply app_nil_r.
  - simpl. apply NoDup_cons. done.
  - intros ->. apply Hnan. apply elem_of_app. right. by left.
  - simpl. by apply list_lookup_middle.
Qed.

Lemma deleteItemFromCache_in (f : Fn) (k : Js.value) :
  k ∈ usage f -> k <> VNaN ->
  exists i, usage f !! i = Some k /\
    deleteItemFromCache f k =
    {| cache := delete k (cache f); usage := delete i (usage f) |}.
Proof.
  intros Hin Hk. unfold deleteItemFromCache. rewrite indexOf_find.
  destruct (list_find _ (usage f)) as [[i y]|] eqn:Hf.
  - apply list_find_Some in Hf as (Hl & Hy & _).
    apply strict_eq_iff in Hy as [-> _].
    exists i. split; [done|].
    assert ((Z.of_nat i =? -1)%Z = false) as -> by (apply Z.eqb_neq; lia).
    cbn [negb]. rewrite Nat2Z.id, splice_is_delete; [done|].
    by eapply lookup_lt_Some.
  - apply list_find_None in Hf. rewrite Forall_forall in Hf.
    exfalso. apply (Hf _ Hin). by apply strict_eq_iff.
Qed.

Lemma count_NaN_delete (array : list Js.value) i x :
  array !! i = Some x -> x <> VNaN ->
  count_NaN (delete i array) = count_NaN array.
Proof.
  unfold count_NaN. revert i.
  induction array as [|y rest IH]; intros i Hi Hx; [done|].
  destruct i as [|i]; simpl in *.
  - injection Hi as ->. by rewrite filter_cons_False.
  - rewrite !filter_cons. destruct (decide (y = VNaN)); simpl; rewrite (IH i); done.
Qed.

Lemma setUsageOrder_NaN f maxSize :
  cache (setUsageOrder f VNaN maxSize) !! VNaN = cache f !! VNaN /\
  count_NaN (usage (setUsageOrder f VNaN maxSize)) = S (count_NaN (usage f)).
Proof.
  unfold setUsageOrder. rewrite indexOf_NaN.
  cbn [Z.eqb Pos.eqb negb]. unfold unshift.
  assert (count_NaN (VNaN :: usage f) = S (count_NaN (usage f))) as Hcount.
  { unfold count_NaN. by rewrite filter_cons_True. }
  destruct (maxSize <? _)%Z; [|done].
  destruct ((VNaN :: usage f) !! _) as [tail|] eqn:Htail; [|done].
  destruct (decide (tail = VNaN)) as [->|Hne].
  - unfold deleteItemFromCache. by rewrite indexOf_NaN.
  - destruct (deleteItemFromCache_in
                {| cache := cache f; usage := VNaN :: usage f |} tail)
      as (i & Hi & ->); [by eapply list_elem_of_lookup_2|done|].
    cbn [cache usage] in *. split; [by apply lookup_delete_ne|].
    by rewrite (count_NaN_delete _ i tail).
Qed.

(** X10: a key that is [NaN] is never found in the usage order, which
    is searched with [indexOf]: [deleteItemFromCache], [fn.delete] and
    an expiration timer leave its entry where it is, and every
    [setUsageOrder] for it adds one more [NaN] to the usage order and
    removes none, whatever [maxSize] is. *)
Theorem nan_keys_are_never_removed :
  (forall f, deleteItemFromCache f VNaN = f) /\
  (forall w, fn_delete VNaN w = w) /\
  (forall w maxAge,
     fn (fire (length (timers w)) (setExpirationOfCache w VNaN maxAge)) = fn w) /\
  (forall f n maxSize,
     count_NaN (usage (setUsageOrder_times n VNaN maxSize f)) =
       n + count_NaN (usage f) /\
     cache (setUsageOrder_times n VNaN maxSize f) !! VNaN = cache f !! VNaN).
Proof.
  assert (forall f, deleteItemFromCache f VNaN = f) as Hdel.
  { intros f. unfold deleteItemFromCache. by rewrite indexOf_NaN. }
  split; [exact Hdel|]. split; [|split].
  - intros [f ts rs]. unfold fn_delete, with_fn. simpl. by rewrite Hdel.
  - intros w maxAge. unfold fire, setExpirationOfCache. cbn [timers].
    rewrite list_lookup_middle by done. simpl. apply Hdel.
  - intros f n maxSize. unfold setUsageOrder_times.
    induction n as [|n [IHcount IHcache]]; [done|].
    rewrite Nat.iter_succ.
    destruct (setUsageOrder_NaN
                (Nat.iter n (fun f => setUsageOrder f VNaN maxSize) f) maxSize)
      as [Hcache Hcount].
    rewrite Hcount, Hcache, IHcount, IHcache. split; [lia|done].
Qed.

(** X11: on a usage order that holds no key twice, no [NaN] and at most
    [maxSize] keys, [setUsageOrder] moves the key to the front, or puts
    it there when it is new; the order of the other keys is kept.
    Nothing is removed unless the key is new and the usage order is
    full: then the key used least recently leaves the usage order and
    the cache. *)
Theorem setUsageOrder_is_lru (f : Fn) (k : Js.value) (maxSize : Z) :
  NoDup (usage f) -> VNaN ∉ usage f -> k <> VNaN ->
  (1 <= maxSize)%Z -> (Z.of_nat (length (usage f)) <= maxSize)%Z ->
  let f' := setUsageOrder f k maxSize in
  usage f' = firstn (Z.to_nat maxSize) (k :: filter (fun x => x <> k) (usage f)) /\
  (k ∈ usage f \/ (Z.of_nat (length (usage f)) < maxSize)%Z ->
   cache f' = cache f) /\
  (k ∉ usage f -> Z.of_nat (length (usage f)) = maxSize ->
   exists init tail,
     usage f = init ++ [tail] /\ usage f' = k :: init /\
     cache f' = delete tail (cache f)).
Proof.
  intros Hnd Hnan Hk Hmax Hlen f'. subst f'.
  destruct (decide (k ∈ usage f)) as [Hin|Hnotin].
  - apply list_elem_of_lookup in Hin as [i Hi].
    rewrite (setUsageOrder_present f i) by done. cbn [usage cache].
    split; [|split; [done|]].
    + rewrite <- (delete_filter _ i) by done.
      rewrite take_ge; [done|]. simpl.
      rewrite length_delete by eauto.
      pose proof (lookup_lt_Some _ _ _ Hi). lia.
    + intros Hnot. exfalso. apply Hnot. by eapply list_elem_of_lookup_2.
  - destruct (decide (Z.of_nat (length (usage f)) < maxSize)%Z) as [Hlt|Hfull].
    + rewrite setUsageOrder_new by done. cbn [usage cache].
      rewrite filter_all by done.
      split; [|split; [done|lia]].
      rewrite take_ge; [done|]. simpl. lia.
    + assert (Z.of_nat (length (usage f)) = maxSize) as Heq by lia.
      destruct f as [c u]. cbn [usage cache] in *.
      destruct u as [|x u _] using rev_ind; [simpl in Heq; lia|].
      rewrite setUsageOrder_full by (done || lia). cbn [usage cache].
      rewrite filter_all by done.
      split; [|split].
      * rewrite length_app in Heq. simpl in Heq.
        replace (Z.to_nat maxSize) with (length (k :: u)) by (simpl; lia).
        change (k :: u ++ [x]) with ((k :: u) ++ [x]).
        by rewrite take_app_length.
      * intros [Hin|Hlt]; [done|lia].
      * intros _ _. by exists u, x.
Qed.

Lemma setUsageOrder_is_lru_witness :
  usage (setUsageOrder fn_abc (VStr "d") 3) = [VStr "d"; VStr "a"; VStr "b"] /\
  usage (setUsageOrder fn_abc (VStr "c") 3) = [VStr "c"; VStr "a"; VStr "b"].
Proof.
  assert (NoDup (usage fn_abc)) as Hnd.
  { apply (bool_decide_unpack _). vm_compute. exact I. }
  assert (VNaN ∉ usage fn_abc) as Hnan.
  { apply (bool_decide_unpack _). vm_compute. exact I. }
  split.
  - apply (setUsageOrder_is_lru fn_abc (VStr "d") 3); [done|done|done|lia|simpl; lia].
  - apply (setUsageOrder_is_lru fn_abc (VStr "c") 3); [done|done|done|lia|simpl; lia].
Defined.

Lemma tracked_setUsageOrder f k maxSize :
  bounded maxSize f -> k <> VNaN -> (1 <= maxSize)%Z ->
  bounded maxSize (setUsageOrder f k maxSize) /\
  head (usage (setUsageOrder f k maxSize)) = Some k.
Proof.
  intros [(Hnd & Hnan & Hkeys) Hlen] Hk Hmax.
  destruct (decide (k ∈ usage f)) as [Hin|Hnotin].
  - apply list_elem_of_lookup in Hin as [i Hi].
    rewrite (setUsageOrder_present f i) by done.
    rewrite (delete_filter _ i k) by done.
    split; [|done]. split; [split; [|split]|]; cbn [usage cache].
    + apply NoDup_cons. split; [|by apply NoDup_filter].
      rewrite list_elem_of_filter. by intros [? _].
    + rewrite elem_of_cons, list_elem_of_filter. intros [?|[_ ?]]; done.
    + intros q Hq. apply Hkeys in Hq.
      destruct (decide (q = k)) as [->|Hne]; [by left|].
      right. by apply list_elem_of_filter.
    + rewrite <- (delete_filter _ i k) by done. simpl.
      rewrite length_delete by eauto.
      pose proof (lookup_lt_Some _ _ _ Hi). lia.
  - destruct (decide (Z.of_nat (length (usage f)) < maxSize)%Z) as [Hlt|Hfull].
    + rewrite setUsageOrder_new by done.
      split; [|done]. split; [split; [|split]|]; cbn [usage cache].
      * by apply NoDup_cons.
      * rewrite elem_of_cons. intros [?|?]; done.
      * intros q Hq. right. by apply Hkeys.
      * simpl. lia.
    + destruct f as [c u]. cbn [usage cache] in *.
      destruct u as [|x u _] using rev_ind; [simpl in *; lia|].
      rewrite setUsageOrder_full by (done || lia).
      split; [|done]. split; [split; [|split]|]; cbn [usage cache].
      * apply NoDup_app in Hnd as (Hu & _ & _).
        apply NoDup_cons. split; [|done].
        intros Hin. apply Hnotin. apply elem_of_app. by left.
      * rewrite elem_of_cons. intros [?|Hin]; [done|].
        apply Hnan. apply elem_of_app. by left.
      * intros q Hq.
        destruct (decide (q = x)) as [->|Hne].
        { rewrite lookup_delete_eq in Hq. by destruct Hq. }
        rewrite lookup_delete_ne in Hq by done.
        apply Hkeys in Hq. apply elem_of_app in Hq as [Hq|Hq]; [by right|].
        apply list_elem_of_singleton in Hq. done.
      * rewrite length_app in Hlen. simpl in *. lia.
Qed.

Lemma bounded_deleteItemFromCache maxSize f k :
  bounded maxSize f -> bounded maxSize (deleteItemFromCache f k).
Proof.
  intros [(Hnd & Hnan & Hkeys) Hlen].
  destruct (decide (k ∈ usage f)) as [Hin|Hnotin].
  - assert (k <> VNaN) as Hk by (intros ->; done).
    apply list_elem_of_lookup in Hin as [i Hi].
    rewrite (deleteItemFromCache_at f i) by done.
    split; [split; [|split]|]; cbn [usage cache].
    + rewrite (delete_filter _ i k) by done. by apply NoDup_filter.
    + rewrite (delete_filter _ i k) by done.
      rewrite list_elem_of_filter. by intros [_ ?].
    + intros q Hq. rewrite (delete_filter _ i k) by done.
      destruct (decide (q = k)) as [->|Hne].
      { rewrite lookup_delete_eq in Hq. by destruct Hq. }
      rewrite lookup_delete_ne in Hq by done.
      apply list_elem_of_filter. split; [done|]. by apply Hkeys.
    + rewrite length_delete by eauto. lia.
  - by rewrite deleteItemFromCache_notin.
Qed.

Lemma bounded_size maxSize f :
  bounded maxSize f -> (Z.of_nat (size (cache f)) <= maxSize)%Z.
Proof.
  intros [(Hnd & Hnan & Hkeys) Hlen].
  assert (size (cache f) <= length (usage f)); [|lia].
  rewrite <- size_dom, <- (size_list_to_set (C := gset Js.value)) by done.
  apply subseteq_size. intros q Hq.
  apply elem_of_dom in Hq. apply elem_of_list_to_set. by apply Hkeys.
Qed.

(** X12: a usage order without repetitions and without [NaN] that
    holds every key of the cache and at most [maxSize] keys stays so
    when a key is moved to the front by [setUsageOrder] and a value is
    stored under it by [setNewCachedValue], when a timer fires and when
    [fn.delete] is called; and then the cache holds at most [maxSize]
    values. *)
Theorem usage_order_bounds_the_cache (maxSize : Z) (w : world) :
  bounded maxSize (fn w) -> (1 <= maxSize)%Z ->
  (Z.of_nat (size (cache (fn w))) <= maxSize)%Z /\
  (forall k v isMaxAgeFinite maxAge,
     k <> VNaN ->
     exists w',
       setNewCachedValue (with_fn w (setUsageOrder (fn w) k maxSize))
                         k (Value v) false isMaxAgeFinite maxAge =
         Normal (w', Value v) /\
       bounded maxSize (fn w') /\
       cache (fn w') !! k = Some (Value v) /\
       head (usage (fn w')) = Some k) /\
  (forall i, bounded maxSize (fn (fire i w))) /\
  (forall k, bounded maxSize (fn (fn_delete k w))).
Proof.
  intros Hb Hmax. split; [by apply bounded_size|]. split; [|split].
  - intros k v isMaxAgeFinite maxAge Hk.
    destruct (tracked_setUsageOrder (fn w) k maxSize Hb Hk Hmax)
      as [[(Hnd & Hnan & Hkeys) Hlen] Hhead].
    eexists. split; [reflexivity|].
    destruct isMaxAgeFinite; cbn [fn with_fn setExpirationOfCache cache usage];
      (split; [|split; [apply lookup_insert_eq|done]]);
      (split; [split; [done|split; [done|]]|done]);
      cbn [cache usage]; intros q Hq;
      (destruct (decide (q = k)) as [->|Hne];
       [by apply head_Some_elem_of|
        rewrite lookup_insert_ne in Hq by done; by apply Hkeys]).
  - intros i. unfold fire. destruct (timers w !! i); [|done].
    cbn [fn]. by apply bounded_deleteItemFromCache.
  - intros k. unfold fn_delete, with_fn. cbn [fn].
    by apply bounded_deleteItemFromCache.
Qed.

Lemma usage_order_bounds_the_cache_witness :
  exists w',
    setNewCachedValue
      (with_fn empty_world (setUsageOrder (fn empty_world) (VStr "a") 1))
      (VStr "a") (Value (VNum 1)) false true 100 = Normal (w', Value (VNum 1)) /\
    bounded 1 (fn w').
Proof.
  assert (bounded 1 (fn empty_world)) as Hb.
  { split; [split; [apply NoDup_nil_2|split; [apply not_elem_of_nil|]]|simpl; lia].
    intros k [v Hv]. simpl in Hv. by rewrite lookup_empty in Hv. }
  destruct (usage_order_bounds_the_cache 1 empty_world Hb) as (_ & Hstore & _);
    [lia|].
  destruct (Hstore (VStr "a") (VNum 1) true 100%Z) as (w' & Hw & Hb' & _); [done|].
  by exists w'.
Defined.

End UsageFacts.

Module SerializedFacts.
Import Part000 Serialized.

Lemma append_cons c (s t : string) : String c s +:+ t = String c (s +:+ t).
Proof. reflexivity. Qed.

Lemma append_assoc (s t u : string) : s +:+ (t +:+ u) = (s +:+ t) +:+ u.
Proof.
  induction s as [|c s IH]; [done|]. by rewrite !append_cons, IH.
Qed.

Lemma append_nil_r (s : string) : s +:+ "" = s.
Proof.
  induction s as [|c s IH]; [done|]. by rewrite append_cons, IH.
Qed.

Lemma interpolated_not_complex arg :
  interpolated arg = true -> isComplexObject arg = false.
Proof. by destruct arg. Qed.

Lemma serializeArguments_loop_primitives text fuel h args k :
  Forall (fun arg => isComplexObject arg = false) args ->
  serializeArguments_loop text fuel h args k = Some (Normal (k +:+ delimited args)).
Proof.
  intros Hargs. revert k.
  induction Hargs as [|arg rest Harg _ IH]; intros k;
    cbn [serializeArguments_loop delimited].
  - by rewrite append_nil_r.
  - unfold getStringifiedArgument. rewrite Harg. cbn [mbind option_bind].
    rewrite IH. do 2 f_equal. by rewrite <- !append_assoc.
Qed.

Lemma serializeArguments_interpolated text fuel h args :
  Forall (fun arg => interpolated arg = true) args ->
  serializeArguments text fuel h args = Some (Normal ("|" +:+ delimited args)).
Proof.
  intros Hargs. apply serializeArguments_loop_primitives.
  eapply Forall_impl; [exact Hargs|]. apply interpolated_not_complex.
Qed.

Lemma delimited_app a b : delimited (a ++ b) = delimited a +:+ delimited b.
Proof.
  induction a as [|x a IH]; [done|].
  cbn [app delimited]. by rewrite IH, <- !append_assoc.
Qed.

Lemma delimited_strings args :
  delimited ((fun arg => VStr (ToString arg)) <$> args) = delimited args.
Proof.
  induction args as [|arg rest IH]; [done|].
  rewrite fmap_cons. cbn [delimited ToString]. by rewrite IH.
Qed.

(** C9, as stated, fails: the tuples [[1]] and [["1"]] serialize to the
    same string, and [getCacheKey] gives them the keys [1] and ["1"],
    which differ: the key of a call with one argument is the argument,
    whatever the serializer is. *)
Lemma one_argument_keys_keep_their_type :
  ~ (forall text fuel h (args1 args2 : list Js.value),
       serializeArguments text fuel h args1 = serializeArguments text fuel h args2 ->
       getCacheKey args1 (serializer text fuel h) =
       getCacheKey args2 (serializer text fuel h)).
Proof.
  intros H.
  specialize (H sample_text 0 [] [VNum 1] [VStr "1"] eq_refl).
  discriminate H.
Qed.

(** C9 (amended): arguments that are not objects are interpolated
    without stringification, so that the serialized string does not
    tell a primitive from the string of its text: the tuples [[1]] and
    [["1"]] differ and both serialize to ["|1|"], and arguments that are
    not objects, with every number among them a safe integer, serialize
    to the same string as their texts.  [getCacheKey] gives such tuples
    the same key when they have no or several arguments; the key of a
    call with one argument is the argument itself. *)
Theorem serializeArguments_conflates_primitives (text : heap -> json -> option string)
  (fuel : nat) (h : heap) (args : list Js.value) :
  Forall (fun arg => interpolated arg = true) args ->
  ([VNum 1] <> [VStr "1"] /\
   serializeArguments text fuel h [VNum 1] = Some (Normal "|1|") /\
   serializeArguments text fuel h [VStr "1"] = Some (Normal "|1|")) /\
  (serializeArguments text fuel h args = Some (Normal ("|" +:+ delimited args)) /\
   serializeArguments text fuel h ((fun arg => VStr (ToString arg)) <$> args) =
   serializeArguments text fuel h args) /\
  (length args <> 1 ->
   getCacheKey args (serializer text fuel h) =
     Some (Normal (VStr ("|" +:+ delimited args))) /\
   getCacheKey ((fun arg => VStr (ToString arg)) <$> args) (serializer text fuel h) =
   getCacheKey args (serializer text fuel h)) /\
  (forall arg serializer, getCacheKey [arg] serializer = Some (Normal arg)).
Proof.
  intros Hargs.
  pose proof (serializeArguments_interpolated text fuel h args Hargs) as Hs.
  assert (serializeArguments text fuel h ((fun arg => VStr (ToString arg)) <$> args) =
          serializeArguments text fuel h args) as Hsame.
  { rewrite Hs, serializeArguments_interpolated; [by rewrite delimited_strings|].
    apply Forall_fmap, Forall_forall. by intros arg _. }
  split; [|split; [done|split; [|done]]].
  - split; [discriminate|]. split; reflexivity.
  - intros Hlen. unfold getCacheKey, serializer.
    rewrite length_fmap.
    destruct (length args =? 1) eqn:E; [apply Nat.eqb_eq in E; done|].
    rewrite Hsame, Hs. done.
Qed.

Lemma serializeArguments_conflates_primitives_witness :
  serializeArguments sample_text 0 [] [VStr "1"; VStr "true"; VStr "null"] =
  serializeArguments sample_text 0 [] [VNum 1; VBool true; VNull] /\
  getCacheKey [VStr "1"; VStr "2"] (serializer sample_text 0 []) =
  getCacheKey [VNum 1; VNum 2] (serializer sample_text 0 []) /\
  getCacheKey [VNum 1; VNum 2] (serializer sample_text 0 []) =
    Some (Normal (VStr "|1|2|")).
Proof.
  split; [|split].
  - refine (proj2 (proj1 (proj2 (serializeArguments_conflates_primitives
                                   sample_text 0 [] [VNum 1; VBool true; VNull] _))));
      by repeat constructor.
  - refine (proj2 (proj1 (proj2 (proj2 (serializeArguments_conflates_primitives
                                   sample_text 0 [] [VNum 1; VNum 2] _))) _));
      [by repeat constructor|simpl; lia].
  - refine (proj1 (proj1 (proj2 (proj2 (serializeArguments_conflates_primitives
                                   sample_text 0 [] [VNum 1; VNum 2] _))) _));
      [by repeat constructor|simpl; lia].
Defined.

(** X13: for arguments that are not objects, with every number among
    them a safe integer, [serializeArguments] returns, without any call
    of [stringify], the delimiter followed by each argument's string and
    the delimiter.  The delimiter is not escaped: a string argument
    that contains it serializes as the arguments it seems to separate,
    and with [getCacheKey] a call with the one argument ["|a|b|"] gets
    the key of the call with ["a"] and ["b"]. *)
Theorem serializeArguments_delimiter_collides (text : heap -> json -> option string)
  (fuel : nat) (h : heap) (args : list Js.value) :
  Forall (fun arg => interpolated arg = true) args ->
  serializeArguments text fuel h args = Some (Normal ("|" +:+ delimited args)) /\
  (forall before s t after,
     args = before ++ [VStr s; VStr t] ++ after ->
     serializeArguments text fuel h (before ++ [VStr (s +:+ "|" +:+ t)] ++ after) =
     serializeArguments text fuel h args) /\
  (length args <> 1 ->
   getCacheKey [VStr ("|" +:+ delimited args)] (serializer text fuel h) =
   getCacheKey args (serializer text fuel h)).
Proof.
  intros Hargs.
  pose proof (serializeArguments_interpolated text fuel h args Hargs) as Hs.
  split; [exact Hs|]. split.
  - intros before s t after ->. rewrite Hs.
    rewrite serializeArguments_interpolated.
    + do 3 f_equal. rewrite !delimited_app. f_equal.
      cbn [delimited ToString]. by rewrite <- !append_assoc.
    + apply Forall_app in Hargs as [Hb Ha].
      apply Forall_app in Ha as [_ Ha].
      apply Forall_app. split; [done|]. apply Forall_app. split; [|done].
      by repeat constructor.
  - intros Hlen. unfold getCacheKey, serializer. simpl.
    destruct (length args =? 1) eqn:E; [apply Nat.eqb_eq in E; done|].
    by rewrite Hs.
Qed.

Lemma serializeArguments_delimiter_collides_witness :
  serializeArguments sample_text 0 [] [VStr "a|b"; VNum 1] =
  serializeArguments sample_text 0 [] [VStr "a"; VStr "b"; VNum 1] /\
  getCacheKey [VStr "|a|b|"] (serializer sample_text 0 []) =
  getCacheKey [VStr "a"; VStr "b"] (serializer sample_text 0 []).
Proof.
  split.
  - refine (proj1 (proj2 (serializeArguments_delimiter_collides sample_text 0 []
                            [VStr "a"; VStr "b"; VNum 1] _)) [] "a" "b" [VNum 1] _);
      [by repeat constructor|done].
  - refine (proj2 (proj2 (serializeArguments_delimiter_collides sample_text 0 []
                            [VStr "a"; VStr "b"] _)) _);
      [by repeat constructor|simpl; lia].
Defined.

End SerializedFacts.

Module MoizedFacts.
Import Moized.

(** C2, as stated, fails: after a key is stored, removed and stored
    again, with [fn.usage] the same array throughout, the timer of the
    first store deletes the entry of the second store. *)
Lemma stale_timer_deletes_readded_entry :
  timers stored_a = [timer_a] /\
  map stored_a !! VStr "a" = Some (Value (VNum 1)) /\
  map removed_a !! VStr "a" = None /\
  timers restored_a = [timer_a; timer_a] /\
  map restored_a !! VStr "a" = Some (Value (VNum 2)) /\
  usage_now restored_a = [VStr "a"] /\
  map (fire 0 restored_a) !! VStr "a" = None /\
  usage_now (fire 0 restored_a) = [] /\
  timers (fire 0 restored_a) = [timer_a].
Proof. repeat split; reflexivity. Qed.

(** C2 (amended): [setExpirationOfCache] schedules one timer of
    [max(maxAge, 0)] for the key, which keeps the array that is
    [fn.usage] at that time.  When the timer fires, the key is looked up
    in that array: if it is there, it is removed from the array and the
    entry now stored under the key is removed from the [Map], whichever
    store put it there; if it is not, nothing changes.  An entry under
    another key is never touched, and when [fn.clear()] has replaced
    [fn.usage] since, [fn.usage] is left as it is. *)
Theorem expiration_timer_checks_presence_by_key :
  (forall s k maxAge,
     setExpirationOfCache s k maxAge =
     {| map := map s;
        arrays := arrays s;
        current := current s;
        timers := timers s ++ [ {| delay := Z.max maxAge 0; expires := k;
                                   usage_of := current s |} ];
        reactions := reactions s |}) /\
  (forall i t s captured x,
     timers s !! i = Some t -> arrays s !! usage_of t = Some captured ->
     x ∈ captured -> strict_eq x (expires t) = true ->
     exists j, captured !! j = Some (expires t) /\
       fire i s = {| map := delete (expires t) (map s);
                     arrays := <[usage_of t := delete j captured]> (arrays s);
                     current := current s;
                     timers := delete i (timers s);
                     reactions := reactions s |}) /\
  (forall i t s captured,
     timers s !! i = Some t -> arrays s !! usage_of t = Some captured ->
     (forall x, x ∈ captured -> strict_eq x (expires t) = false) ->
     fire i s = {| map := map s;
                   arrays := arrays s;
                   current := current s;
                   timers := delete i (timers s);
                   reactions := reactions s |}) /\
  (forall i s k',
     (forall t, timers s !! i = Some t -> k' <> expires t) ->
     map (fire i s) !! k' = map s !! k') /\
  (forall i t s,
     timers s !! i = Some t -> usage_of t <> current s ->
     usage_now (fire i s) = usage_now s).
Proof.
  split; [reflexivity|]. split; [|split; [|split]].
  - intros i t s captured x Hi Ha Hin Hx.
    destruct (Part000Facts.deleteItemFromCache_present
                {| Part000.cache := map s; Part000.usage := captured |}
                (expires t) x Hin Hx) as (j & Hj & Hd).
    exists j. split; [done|].
    unfold fire, put, as_fn. rewrite Hi, Ha. cbn [default from_option].
    change (id captured) with captured. by rewrite Hd.
  - intros i t s captured Hi Ha Habsent.
    unfold fire, put, as_fn. rewrite Hi, Ha. cbn [default from_option].
    change (id captured) with captured.
    rewrite Part000Facts.deleteItemFromCache_absent by done.
    cbn [Part000.cache Part000.usage map arrays current].
    by rewrite list_insert_id.
  - intros i s k' Hne. unfold fire.
    destruct (timers s !! i) as [t|]; [|done].
    cbn [map put]. apply Part000Facts.deleteItemFromCache_other. by apply Hne.
  - intros i t s Hi Hne. unfold fire, usage_now. rewrite Hi.
    cbn [arrays current put]. by rewrite list_lookup_insert_ne.
Qed.

Lemma expiration_timer_checks_presence_by_key_witness :
  map (fire 0 stored_a) !! VStr "a" = None /\
  usage_now (fire 0 stored_a) = [] /\
  fire 0 removed_a = getFunctionWithCacheAdded ∅ /\
  map (fire 0 stored_a) !! VStr "b" = map stored_a !! VStr "b" /\
  usage_now (fire 0 (clear stored_a)) = usage_now (clear stored_a).
Proof.
  pose proof expiration_timer_checks_presence_by_key
    as (_ & Hpresent & Habsent & Hother & Hcleared).
  set (t := timer_a).
  destruct (Hpresent 0 t stored_a [VStr "a"] (VStr "a"))
    as (j & Hj & Hfire); [reflexivity|reflexivity|by left|reflexivity|].
  apply list_lookup_singleton_Some in Hj as [-> _].
  split; [|split; [|split; [|split]]].
  - by rewrite Hfire.
  - by rewrite Hfire.
  - rewrite (Habsent 0 t removed_a []); [reflexivity|reflexivity|reflexivity|].
    intros x Hx. inversion Hx.
  - apply Hother. intros t' [= <-]. discriminate.
  - apply (Hcleared 0 t); [reflexivity|]. vm_compute. lia.
Defined.

(** X14: [fn.clear()] does not disarm the expiration timers, and the
    timers armed before it keep the usage array of that time.  When a
    key that has a pending timer is stored again after [clear], the
    old timer still finds the key in the old array and deletes the new
    value from the cache, while the key stays in [fn.usage]. *)
Theorem clear_leaves_timers_armed (s : store) (k : Js.value) (v : computed)
  (isMaxAgeFinite : bool) (maxAge maxSize : Z) :
  k <> VNaN -> (1 <= maxSize)%Z ->
  current s < length (arrays s) -> k ∈ usage_now s ->
  let armed := setExpirationOfCache s k maxAge in
  let cleared := clear armed in
  exists stored,
    setNewCachedValue (setUsageOrder cleared k maxSize) k v false isMaxAgeFinite maxAge =
      Normal (stored, v) /\
    usage_now cleared = [] /\ map cleared = ∅ /\
    usage_now stored = [k] /\ map stored !! k = Some v /\
    let fired := fire (length (timers s)) stored in
    map fired !! k = None /\ usage_now fired = [k] /\
    timers fired =
      timers s ++
      (if isMaxAgeFinite
       then [ {| delay := Z.max maxAge 0; expires := k;
                 usage_of := length (arrays s) |} ]
       else []).
Proof.
  intros Hk Hmax Hcur Hin armed cleared.
  set (t := {| delay := Z.max maxAge 0; expires := k; usage_of := current s |}).
  set (later := if isMaxAgeFinite
                then [ {| delay := Z.max maxAge 0; expires := k;
                          usage_of := length (arrays s) |} ]
                else []).
  assert (cleared = {| map := ∅; arrays := arrays s ++ [[]];
                       current := length (arrays s);
                       timers := timers s ++ [t];
                       reactions := reactions s |}) as Hcleared by reflexivity.
  clearbody cleared. subst cleared. clear armed.
  assert (forall (l : list (list Js.value)) x y,
            <[length l := y]> (l ++ [x]) = l ++ [y]) as Hins.
  { intros l x y. rewrite insert_app_r_alt by lia.
    by rewrite Nat.sub_diag. }
  set (stored := {| map := <[k := v]> ∅; arrays := arrays s ++ [[k]];
                    current := length (arrays s);
                    timers := timers s ++ t :: later;
                    reactions := reactions s |}).
  exists stored.
  split; [|split; [|split; [done|split; [|split]]]].
  - unfold setNewCachedValue, setUsageOrder, put, as_fn.
    cbn [map arrays current timers reactions].
    rewrite list_lookup_middle by done. cbn [default from_option].
    rewrite UsageFacts.setUsageOrder_new;
      [|cbn [Part000.usage]; apply not_elem_of_nil|simpl; lia].
    cbn [Part000.cache Part000.usage mbind completion_bind
         map arrays current timers reactions].
    rewrite Hins. unfold stored, later.
    destruct isMaxAgeFinite; [|done].
    unfold setExpirationOfCache. cbn [map arrays current timers reactions].
    by rewrite <- app_assoc.
  - unfold usage_now. cbn [arrays current]. by rewrite list_lookup_middle.
  - unfold usage_now. cbn [arrays current stored]. by rewrite list_lookup_middle.
  - apply lookup_insert_eq.
  - cbv zeta. unfold fire, stored. cbn [timers].
    rewrite list_lookup_middle by done.
    destruct (lookup_lt_is_Some_2 _ _ Hcur) as [old Hold].
    assert (k ∈ old) as Hin'.
    { unfold usage_now in Hin. by rewrite Hold in Hin. }
    unfold as_fn, put. cbn [map arrays current timers reactions usage_of expires t].
    rewrite lookup_app_l, Hold by done. cbn [default from_option].
    change (id old) with old.
    destruct (UsageFacts.deleteItemFromCache_in
                {| Part000.cache := <[k := v]> ∅; Part000.usage := old |} k Hin' Hk)
      as (i & Hi & ->).
    cbn [Part000.cache Part000.usage map arrays current timers].
    split; [apply lookup_delete_eq|]. split.
    + unfold usage_now. cbn [arrays current].
      rewrite list_lookup_insert_ne by lia.
      by rewrite list_lookup_middle.
    + apply delete_middle.
Qed.

Lemma clear_leaves_timers_armed_witness :
  exists stored,
    setNewCachedValue (setUsageOrder (clear stored_a) (VStr "a") 10)
                      (VStr "a") (Value (VNum 2)) false true 100 =
      Normal (stored, Value (VNum 2)) /\
    map stored !! VStr "a" = Some (Value (VNum 2)) /\
    map (fire 0 stored) !! VStr "a" = None /\
    usage_now (fire 0 stored) = [VStr "a"].
Proof.
  pose proof (clear_leaves_timers_armed
                {| map := <[VStr "a" := Value (VNum 1)]> ∅;
                   arrays := [[VStr "a"]]; current := 0;
                   timers := []; reactions := [] |}
                (VStr "a") (Value (VNum 2)) true 100 10) as H.
  destruct H as (stored & Hs & _ & _ & _ & Hv & Hf & Hu & _);
    [done|lia|simpl; lia|vm_compute; by left|].
  exists stored. split; [exact Hs|]. split; [exact Hv|]. split; [exact Hf|exact Hu].
Defined.

End MoizedFacts.

Module ReactFacts.
Import ReactCacheKey React.

Lemma prop_get_notin o name : name ∉ own_keys o -> prop_get o name = VUndefined.
Proof.
  induction o as [|[k v] o IH]; intros Hn; simpl; [done|].
  unfold own_keys in Hn. rewrite fmap_cons in Hn.
  apply not_elem_of_cons in Hn as [Hne Hn].
  destruct (String.eqb name k) eqn:E; [apply String.eqb_eq in E; done|].
  by apply IH.
Qed.

Lemma get_own_property o name : name ∈ own_keys o -> get o name = Data (prop_get o name).
Proof. intros Hn. unfold get. by rewrite bool_decide_eq_true_2. Qed.

(** Under a name that [Object.prototype] does not have, [o[name]] is
    the own property or [undefined]. *)
Lemma get_plain_name o name :
  Stats.inherited name = false -> get o name = Data (prop_get o name).
Proof.
  intros Hn. unfold get. case_bool_decide as Hown; [done|].
  rewrite (prop_get_notin o name Hown).
  unfold Stats.inherited in Hn.
  change Stats.prototype_names with Object_prototype in Hn.
  by rewrite Hn.
Qed.

Lemma strict_eq_same (a b : Js.value) :
  strict_eq a b = true <-> a = b /\ b <> VNaN.
Proof.
  unfold strict_eq.
  destruct a, b; try rewrite bool_decide_eq_true; split;
    try done; try (by intros [? ?]); intros ->; done.
Qed.

Lemma matches_true k args :
  matches k args = Normal true <->
  exists p c, index args 0 = Some p /\ index args 1 = Some c /\
    shallow_equal k Props p /\ shallow_equal k Context c.
Proof.
  unfold matches.
  destruct (_isPropShallowEqual k Props (index args 0)) as [[|]|] eqn:Hp; simpl.
  - apply ReactCacheKeyFacts.isPropShallowEqual_true in Hp as (p & Hp & Hsp).
    rewrite ReactCacheKeyFacts.isPropShallowEqual_true. split.
    + intros (c & Hc & Hsc). eauto 10.
    + intros (p' & c & Hp' & Hc & _ & Hsc). eauto.
  - split; [done|]. intros (p & c & Hp' & _ & Hsp & _).
    assert (_isPropShallowEqual k Props (index args 0) = Normal true)
      by (apply ReactCacheKeyFacts.isPropShallowEqual_true; eauto).
    congruence.
  - split; [done|]. intros (p & c & Hp' & _ & Hsp & _).
    assert (_isPropShallowEqual k Props (index args 0) = Normal true)
      by (apply ReactCacheKeyFacts.isPropShallowEqual_true; eauto).
    congruence.
Qed.

(** One half, for objects whose keys are distinct and whose values are
    never [undefined]. *)
Lemma half_exact k p stored o :
  key_prop k p = Some stored -> key_propSize k p = length (own_keys stored) ->
  NoDup (own_keys stored) -> NoDup (own_keys o) -> plain_names o ->
  no_value VUndefined o ->
  shallow_equal k p o <-> same_object o stored /\ no_value VNaN o.
Proof.
  intros Hs Hsize Hnds Hndo Hplain Hdef.
  assert (forall name, name ∈ own_keys o ->
            same (get o name) (get stored name) =
            strict_eq (prop_get o name) (prop_get stored name)) as Hsame.
  { intros name Hn. rewrite (get_own_property o name Hn), get_plain_name; [done|].
    unfold plain_names in Hplain. rewrite Forall_forall in Hplain.
    by apply Hplain. }
  rewrite ReactCacheKeyFacts.shallow_equal_same, Hs, Hsize. split.
  - intros [Hlen Hall].
    assert (forall name, name ∈ own_keys o ->
              prop_get o name = prop_get stored name /\
              prop_get stored name <> VNaN) as Hval.
    { intros name Hn. destruct (Hall name Hn) as (stored' & [= <-] & He).
      rewrite Hsame in He by done. by apply strict_eq_same in He. }
    assert (forall name, name ∈ own_keys o -> name ∈ own_keys stored) as Hsub.
    { intros name Hn. destruct (decide (name ∈ own_keys stored)) as [|Hnot]; [done|].
      destruct (Hval name Hn) as [He _].
      rewrite (prop_get_notin stored name Hnot) in He.
      by destruct (Hdef name Hn). }
    assert (own_keys o ≡ₚ own_keys stored) as Hperm.
    { apply submseteq_length_Permutation; [by apply NoDup_submseteq|lia]. }
    split; [split|].
    + intros name. by rewrite Hperm.
    + intros name. destruct (decide (name ∈ own_keys o)) as [Hn|Hn].
      * by apply Hval.
      * rewrite (prop_get_notin o name Hn), prop_get_notin; [done|].
        by rewrite <- Hperm.
    + intros name Hn. destruct (Hval name Hn) as [-> ?]. done.
  - intros [[Hkeys Hvals] Hnan]. split.
    + apply Permutation_length. by apply NoDup_Permutation.
    + intros name Hn. exists stored. split; [done|].
      rewrite Hsame by done.
      apply strict_eq_same. split; [apply Hvals|].
      rewrite <- Hvals. by apply Hnan.
Qed.

(** X15: for props and context objects none of whose properties is
    [undefined], a [ReactCacheKey] matches exactly the arguments that
    have the same own properties with the same values as the stored
    ones, none of them [NaN].  A property that is [undefined] breaks
    this: arguments whose only property is [undefined] match a key
    stored for one property of another name. *)
Theorem matches_is_exact_without_undefined (sp sc p c : jsobject) :
  NoDup (own_keys sp) -> NoDup (own_keys sc) ->
  NoDup (own_keys p) -> NoDup (own_keys c) ->
  plain_names p -> plain_names c ->
  no_value VUndefined p -> no_value VUndefined c ->
  (matches (constructor [Some sp; Some sc]) [Some p; Some c] = Normal true <->
   same_object p sp /\ same_object c sc /\ no_value VNaN p /\ no_value VNaN c) /\
  (forall a b v, a <> b -> Stats.inherited b = false ->
     matches (constructor [Some [(a, v)]; Some []]) [Some [(b, VUndefined)]; Some []] =
     Normal true).
Proof.
  intros Hsp Hsc Hp Hc Hpp Hpc Hdp Hdc. split.
  - rewrite matches_true. split.
    + intros (p' & c' & [= <-] & [= <-] & Hprops & Hcontext).
      apply (half_exact _ Props sp) in Hprops as [? ?]; [|done..].
      apply (half_exact _ Context sc) in Hcontext as [? ?]; [|done..].
      done.
    + intros (Hps & Hcs & Hnp & Hnc). exists p, c.
      split; [done|]. split; [done|]. split.
      * by apply (half_exact _ Props sp).
      * by apply (half_exact _ Context sc).
  - intros a b v Hab Hb. unfold matches, _isPropShallowEqual. simpl.
    rewrite (get_own_property [(b, VUndefined)] b) by (by left).
    rewrite (get_plain_name [(a, v)] b Hb). simpl.
    assert (String.eqb b a = false) as -> by (apply String.eqb_neq; congruence).
    by rewrite String.eqb_refl.
Qed.

Lemma matches_is_exact_without_undefined_witness :
  matches (constructor [Some [("a", VNum 1); ("b", VNum 2)]; Some []])
          [Some [("b", VNum 2); ("a", VNum 1)]; Some []] = Normal true.
Proof.
  assert (forall o : jsobject, bool_decide (NoDup (own_keys o)) = true ->
            NoDup (own_keys o)) as Hnd
    by (intros o; apply bool_decide_eq_true_1).
  apply (matches_is_exact_without_undefined
           [("a", VNum 1); ("b", VNum 2)] [] [("b", VNum 2); ("a", VNum 1)] []);
    try (apply Hnd; reflexivity).
  - by repeat constructor.
  - by repeat constructor.
  - intros name Hn. simpl in Hn.
    apply elem_of_cons in Hn as [->|Hn]; [done|].
    apply list_elem_of_singleton in Hn as ->. done.
  - intros name Hn. inversion Hn.
  - split; [|split; [|split]].
    + split.
      * intros name. simpl. rewrite !elem_of_cons, !elem_of_nil. tauto.
      * intros name. simpl.
        destruct (String.eqb name "b") eqn:Eb, (String.eqb name "a") eqn:Ea;
          try done.
        apply String.eqb_eq in Eb, Ea. congruence.
    + done.
    + intros name Hn. simpl in Hn.
      apply elem_of_cons in Hn as [->|Hn]; [done|].
      apply list_elem_of_singleton in Hn as ->. done.
    + intros name Hn. inversion Hn.
Defined.

Lemma shallow_equal_self stored p o :
  key_prop (constructor stored) p = Some o ->
  shallow_equal (constructor stored) p o <-> no_value VNaN o.
Proof.
  intros Hs. rewrite ReactCacheKeyFacts.shallow_equal_same.
  rewrite ReactCacheKeyFacts.key_prop_constructor, Hs. simpl. split.
  - intros [_ Hall] name Hn.
    destruct (Hall name Hn) as (stored' & [= <-] & He).
    rewrite (get_own_property o name Hn) in He.
    apply strict_eq_same in He as [_ He]. done.
  - intros Hnan. split; [done|]. intros name Hn. exists o. split; [done|].
    rewrite (get_own_property o name Hn).
    apply strict_eq_same. split; [done|]. by apply Hnan.
Qed.

(** X16: a [ReactCacheKey] matches the arguments it was built from
    exactly when both props and context are there and no property of
    them is [NaN]; so a component called with a [NaN] prop never finds
    its own key again. *)
Theorem matches_own_arguments_unless_NaN (args : list element) :
  matches (constructor args) args = Normal true <->
  exists p c, index args 0 = Some p /\ index args 1 = Some c /\
    no_value VNaN p /\ no_value VNaN c.
Proof.
  rewrite matches_true. split.
  - intros (p & c & Hp & Hc & Hsp & Hsc). exists p, c.
    split; [done|]. split; [done|].
    apply shallow_equal_self in Hsp; [|done].
    apply shallow_equal_self in Hsc; [|done]. done.
  - intros (p & c & Hp & Hc & Hnp & Hnc). exists p, c.
    split; [done|]. split; [done|].
    split; by apply shallow_equal_self.
Qed.

(** The keys of the cache were built by the constructor. *)
Lemma scan_find (items : Cache) args p c :
  Forall (fun item => exists stored, key (item_key item) = constructor stored) items ->
  index args 0 = Some p -> index args 1 = Some c ->
  scan items args =
  Normal (item_key <$>
            (snd <$> list_find (fun item =>
                                  matches (key (item_key item)) args = Normal true)
                               items)).
Proof.
  intros Hbuilt Hp Hc.
  induction Hbuilt as [|item rest [stored Hitem] _ IH]; [done|].
  cbn [scan list_find].
  destruct (matches (key (item_key item)) args) as [[|]|] eqn:Hm;
    cbn [mbind completion_bind].
  - by rewrite decide_True.
  - rewrite decide_False by done. rewrite IH.
    by destruct (list_find _ rest) as [[i x]|].
  - exfalso. revert Hm. rewrite Hitem. unfold matches. rewrite Hp, Hc.
    pose proof (ReactCacheKeyFacts.isPropShallowEqual_constructor_no_throw
                  stored Props p).
    pose proof (ReactCacheKeyFacts.isPropShallowEqual_constructor_no_throw
                  stored Context c).
    destruct (_isPropShallowEqual (constructor stored) Props (Some p)) as [[|]|];
      simpl; done.
Qed.

(** X17: [getReactCacheKey] on an empty cache returns a new key,
    whatever the arguments are.  On a cache whose keys were built by
    the constructor and for arguments with props and context it does
    not throw and returns the key of the first entry, in the order of
    the list, that matches, or a new key built from the arguments when
    none does.  On a cache that is not empty it throws when the props
    are [undefined]. *)
Theorem getReactCacheKey_resolution (cache : Cache) (args : list element)
  (alloc : nat) :
  getReactCacheKey [] args alloc =
    Normal {| ref := alloc; key := constructor args |} /\
  (cache <> [] -> index args 0 = None ->
   getReactCacheKey cache args alloc = TypeError) /\
  (Forall (fun item => exists stored, key (item_key item) = constructor stored) cache ->
   forall p c, index args 0 = Some p -> index args 1 = Some c ->
   getReactCacheKey cache args alloc =
   Normal (match list_find (fun item =>
                              matches (key (item_key item)) args = Normal true) cache with
           | Some (_, item) => item_key item
           | None => {| ref := alloc; key := constructor args |}
           end)).
Proof.
  split; [done|]. split.
  - intros Hne Hp. destruct cache as [|item rest]; [done|].
    unfold getReactCacheKey, matches. simpl. by rewrite Hp.
  - intros Hbuilt p c Hp Hc. destruct cache as [|item rest]; [done|].
    pose proof (scan_find [item] args p c) as Hhead.
    apply Forall_cons in Hbuilt as [Hitem Hrest].
    specialize (Hhead (Forall_cons_2 _ _ _ Hitem (Forall_nil_2 _)) Hp Hc).
    unfold getReactCacheKey. cbn [length Nat.eqb negb head drop list_find].
    cbn [scan list_find] in Hhead.
    destruct (matches (key (item_key item)) args) as [[|]|] eqn:Hm;
      cbn [mbind completion_bind] in *.
    + by rewrite decide_True.
    + rewrite decide_False by done. rewrite drop_0.
      rewrite (scan_find rest args p c) by done.
      cbn [mbind completion_bind].
      by destruct (list_find _ rest) as [[i x]|].
    + done.
Qed.

Lemma getReactCacheKey_resolution_witness :
  getReactCacheKey cache_two [Some [("a", VNum 2)]; Some []] 2 =
  Normal {| ref := 0; key := constructor [Some [("a", VNum 2)]; Some []] |}.
Proof.
  refine (proj2 (proj2 (getReactCacheKey_resolution cache_two
                          [Some [("a", VNum 2)]; Some []] 2)) _ _ _ eq_refl eq_refl).
  repeat constructor; eexists; reflexivity.
Defined.

End ReactFacts.

Module MapLikeFacts.
Import MapLike.

Lemma getIndexOf_from_find items index size k :
  getIndexOf_from items index size k =
  match list_find (fun item => key item = k) (firstn (size - index) items) with
  | Some (i, _) => Normal (Z.of_nat (index + i))
  | None => if size - index <=? length items then Normal (-1)%Z else TypeError
  end.
Proof.
  revert index. induction items as [|item rest IH]; intros index.
  - cbn [getIndexOf_from]. rewrite take_nil. cbn [list_find length].
    destruct (index <? size) eqn:E.
    + apply Nat.ltb_lt in E.
      assert ((size - index <=? 0) = false) as -> by (apply Nat.leb_gt; lia). done.
    + apply Nat.ltb_ge in E.
      assert ((size - index <=? 0) = true) as -> by (apply Nat.leb_le; lia). done.
  - cbn [getIndexOf_from].
    destruct (index <? size) eqn:E.
    + apply Nat.ltb_lt in E.
      replace (size - index) with (S (size - S index)) by lia.
      cbn [firstn list_find length].
      destruct (Part000.isEqual (key item) k) eqn:He.
      * apply Part000Facts.isEqual_eq in He. rewrite decide_True by done.
        f_equal. lia.
      * assert (key item <> k) as Hne.
        { intros Heq. apply Part000Facts.isEqual_eq in Heq. congruence. }
        rewrite decide_False by done. rewrite IH.
        destruct (list_find _ (firstn (size - S index) rest)) as [[i x]|]; simpl.
        -- f_equal. lia.
        -- done.
    + apply Nat.ltb_ge in E.
      replace (size - index) with 0 by lia. done.
Qed.

(** X18: [getIndexOf] returns the first index below [map.size] whose
    key is the key looked for, [NaN] being equal to itself, and [-1]
    when there is none and [map.size] does not exceed the list; it
    throws when there is none and the list is shorter than
    [map.size].  [isKeyLastItem] is false without a last item. *)
Theorem getIndexOf_finds_first_same_value (map : t) (k : Js.value) :
  getIndexOf map k =
    match list_find (fun item => key item = k) (firstn (size map) (list map)) with
    | Some (i, _) => Normal (Z.of_nat i)
    | None => if size map <=? length (list map) then Normal (-1)%Z else TypeError
    end /\
  (forall items, getIndexOf {| list := items ++ [ {| key := VNaN; value := Value VNaN |} ];
                               size := S (length items) |} VNaN <> Normal (-1)%Z) /\
  (forall lastItem, isKeyLastItem lastItem k = true <->
                    exists item, lastItem = Some item /\ key item = k).
Proof.
  split; [|split].
  - unfold getIndexOf. rewrite getIndexOf_from_find. by rewrite Nat.sub_0_r.
  - intros items. unfold getIndexOf. rewrite getIndexOf_from_find.
    cbn [size list]. rewrite Nat.sub_0_r.
    destruct (list_find _ _) as [[i x]|] eqn:Hf; [intros [= H]; lia|].
    apply list_find_None in Hf. rewrite Forall_forall in Hf.
    exfalso. apply (Hf {| key := VNaN; value := Value VNaN |}); [|done].
    rewrite take_ge by (rewrite length_app; simpl; lia).
    apply elem_of_app. right. by left.
  - intros [item|]; simpl.
    + rewrite Part000Facts.isEqual_eq. split; [eauto|].
      by intros (item' & [= <-] & ?).
    + split; [done|]. by intros (item & ? & _).
Qed.

End MapLikeFacts.

Module UtilsMoreFacts.
Import Utils.

Lemma findIndex_loop_find items base k :
  findIndex_loop items base k =
  match list_find (fun item => ref k = ref (key item)) items with
  | Some (i, _) => Z.of_nat (base + i)
  | None => (-1)%Z
  end.
Proof.
  revert base. induction items as [|item rest IH]; intros base; simpl; [done|].
  unfold same_key. case_decide as Hk.
  - rewrite bool_decide_eq_true_2 by done. f_equal. lia.
  - rewrite bool_decide_eq_false_2 by done. rewrite IH.
    destruct (list_find _ rest) as [[i x]|]; simpl; [|done]. f_equal. lia.
Qed.

(** X19: the function [createFindIndex(startingIndex)] returns gives
    the least index at or after [startingIndex] whose entry has the
    very key object looked for, and [-1] exactly when no entry from
    [startingIndex] on has it; [findIndexAfterFirst] never returns
    0. *)
Theorem createFindIndex_least_index (startingIndex : nat) (items : list ListItem)
  (k : CacheKey) :
  let r := createFindIndex startingIndex items k in
  (r = (-1)%Z <->
   forall i item, startingIndex <= i -> items !! i = Some item ->
                  ref (key item) <> ref k) /\
  (forall i, r = Z.of_nat i ->
     startingIndex <= i /\
     (exists item, items !! i = Some item /\ ref (key item) = ref k) /\
     forall j item, startingIndex <= j < i -> items !! j = Some item ->
                    ref (key item) <> ref k) /\
  (r = (-1)%Z \/ (Z.of_nat startingIndex <= r < Z.of_nat (length items))%Z) /\
  findIndexAfterFirst items k <> 0%Z.
Proof.
  assert (forall s, 
            let r := createFindIndex s items k in
            (r = (-1)%Z <->
             forall i item, s <= i -> items !! i = Some item ->
                            ref (key item) <> ref k) /\
            (forall i, r = Z.of_nat i ->
               s <= i /\
               (exists item, items !! i = Some item /\ ref (key item) = ref k) /\
               forall j item, s <= j < i -> items !! j = Some item ->
                              ref (key item) <> ref k)) as Hgen.
  { intros s r. subst r. unfold createFindIndex. rewrite findIndex_loop_find.
    destruct (list_find _ (drop s items)) as [[i x]|] eqn:Hf.
    - apply list_find_Some in Hf as (Hl & Hx & Hbefore).
      rewrite lookup_drop in Hl. split.
      + split; [lia|]. intros H. exfalso. by apply (H (s + i) x); [lia| |].
      + intros i' Hi'. assert (i' = s + i) as -> by lia.
        split; [lia|]. split; [eauto|].
        intros j item [Hsj Hji] Hj Href.
        apply (Hbefore (j - s) item); [|lia|done].
        rewrite lookup_drop. by replace (s + (j - s)) with j by lia.
    - apply list_find_None in Hf. rewrite Forall_forall in Hf. split.
      + split; [|done]. intros _ i item Hsi Hi Href.
        apply (Hf item); [|done].
        apply (list_elem_of_lookup_2 _ (i - s)).
        rewrite lookup_drop. by replace (s + (i - s)) with i by lia.
      + intros i Hi. lia. }
  intros r. destruct (Hgen startingIndex) as [Hnone Hsome]. fold r in Hnone, Hsome.
  split; [exact Hnone|]. split; [exact Hsome|]. split.
  - destruct (decide (r = (-1)%Z)) as [|Hne]; [by left|right].
    assert (exists i, r = Z.of_nat i) as [i Hi].
    { subst r. unfold createFindIndex. rewrite findIndex_loop_find.
      unfold createFindIndex in Hne. rewrite findIndex_loop_find in Hne.
      destruct (list_find _ _) as [[i x]|]; [eauto|done]. }
    destruct (Hsome i Hi) as (Hle & (item & Hitem & _) & _).
    apply lookup_lt_Some in Hitem. lia.
  - intros H0. destruct (Hgen 1) as [_ Hs].
    destruct (Hs 0 H0) as [Hle _]. lia.
Qed.

Lemma createFindIndex_least_index_witness :
  findIndex (Cache.list cache_321) (key_of 2 20) = 1%Z /\
  findIndexAfterFirst (Cache.list cache_321) (key_of 3 30) = (-1)%Z.
Proof.
  split; [reflexivity|].
  apply (proj1 (createFindIndex_least_index 1 (Cache.list cache_321) (key_of 3 30))).
  intros i item Hi Hitem.
  destruct i as [|[|[|i]]]; [lia| | |done];
    simpl in Hitem; injection Hitem as <-; discriminate.
Defined.

Lemma bind_assoc {A B C} (c : completion A) (f : A -> completion B)
  (g : B -> completion C) :
  (y ← (x ← c; f x); g y) = (x ← c; y ← f x; g y).
Proof. by destruct c. Qed.

Lemma compose_snoc (f : fn) (rest : list fn) (g : fn) args :
  compose f (rest ++ [g]) args = (x ← g args; compose f rest x).
Proof.
  unfold compose. rewrite fold_left_app. done.
Qed.

Lemma compose_app (f : fn) (l1 : list fn) (g : fn) (l2 : list fn) args :
  compose f (l1 ++ g :: l2) args = (x ← compose g l2 args; compose f l1 x).
Proof.
  revert args. induction l2 as [|h l2 IH] using rev_ind; intros args.
  - apply compose_snoc.
  - rewrite app_comm_cons, app_assoc, !compose_snoc, bind_assoc.
    destruct (h args) as [x|]; [|done]. cbn [mbind completion_bind]. apply IH.
Qed.

(** X20: [compose] applies its functions from the last to the first,
    and the composition can be split anywhere: composing the first
    functions with the composition of the others is the same function,
    and it throws when the composition of the others does. *)
Theorem compose_is_associative (f g : fn) (l1 l2 : list fn) (args : list Js.value) :
  compose f (l1 ++ g :: l2) args = compose f (l1 ++ [compose g l2]) args /\
  compose f (l1 ++ g :: l2) args = compose (compose f l1) [compose g l2] args /\
  (compose g l2 args = TypeError -> compose f (l1 ++ g :: l2) args = TypeError) /\
  compose f [g] args = (x ← g args; f x).
Proof.
  split; [|split; [|split]].
  - by rewrite compose_app, compose_snoc.
  - by rewrite compose_app.
  - intros H. by rewrite compose_app, H.
  - done.
Qed.

Lemma compose_is_associative_witness :
  compose (lift (take 1)) [lift (@rev Js.value); fun _ => TypeError] [VNum 1; VNum 2] =
  TypeError.
Proof.
  apply (proj1 (proj2 (proj2 (compose_is_associative
                                (lift (take 1)) (lift (@rev Js.value)) []
                                [fun _ => TypeError] [VNum 1; VNum 2])))).
  reflexivity.
Defined.

End UtilsMoreFacts.

Module DecycleFacts.
Import Part000.



End DecycleFacts.
